(** * spinsys.half: basis construction and reordering for spin-1/2 chains

    A shallow embedding of [half.py] (functions [create_complete_basis],
    [full_matrix], [reorder_basis], [similarity_trans_matrix]) and of the
    helpers it calls, with the properties of the specification stated and
    settled against it.

    Python integers are [Z]; the float [current_j] is an exact rational
    [Q]; lists are [list]; dictionaries are insertion-ordered association
    lists; numpy arrays are lists of cells; exceptions are an explicit result
    type.  The module [utils.misc] that provides [binary_permutation] and
    [bin_to_dec] is not among the sources: the permutation step is a
    parameter of the functions that call it, and both helpers are modelled
    from the specification. *)

From Stdlib Require Import ZArith QArith Qround List Lia Bool Permutation.
From Stdlib Require Import FinFun.
Import ListNotations.
Local Open Scope Z_scope.

(** ** Exceptions and results *)

Inductive exception : Type :=
| IndexError
| KeyError
| TypeError
| ValueError.

Inductive result (A : Type) : Type :=
| Ok (a : A)
| Raise (e : exception).
Arguments Ok {A} a.
Arguments Raise {A} e.

Definition bind {A B : Type} (r : result A) (f : A -> result B) : result B :=
  match r with
  | Ok a => f a
  | Raise e => Raise e
  end.

Notation "x <- r ;; k" := (bind r (fun x => k))
  (at level 61, r at next level, right associativity).

(** ** Matrices

    A matrix is its shape and its entry function; the sparse and the dense
    containers of scipy differ in storage only, so both are this record and
    the conversion [csc_matrix] of a dense operand is the identity.  Entries
    are integers: every product formed below has a factor taken from an
    identity matrix. *)

Module Mat.

Record matrix : Type := mk {
  nrows : Z;
  ncols : Z;
  get : Z -> Z -> Z
}.

(** Two matrices are equal when they have the same shape and agree on every
    position inside it. *)
Definition eqm (A B : matrix) : Prop :=
  nrows A = nrows B /\ ncols A = ncols B /\
  forall i j, 0 <= i < nrows A -> 0 <= j < ncols A -> get A i j = get B i j.

(** [sp.sparse.eye(n)] *)
Definition eye (n : Z) : matrix :=
  mk n n (fun i j => if i =? j then 1 else 0).

(** [sp.sparse.kron(A, B)] *)
Definition kron (A B : matrix) : matrix :=
  mk (nrows A * nrows B) (ncols A * ncols B)
     (fun i j => get A (i / nrows B) (j / ncols B)
                 * get B (i mod nrows B) (j mod ncols B)).

(** The [n]-fold Kronecker power, the empty product being the 1 x 1 identity. *)
Fixpoint kron_pow (A : matrix) (n : nat) : matrix :=
  match n with
  | O => eye 1
  | S n' => kron A (kron_pow A n')
  end.

Definition is_2x2 (A : matrix) : Prop := nrows A = 2 /\ ncols A = 2.

End Mat.

Infix "==m" := Mat.eqm (at level 70, no associativity).

(** ** [full_matrix]

    [dim ** e] is an integer only for [e >= 0]; for a negative exponent Python
    yields a float and [sp.sparse.eye] rejects it. *)

Definition eye_pow (dim e : Z) : result Mat.matrix :=
  if e <? 0 then Raise TypeError else Ok (Mat.eye (dim ^ e)).

Definition full_matrix (matrix : Mat.matrix) (k N : Z) : result Mat.matrix :=
  let dim := 2 in
  let S := matrix in
  if k =? 0 then
    I <- eye_pow dim (N - 1) ;;
    Ok (Mat.kron S I)
  else if k =? 1 then
    let S_full := Mat.eye dim in
    let S_full := Mat.kron S_full S in
    I <- eye_pow dim (N - 2) ;;
    Ok (Mat.kron S_full I)
  else
    let S_full := Mat.eye dim in
    I1 <- eye_pow dim (k - 1) ;;
    let S_full := Mat.kron S_full I1 in
    let S_full := Mat.kron S_full S in
    I2 <- eye_pow dim (N - k - 1) ;;
    Ok (Mat.kron S_full I2).

(** The general branch of [full_matrix], on its own, for comparison with the
    dedicated [k == 1] branch. *)
Definition full_matrix_general (matrix : Mat.matrix) (k N : Z)
  : result Mat.matrix :=
  let dim := 2 in
  let S := matrix in
  let S_full := Mat.eye dim in
  I1 <- eye_pow dim (k - 1) ;;
  let S_full := Mat.kron S_full I1 in
  let S_full := Mat.kron S_full S in
  I2 <- eye_pow dim (N - k - 1) ;;
  Ok (Mat.kron S_full I2).

(** The dedicated [k == 1] branch of [full_matrix]. *)
Definition full_matrix_k1 (matrix : Mat.matrix) (N : Z) : result Mat.matrix :=
  let dim := 2 in
  let S := matrix in
  let S_full := Mat.eye dim in
  let S_full := Mat.kron S_full S in
  I <- eye_pow dim (N - 2) ;;
  Ok (Mat.kron S_full I).

(** The specification's embedding: identity on the [k] sites before, the
    operator on site [k], identity on the sites after. *)
Definition embed_spec (op : Mat.matrix) (k N : Z) : Mat.matrix :=
  Mat.kron (Mat.kron (Mat.kron_pow (Mat.eye 2) (Z.to_nat k)) op)
           (Mat.kron_pow (Mat.eye 2) (Z.to_nat (N - k - 1))).

(** ** Python containers *)

(** A [dict] with integer keys and values, in insertion order: assigning to a
    key already present replaces its value where it stands. *)
Definition dict : Type := list (Z * Z).

Fixpoint dict_set (d : dict) (k v : Z) : dict :=
  match d with
  | [] => [(k, v)]
  | (k', v') :: d' =>
      if k' =? k then (k, v) :: d' else (k', v') :: dict_set d' k v
  end.

Fixpoint dict_get (d : dict) (k : Z) : option Z :=
  match d with
  | [] => None
  | (k', v') :: d' => if k' =? k then Some v' else dict_get d' k
  end.

(** [d[k]] *)
Definition dict_getitem (d : dict) (k : Z) : result Z :=
  match dict_get d k with
  | Some v => Ok v
  | None => Raise KeyError
  end.

Definition dict_items (d : dict) : list (Z * Z) := d.

(** [range(n)] *)
Definition range (n : Z) : list Z := map Z.of_nat (seq 0 (Z.to_nat n)).

(** [[x] * n]: empty for [n <= 0]. *)
Definition list_mul {A : Type} (x : A) (n : Z) : list A := repeat x (Z.to_nat n).

(** Element access of a numpy array of length [len] at index [g]: negative
    indices count from the end, anything else out of range is an
    [IndexError]. *)
Definition np_index (len g : Z) : result nat :=
  if (0 <=? g) && (g <? len) then Ok (Z.to_nat g)
  else if (- len <=? g) && (g <? 0) then Ok (Z.to_nat (len + g))
  else Raise IndexError.

Fixpoint list_update {A : Type} (l : list A) (n : nat) (v : A) : list A :=
  match l, n with
  | [], _ => []
  | _ :: t, O => v :: t
  | x :: t, S n' => x :: list_update t n' v
  end.

Definition np_set {A : Type} (a : list A) (g : Z) (v : A) : result (list A) :=
  n <- np_index (Z.of_nat (length a)) g ;;
  Ok (list_update a n v).

(** ** Numbers *)

(** Python 3 [round] of a float to an integer: to nearest, ties to even. *)
Definition py_round (x : Q) : Z :=
  let f := Qfloor x in
  match Qcompare (x - inject_Z f) (1 # 2) with
  | Lt => f
  | Gt => f + 1
  | Eq => if Z.even f then f else f + 1
  end.

Fixpoint binom (n k : nat) : nat :=
  match n, k with
  | _, O => 1
  | O, S _ => 0
  | S n', S k' => (binom n' k' + binom n' k)%nat
  end.

(** [int(round(sp.misc.comb(N, k)))]: the binomial coefficient, and zero when
    [k] is outside [0, N] or [N] is negative. *)
Definition comb (N k : Z) : Z :=
  if (0 <=? k) && (k <=? N)
  then Z.of_nat (binom (Z.to_nat N) (Z.to_nat k))
  else 0.

(** ** Helpers of [utils.misc] *)

(** Number of digits of [l] equal to [1]. *)
Definition ones (l : list Z) : nat := count_occ Z.eq_dec l 1.

Definition is_bit (d : Z) : Prop := d = 0 \/ d = 1.

(** Modelled from the spec: [utils.misc.bin_to_dec] is not among the sources.
    The global index of an arrangement is the integer value of its digit
    sequence read as a base-2 number, most-significant digit first. *)
Definition bin_to_dec (l : list Z) : Z :=
  fold_left (fun acc d => 2 * acc + d) l 0.

(** The arrangement that opens the lexicographic order: zeros, then ones. *)
Definition first_arrangement (l : list Z) : list Z :=
  repeat 0 (length l - ones l) ++ repeat 1 (ones l).

(** The lexicographic successor of [l] among the arrangements of its digits,
    [None] when [l] is the last one (ones first, zeros last).  The successor
    keeps the longest possible prefix: it is found in the tail when the tail
    has one, and otherwise a leading 0 becomes 1 and the rest restarts at its
    first arrangement. *)
Fixpoint next_arrangement (l : list Z) : option (list Z) :=
  match l with
  | [] => None
  | b :: t =>
      match next_arrangement t with
      | Some t' => Some (b :: t')
      | None =>
          if (b =? 0) && (0 <? ones t)%nat
          then Some (1 :: repeat 0 (S (length t - ones t))
                       ++ repeat 1 (ones t - 1))
          else None
      end
  end.

(** Modelled from the spec: [utils.misc.binary_permutation] is not among the
    sources.  Section 4.1 of the specification: given a list of 0/1 digits it
    produces the lexicographically next distinct arrangement of the same
    digits, and it fails with the out-of-range signal when it is invoked on
    the final arrangement of that order, the one with no successor (ones
    first, zeros last; a list of equal digits is its own final
    arrangement). *)
Definition binary_permutation (l : list Z) : result (list Z) :=
  match next_arrangement l with
  | Some l' => Ok l'
  | None => Raise IndexError
  end.

(** A permutation step that closes the cycle instead: the lexicographic
    successor, the first arrangement again after the last one, and the
    out-of-range signal only for a list of equal digits, where no distinct
    arrangement exists.  These are the sectors in which the call site in
    [create_complete_basis] expects the signal ("When current_j is N // 2 or
    -N // 2").  It is not taken from the specification; it instantiates the
    statements made for a step that cycles through a sector. *)
Definition cyclic_permutation (l : list Z) : result (list Z) :=
  if ((ones l =? 0) || (ones l =? length l))%nat then Raise IndexError
  else match next_arrangement l with
       | Some l' => Ok l'
       | None => Ok (first_arrangement l)
       end.

(** ** [create_complete_basis]

    The permutation step of [utils.misc] is a parameter [step] of the
    embedding, so that what holds of the loop of [half.py] alone is stated
    for every step, and a concrete step is passed where its behaviour
    matters. *)

Section Enumerator.

Variable step : list Z -> result (list Z).

(** The loop state: the running arrangement, the three results, and a log of
    the iterations at which the [IndexError] of the step was caught. *)
Record cb_state : Type := mk_cb {
  cb_basis : list Z;
  cb_basis_set : list (list Z);
  cb_to_diag : dict;
  cb_to_ord : dict;
  cb_caught : list Z
}.

(** The [try ... except IndexError: pass] around the step: [IndexError]
    leaves [basis] as it was, any other exception propagates. *)
Definition try_step (basis : list Z) : result (list Z * bool) :=
  match step basis with
  | Ok b => Ok (b, false)
  | Raise IndexError => Ok (basis, true)
  | Raise e => Raise e
  end.

Definition cb_body (dim : Z) (st : cb_state) (i : Z) : result cb_state :=
  r <- try_step (cb_basis st) ;;
  let basis := fst r in
  let basis_set := cb_basis_set st ++ [basis] in
  let decimal_basis := bin_to_dec basis in
  let to_diag := dict_set (cb_to_diag st) (dim - decimal_basis - 1) i in
  let to_ord := dict_set (cb_to_ord st) i (dim - decimal_basis - 1) in
  Ok (mk_cb basis basis_set to_diag to_ord
            (if snd r then cb_caught st ++ [i] else cb_caught st)).

Fixpoint cb_loop (dim : Z) (st : cb_state) (idx : list Z) : result cb_state :=
  match idx with
  | [] => Ok st
  | i :: idx' => st' <- cb_body dim st i ;; cb_loop dim st' idx'
  end.

Definition spin_ups_of (N : Z) (current_j : Q) : Z :=
  py_round ((1 # 2) * inject_Z N + current_j).

Definition cb_run (N : Z) (current_j : Q) : result cb_state :=
  let dim := 2 ^ N in
  let spin_ups := spin_ups_of N current_j in
  let spin_downs := N - spin_ups in
  let blksize := comb N spin_ups in
  let basis_seed := list_mul 0 spin_downs ++ list_mul 1 spin_ups in
  let basis := basis_seed in
  cb_loop dim (mk_cb basis [] [] [] []) (range blksize).

Definition create_complete_basis (N : Z) (current_j : Q)
  : result (list (list Z) * dict * dict) :=
  st <- cb_run N current_j ;;
  Ok (cb_basis_set st, cb_to_diag st, cb_to_ord st).

(** The iterations of a full enumeration at which the exhaustion signal was
    raised (and caught). *)
Definition exhaustion_signals (N : Z) (current_j : Q) : result (list Z) :=
  st <- cb_run N current_j ;;
  Ok (cb_caught st).

(** ** [reorder_basis] *)

(** The input vector: a flat 1-D array or a 2-D array given by its rows. *)
Inductive ndarray : Type :=
| Arr1 (v : list Z)
| Arr2 (rows : list (list Z)).

(** [psi_diag.nonzero()[0]]: the (row) index of every nonzero entry, in
    row-major order. *)
Definition nonzero0 (psi : ndarray) : list Z :=
  match psi with
  | Arr1 v =>
      map fst (filter (fun p => negb (snd p =? 0))
                      (combine (range (Z.of_nat (length v))) v))
  | Arr2 rows =>
      concat (map (fun p => map (fun _ => fst p)
                                (filter (fun x => negb (x =? 0)) (snd p)))
                  (combine (range (Z.of_nat (length rows))) rows))
  end.

(** [psi_diag[i, 0]] *)
Definition getitem2 (psi : ndarray) (i : Z) : result Z :=
  match psi with
  | Arr1 _ => Raise IndexError
  | Arr2 rows =>
      n <- np_index (Z.of_nat (length rows)) i ;;
      match nth_error rows n with
      | Some (x :: _) => Ok x
      | _ => Raise IndexError
      end
  end.

(** [psi_diag[i]], as a value that can be stored in one cell. *)
Definition getitem1 (psi : ndarray) (i : Z) : result Z :=
  match psi with
  | Arr1 v =>
      n <- np_index (Z.of_nat (length v)) i ;;
      match nth_error v n with
      | Some x => Ok x
      | None => Raise IndexError
      end
  | Arr2 rows =>
      n <- np_index (Z.of_nat (length rows)) i ;;
      match nth_error rows n with
      | Some [x] => Ok x
      | Some _ => Raise ValueError
      | None => Raise IndexError
      end
  end.

(** One pass [for i in psi_diag.nonzero()[0]: psi_ord[to_ord[i], 0] = rhs(i)]
    over the shared output array: the array as the pass left it, and the
    exception that stopped it, if any.  The right-hand side is evaluated
    before the subscript of the target. *)
Fixpoint rb_pass (rhs : Z -> result Z) (to_ord : dict) (psi_ord : list Z)
  (idx : list Z) : list Z * option exception :=
  match idx with
  | [] => (psi_ord, None)
  | i :: idx' =>
      match rhs i with
      | Raise e => (psi_ord, Some e)
      | Ok v =>
          match dict_getitem to_ord i with
          | Raise e => (psi_ord, Some e)
          | Ok g =>
              match np_set psi_ord g v with
              | Raise e => (psi_ord, Some e)
              | Ok psi_ord' => rb_pass rhs to_ord psi_ord' idx'
              end
          end
      end
  end.

Definition reorder_basis (N : Z) (psi_diag : ndarray) (current_j : Q)
  : result (list Z) :=
  if N <? 0 then Raise TypeError else
  let psi_ord := repeat 0 (Z.to_nat (2 ^ N)) in
  r <- create_complete_basis N current_j ;;
  let to_ord := snd r in
  match rb_pass (getitem2 psi_diag) to_ord psi_ord (nonzero0 psi_diag) with
  | (psi_ord, None) => Ok psi_ord
  | (psi_ord, Some IndexError) =>
      match rb_pass (getitem1 psi_diag) to_ord psi_ord (nonzero0 psi_diag) with
      | (psi_ord, None) => Ok psi_ord
      | (_, Some e) => Raise e
      end
  | (_, Some e) => Raise e
  end.

(** ** [similarity_trans_matrix] *)

(** [np.arange(N / 2, -N / 2 - 1, -1)]: the [N + 1] values
    [N/2, N/2 - 1, ..., -N/2]. *)
Definition arange_j (N : Z) : list Q :=
  map (fun t => inject_Z N / 2 - inject_Z t)%Q (range (N + 1)).

(** The loop state.  [np.empty] allocates cells that hold no defined value
    until they are written: such a cell is [None]. *)
Record stm_state : Type := mk_stm {
  stm_offset : Z;
  stm_current_pos : Z;
  stm_row_ind : list (option Z);
  stm_col_ind : list (option Z)
}.

Definition stm_inner (offset : Z) (st : stm_state) (item : Z * Z)
  : result stm_state :=
  let ord_ind := fst item in
  let diag_ind := snd item in
  row_ind <- np_set (stm_row_ind st) (stm_current_pos st)
                    (Some (diag_ind + offset)) ;;
  col_ind <- np_set (stm_col_ind st) (stm_current_pos st) (Some ord_ind) ;;
  Ok (mk_stm (stm_offset st) (stm_current_pos st + 1) row_ind col_ind).

Fixpoint stm_items (offset : Z) (st : stm_state) (items : list (Z * Z))
  : result stm_state :=
  match items with
  | [] => Ok st
  | it :: items' => st' <- stm_inner offset st it ;; stm_items offset st' items'
  end.

Definition stm_body (N : Z) (st : stm_state) (current_j : Q)
  : result stm_state :=
  let spin_ups := spin_ups_of N current_j in
  let blksize := comb N spin_ups in
  r <- create_complete_basis N current_j ;;
  let to_diag := snd (fst r) in
  st' <- stm_items (stm_offset st) st (dict_items to_diag) ;;
  Ok (mk_stm (stm_offset st' + blksize) (stm_current_pos st')
             (stm_row_ind st') (stm_col_ind st')).

Fixpoint stm_loop (N : Z) (st : stm_state) (js : list Q) : result stm_state :=
  match js with
  | [] => Ok st
  | j :: js' => st' <- stm_body N st j ;; stm_loop N st' js'
  end.

Definition stm_run (N : Z) : result stm_state :=
  if N <? 0 then Raise TypeError else
  let offset := 0 in
  let dim := 2 ^ N in
  let row_ind := repeat None (Z.to_nat dim) in
  let col_ind := repeat None (Z.to_nat dim) in
  let current_pos := 0 in
  stm_loop N (mk_stm offset current_pos row_ind col_ind) (arange_j N).

(** A triplet is usable when both indices lie inside the shape, which
    [csc_matrix] checks.  A cell that was never written holds no defined
    value: the model rejects its triplet too. *)
Definition triplet_ok (dim : Z) (p : option Z * option Z) : bool :=
  match p with
  | (Some r, Some c) => (0 <=? r) && (r <? dim) && (0 <=? c) && (c <? dim)
  | _ => false
  end.

Definition triplet_hits (r c : Z) (p : option Z * option Z) : bool :=
  match p with
  | (Some r', Some c') => (r' =? r) && (c' =? c)
  | _ => false
  end.

(** [sp.sparse.csc_matrix((data, (row_ind, col_ind)), shape=(dim, dim))] with
    [data = np.ones(dim)]: the entry at [(r, c)] is the sum of the data of
    the triplets that name it. *)
Definition csc_matrix (row_ind col_ind : list (option Z)) (dim : Z)
  : result Mat.matrix :=
  let triplets := combine row_ind col_ind in
  if forallb (triplet_ok dim) triplets
  then Ok (Mat.mk dim dim
             (fun r c => Z.of_nat (length (filter (triplet_hits r c) triplets))))
  else Raise ValueError.

Definition similarity_trans_matrix (N : Z) : result Mat.matrix :=
  st <- stm_run N ;;
  csc_matrix (stm_row_ind st) (stm_col_ind st) (2 ^ N).

End Enumerator.

(** ** Auxiliary notions used to state the properties *)

(** A Pauli-like operator used to instantiate the statements. *)
Definition sigma_x : Mat.matrix :=
  Mat.mk 2 2 (fun i j => if i =? j then 0 else 1).

(** An arrangement of a chain of [n] sites with [k] spins up. *)
Definition arrangement (n k : nat) (l : list Z) : Prop :=
  length l = n /\ Forall is_bit l /\ ones l = k.

(** The position of an arrangement in the lexicographic order of the
    arrangements of its digits: those that start with 0 come first. *)
Fixpoint rank (l : list Z) : nat :=
  match l with
  | [] => O
  | b :: t =>
      if b =? 1 then (binom (length t) (S (ones t)) + rank t)%nat else rank t
  end.

(** What the loop of [create_complete_basis] keeps after one step: the new
    arrangement, or the old one when the step signalled exhaustion. *)
Definition step_or_stay (step : list Z -> result (list Z)) (l : list Z)
  : list Z :=
  match step l with
  | Ok l' => l'
  | Raise _ => l
  end.

(** The seed arrangement of the sector with [k] spins up among [n] sites. *)
Definition seed (n k : nat) : list Z := repeat 0 (n - k) ++ repeat 1 k.

(** The [n]-digit binary representation of [g], most-significant digit
    first. *)
Fixpoint to_bits (n : nat) (g : Z) : list Z :=
  match n with
  | O => []
  | S n' => to_bits n' (g / 2) ++ [g mod 2]
  end.

(** Number of ones of the [N]-bit representation of [g]. *)
Definition popcount (N : Z) (g : Z) : Z :=
  Z.of_nat (ones (to_bits (Z.to_nat N) g)).

(** The arrangement the loop holds after [n] iterations from [l]. *)
Definition iter_step (step : list Z -> result (list Z)) (n : nat) (l : list Z)
  : list Z :=
  Nat.iter n (step_or_stay step) l.

(** The index [create_complete_basis] records for an arrangement. *)
Definition recorded_index (dim : Z) (basis : list Z) : Z :=
  dim - bin_to_dec basis - 1.

(** Every digit exchanged for the other one. *)
Definition flip (l : list Z) : list Z := map (fun d => 1 - d) l.

(** The dictionary built by assigning [f j := h j] for the [j] of a list, in
    order. *)
Definition dict_of (f h : nat -> Z) (js : list nat) : dict :=
  fold_left (fun d j => dict_set d (f j) (h j)) js [].

(** The arrangement that [create_complete_basis], run with the permutation
    step [step], records at local index [j] of the sector with [k] spins up
    among [n] sites, and the index it records for it. *)
Definition sector_basis (step : list Z -> result (list Z)) (n k j : nat)
  : list Z :=
  iter_step step (S j) (seed n k).

Definition sector_index (step : list Z -> result (list Z)) (n k j : nat) : Z :=
  recorded_index (2 ^ Z.of_nat n) (sector_basis step n k j).

(** ** The contract of the permutation step

    [utils.misc.binary_permutation] is not among the sources.  What is stated
    about the index maps is stated for a permutation step that, started on
    the seed of a sector, visits every arrangement of the sector in the
    iterations the loop of [create_complete_basis] gives it.  The contract is
    a test that runs the step, so that it can be evaluated for a given step
    and sector. *)

Fixpoint list_eqb (l1 l2 : list Z) : bool :=
  match l1, l2 with
  | [], [] => true
  | x :: t1, y :: t2 => (x =? y) && list_eqb t1 t2
  | _, _ => false
  end.

Definition is_bitb (d : Z) : bool := (d =? 0) || (d =? 1).

Definition arrangementb (n k : nat) (l : list Z) : bool :=
  (length l =? n)%nat && forallb is_bitb l && (ones l =? k)%nat.

Fixpoint distinctb (ls : list (list Z)) : bool :=
  match ls with
  | [] => true
  | l :: t => negb (existsb (list_eqb l) t) && distinctb t
  end.

(** The step returns, or raises the exhaustion signal. *)
Definition step_okb (step : list Z -> result (list Z)) (l : list Z) : bool :=
  match step l with
  | Ok _ | Raise IndexError => true
  | Raise _ => false
  end.

(** The step raises the exhaustion signal. *)
Definition signals (step : list Z -> result (list Z)) (l : list Z) : bool :=
  match step l with
  | Raise IndexError => true
  | _ => false
  end.

(** Started on the seed of the sector with [k] spins up among [n] sites and
    run for [C(n, k)] iterations, the step raises nothing but the exhaustion
    signal and leaves after each iteration an arrangement of the sector that
    no earlier iteration left: the loop records every arrangement of the
    sector once. *)
Definition enumeratesb (step : list Z -> result (list Z)) (n k : nat) : bool :=
  let orbit := seq 0 (binom n k) in
  forallb (fun j => step_okb step (iter_step step j (seed n k))) orbit
  && forallb (fun j => arrangementb n k (sector_basis step n k j)) orbit
  && distinctb (map (sector_basis step n k) orbit).

(** The contract on every sector of a chain of [n] sites. *)
Definition enumerates_allb (step : list Z -> result (list Z)) (n : nat) : bool :=
  forallb (enumeratesb step n) (seq 0 (S n)).

(** A step that fails with an exception other than the exhaustion signal. *)
Definition failing_step (l : list Z) : result (list Z) := Raise ValueError.

(** A vector as a 2-D column: one row of one entry per component. *)
Definition column (v : list Z) : ndarray := Arr2 (map (fun x => [x]) v).

(** [v[i]] for an index inside the vector. *)
Definition entry (v : list Z) (i : Z) : Z := nth (Z.to_nat i) v 0.

(** ** Notions for [similarity_trans_matrix] *)

(** The block offset when the sector of rank [t] in the traversal (the one
    with [n - t] spins up) starts: the sizes of the sectors before it. *)
Definition sector_offset (n t : nat) : nat :=
  list_sum (map (fun t' => binom n (n - t')) (seq 0 t)).

(** The column indices written by the first [t] sectors of the traversal, in
    the order they are written. *)
Definition sector_cols (step : list Z -> result (list Z)) (n t : nat)
  : list Z :=
  concat (map (fun t' => map (sector_index step n (n - t'))
                             (seq 0 (binom n (n - t'))))
              (seq 0 t)).

(** The sum of [f t] for [t] in [range(n)]. *)
Definition zsum (f : Z -> Z) (n : Z) : Z :=
  fold_right (fun t acc => f t + acc) 0 (range n).

Definition transpose (A : Mat.matrix) : Mat.matrix :=
  Mat.mk (Mat.ncols A) (Mat.nrows A) (fun i j => Mat.get A j i).

Definition mat_mul (A B : Mat.matrix) : Mat.matrix :=
  Mat.mk (Mat.nrows A) (Mat.ncols B)
    (fun i j => zsum (fun t => Mat.get A i t * Mat.get B t j) (Mat.ncols A)).

(** The loop state of [similarity_trans_matrix] when the sector of rank [t]
    in the traversal is about to be processed, for a step that meets its
    contract: the rows written are the positions themselves. *)
Definition stm_state_at (step : list Z -> result (list Z)) (n t : nat)
  : stm_state :=
  let off := sector_offset n t in
  mk_stm (Z.of_nat off) (Z.of_nat off)
    (map Some (map Z.of_nat (seq 0 off)) ++ repeat None (2 ^ n - off))
    (map Some (sector_cols step n t) ++ repeat None (2 ^ n - off)).

(** The column index that [similarity_trans_matrix] writes at position [p]. *)
Definition col_at (step : list Z -> result (list Z)) (n p : nat) : Z :=
  nth p (sector_cols step n (S n)) 0.

(** ** Further notions used to state properties of [half.py] *)

(** A step that always signals exhaustion. *)
Definition stuck_step (l : list Z) : result (list Z) := Raise IndexError.

(** Entrywise sum of two vectors of the same length, and the multiple of a
    vector. *)
Definition vec_add (v w : list Z) : list Z :=
  map (fun p => fst p + snd p) (combine v w).

Definition vec_scale (a : Z) (v : list Z) : list Z := map (Z.mul a) v.

(** The row at which the block of the sector with [s] spin-ups starts in
    [similarity_trans_matrix]: [offset] when the loop reaches that sector, the
    sizes of the blocks of the sectors with [N], [N - 1], ..., [s + 1]
    spin-ups added up. *)
Definition block_offset (N s : Z) : Z := zsum (fun t => comb N (N - t)) (N - s).

(** The product of a matrix and a vector. *)
Definition mat_vec (A : Mat.matrix) (v : list Z) : list Z :=
  map (fun r => zsum (fun c => Mat.get A r c * entry v c) (Mat.ncols A))
      (range (Mat.nrows A)).

(** The state of site [k] of an [N]-site chain in the product-basis index
    [i]: site 0 is the most significant binary digit. *)
Definition site_bit (N k i : Z) : Z := (i / 2 ^ (N - k - 1)) mod 2.

(** A state of one site as a 2 x 1 column. *)
Definition spin_up : Mat.matrix :=
  Mat.mk 2 1 (fun i _ => if i =? 0 then 1 else 0).

Definition sigma_z : Mat.matrix :=
  Mat.mk 2 2 (fun i j => if i =? j then (if i =? 0 then 1 else -1) else 0).

(** * Kronecker products and [full_matrix] *)

Module MatFacts.
Import Mat.

Lemma eqm_refl A : A ==m A.
Proof. repeat split. Qed.

Lemma eqm_sym A B : A ==m B -> B ==m A.
Proof.
  intros (Hr & Hc & He). repeat split; try congruence.
  intros i j Hi Hj. symmetry. apply He; congruence.
Qed.

Lemma eqm_trans A B C : A ==m B -> B ==m C -> A ==m C.
Proof.
  intros (Hr & Hc & He) (Hr' & Hc' & He'). repeat split; try congruence.
  intros i j Hi Hj. rewrite He by assumption. apply He'; congruence.
Qed.

Lemma div_mod_range i a b :
  0 <= i < a * b -> 0 <= b -> 0 <= i / b < a /\ 0 <= i mod b < b.
Proof.
  intros Hi Hb.
  assert (0 < b).
  { destruct (Z.eq_dec b 0) as [->|]; [rewrite Z.mul_0_r in Hi|]; lia. }
  split.
  - split; [apply Z.div_pos; lia|].
    apply Z.div_lt_upper_bound; lia.
  - apply Z.mod_pos_bound; lia.
Qed.

(** The Kronecker product respects matrix equality. *)
Lemma kron_eqm A A' B B' :
  0 <= nrows B -> 0 <= ncols B ->
  A ==m A' -> B ==m B' -> kron A B ==m kron A' B'.
Proof.
  intros HrB HcB (Hr & Hc & He) (Hr' & Hc' & He').
  unfold kron; repeat split; simpl; try congruence.
  intros i j Hi Hj.
  destruct (div_mod_range i _ _ Hi HrB) as [Hi1 Hi2].
  destruct (div_mod_range j _ _ Hj HcB) as [Hj1 Hj2].
  rewrite <- Hr', <- Hc'.
  rewrite He by assumption. rewrite He' by assumption. reflexivity.
Qed.

Lemma eye_kron_eye a b : kron (eye a) (eye b) ==m eye (a * b).
Proof.
  unfold kron, eye; repeat split; simpl.
  intros i j Hi Hj.
  destruct (Z.eq_dec b 0) as [->|Hb]; [lia|].
  pose proof (Z.div_mod i b Hb). pose proof (Z.div_mod j b Hb).
  destruct (Z.eqb_spec (i / b) (j / b)), (Z.eqb_spec (i mod b) (j mod b)),
    (Z.eqb_spec i j); try reflexivity; try lia; subst; congruence.
Qed.

Lemma kron_eye1_r A : kron A (eye 1) ==m A.
Proof.
  unfold kron, eye; split; [cbn [nrows ncols]; lia|split; [cbn [nrows ncols]; lia|]].
  intros i j _ _. cbn [nrows ncols get]. rewrite !Z.div_1_r, !Z.mod_1_r.
  cbn [Z.eqb]. lia.
Qed.

Lemma kron_eye1_l A : kron (eye 1) A ==m A.
Proof.
  unfold kron, eye; split; [cbn [nrows ncols]; lia|split; [cbn [nrows ncols]; lia|]].
  cbn [nrows ncols get]. intros i j Hi Hj.
  rewrite !Z.div_small, !Z.mod_small by lia. cbn [Z.eqb]. lia.
Qed.

Lemma kron_pow_eye2 n : kron_pow (eye 2) n ==m eye (2 ^ Z.of_nat n).
Proof.
  induction n as [|n IH].
  - apply eqm_refl.
  - cbn [kron_pow].
    eapply eqm_trans.
    + apply kron_eqm; [| |apply eqm_refl|exact IH].
      * destruct IH as (-> & _). simpl. lia.
      * destruct IH as (_ & -> & _). simpl. lia.
    + replace (2 ^ Z.of_nat (S n)) with (2 * 2 ^ Z.of_nat n)
        by (rewrite Nat2Z.inj_succ, Z.pow_succ_r; lia).
      apply eye_kron_eye.
Qed.

Lemma kron_pow_eye2_Z e : 0 <= e -> kron_pow (eye 2) (Z.to_nat e) ==m eye (2 ^ e).
Proof.
  intros He. rewrite <- (Z2Nat.id e) at 2 by assumption. apply kron_pow_eye2.
Qed.

End MatFacts.

Lemma eye_pow_ok e : 0 <= e -> eye_pow 2 e = Ok (Mat.eye (2 ^ e)).
Proof. intros He. unfold eye_pow. destruct (Z.ltb_spec e 0); [lia|reflexivity]. Qed.

(** What [full_matrix] returns, branch by branch. *)
Lemma full_matrix_value op k N :
  0 <= k < N ->
  full_matrix op k N =
  Ok (if k =? 0 then Mat.kron op (Mat.eye (2 ^ (N - 1)))
      else if k =? 1
           then Mat.kron (Mat.kron (Mat.eye 2) op) (Mat.eye (2 ^ (N - 2)))
           else Mat.kron (Mat.kron (Mat.kron (Mat.eye 2) (Mat.eye (2 ^ (k - 1)))) op)
                         (Mat.eye (2 ^ (N - k - 1)))).
Proof.
  intros Hk. unfold full_matrix.
  destruct (Z.eqb_spec k 0); [rewrite eye_pow_ok by lia; reflexivity|].
  destruct (Z.eqb_spec k 1); [rewrite eye_pow_ok by lia; reflexivity|].
  rewrite !eye_pow_ok by lia. reflexivity.
Qed.

(** The operand before site [k]: the identity of dimension [2^k]. *)
Lemma full_matrix_embed op k N M :
  Mat.is_2x2 op -> 0 <= k < N -> full_matrix op k N = Ok M ->
  M ==m Mat.kron (Mat.kron (Mat.eye (2 ^ k)) op) (Mat.eye (2 ^ (N - k - 1))).
Proof.
  intros [Hr Hc] Hk HM. rewrite full_matrix_value in HM by assumption.
  injection HM as <-.
  assert (Hp : 0 <= 2 ^ (N - k - 1)) by (apply Z.pow_nonneg; lia).
  destruct (Z.eqb_spec k 0) as [->|Hk0].
  - replace (N - 0 - 1) with (N - 1) by lia.
    apply MatFacts.kron_eqm; simpl; try (apply Z.pow_nonneg; lia).
    + apply MatFacts.eqm_sym. change (2 ^ 0) with 1. apply MatFacts.kron_eye1_l.
    + apply MatFacts.eqm_refl.
  - destruct (Z.eqb_spec k 1) as [->|Hk1].
    + replace (N - 1 - 1) with (N - 2) by lia.
      change (2 ^ 1) with 2. apply MatFacts.eqm_refl.
    + apply MatFacts.kron_eqm; simpl; try assumption; [|apply MatFacts.eqm_refl].
      apply MatFacts.kron_eqm; try lia; [|apply MatFacts.eqm_refl].
      replace (2 ^ k) with (2 * 2 ^ (k - 1))
        by (rewrite <- Z.pow_succ_r by lia; f_equal; lia).
      apply MatFacts.eye_kron_eye.
Qed.

Lemma embed_spec_eye op k N :
  Mat.is_2x2 op -> 0 <= k < N ->
  embed_spec op k N
  ==m Mat.kron (Mat.kron (Mat.eye (2 ^ k)) op) (Mat.eye (2 ^ (N - k - 1))).
Proof.
  intros [Hr Hc] Hk. unfold embed_spec.
  pose proof (MatFacts.kron_pow_eye2_Z (N - k - 1) ltac:(lia)) as H2.
  pose proof (MatFacts.kron_pow_eye2_Z k ltac:(lia)) as H1.
  apply MatFacts.kron_eqm; [| |  |exact H2].
  - destruct H2 as (-> & _). simpl. apply Z.pow_nonneg; lia.
  - destruct H2 as (_ & -> & _). simpl. apply Z.pow_nonneg; lia.
  - apply MatFacts.kron_eqm; [lia|lia|exact H1|apply MatFacts.eqm_refl].
Qed.

(** C3. For every 2x2 operator [op], every chain length [N >= 1] and every
    site [0 <= k < N], [full_matrix op k N] returns the Kronecker product of
    [k] identities of dimension 2, [op], and [N - k - 1] identities of
    dimension 2.  The result is a [2^N] x [2^N] matrix; for [op] the 2x2
    identity it is the [2^N] identity whatever [k]; and for [N = 1] (hence
    [k = 0]) it is [op] itself. *)
Theorem C3_full_matrix_is_kronecker_embedding (op : Mat.matrix) (k N : Z) :
  Mat.is_2x2 op -> 1 <= N -> 0 <= k < N ->
  exists M,
    full_matrix op k N = Ok M /\
    M ==m embed_spec op k N /\
    Mat.nrows M = 2 ^ N /\ Mat.ncols M = 2 ^ N /\
    (op ==m Mat.eye 2 -> M ==m Mat.eye (2 ^ N)) /\
    (N = 1 -> M ==m op).
Proof.
  intros H22 HN Hk.
  destruct (full_matrix op k N) as [M|e] eqn:HM;
    [|rewrite full_matrix_value in HM by assumption; discriminate].
  exists M. split; [reflexivity|].
  pose proof (full_matrix_embed op k N M H22 Hk HM) as HE.
  assert (Hpow : 2 ^ k * 2 * 2 ^ (N - k - 1) = 2 ^ N).
  { replace N with (k + 1 + (N - k - 1)) at 2 by lia.
    rewrite !Z.pow_add_r by lia. reflexivity. }
  destruct H22 as [Hr Hc].
  assert (Hp : 0 <= 2 ^ (N - k - 1)) by (apply Z.pow_nonneg; lia).
  repeat split.
  - destruct HE as (-> & _). destruct (embed_spec_eye op k N) as (-> & _);
      [split; assumption|assumption|reflexivity].
  - destruct HE as (_ & -> & _). destruct (embed_spec_eye op k N) as (_ & -> & _);
      [split; assumption|assumption|reflexivity].
  - intros i j Hi Hj. destruct HE as (Hr1 & Hc1 & He). rewrite He by assumption.
    destruct (embed_spec_eye op k N) as (Hr2 & Hc2 & He2);
      [split; assumption|assumption|].
    symmetry. apply He2; congruence.
  - destruct HE as (-> & _). simpl. rewrite Hr. exact Hpow.
  - destruct HE as (_ & -> & _). simpl. rewrite Hc. exact Hpow.
  - destruct HE as (-> & _). simpl. rewrite Hr. exact Hpow.
  - destruct HE as (_ & -> & _). simpl. rewrite Hc. exact Hpow.
  - intros i j Hi Hj.
    assert (HI : M ==m Mat.eye (2 ^ N)).
    { eapply MatFacts.eqm_trans; [exact HE|].
      eapply MatFacts.eqm_trans.
      - apply MatFacts.kron_eqm; [simpl; assumption|simpl; assumption| |apply MatFacts.eqm_refl].
        eapply MatFacts.eqm_trans.
        + apply MatFacts.kron_eqm; [lia|lia|apply MatFacts.eqm_refl|eassumption].
        + apply MatFacts.eye_kron_eye.
      - rewrite <- Hpow. apply MatFacts.eye_kron_eye. }
    destruct HI as (_ & _ & HI). apply HI; assumption.
  - subst N. assert (k = 0) by lia. subst k.
    rewrite full_matrix_value in HM by lia. injection HM as <-. simpl. lia.
  - subst N. assert (k = 0) by lia. subst k.
    rewrite full_matrix_value in HM by lia. injection HM as <-. simpl. lia.
  - intros i j Hi Hj. subst N. assert (k = 0) by lia. subst k.
    rewrite full_matrix_value in HM by lia. injection HM as <-.
    change (2 ^ (1 - 1)) with 1 in *.
    destruct (MatFacts.kron_eye1_r op) as (_ & _ & He). apply He; assumption.
Qed.

Lemma C3_full_matrix_witness :
  (Mat.is_2x2 sigma_x /\ 1 <= 3 /\ 0 <= 1 < 3) /\
  exists M,
    full_matrix sigma_x 1 3 = Ok M /\
    M ==m embed_spec sigma_x 1 3 /\
    Mat.nrows M = 2 ^ 3 /\ Mat.ncols M = 2 ^ 3 /\
    (sigma_x ==m Mat.eye 2 -> M ==m Mat.eye (2 ^ 3)) /\
    (3 = 1 -> M ==m sigma_x).
Proof.
  split.
  - split; [split; reflexivity|lia].
  - apply (C3_full_matrix_is_kronecker_embedding sigma_x 1 3);
      [split; reflexivity|lia|lia].
Defined.

(** Outside the first two sites [full_matrix] is its general branch. *)
Lemma full_matrix_else op k N :
  k <> 0 -> k <> 1 -> full_matrix op k N = full_matrix_general op k N.
Proof.
  intros H0 H1. unfold full_matrix, full_matrix_general.
  destruct (Z.eqb_spec k 0); [contradiction|].
  destruct (Z.eqb_spec k 1); [contradiction|reflexivity].
Qed.

Lemma full_matrix_at_1 op N : full_matrix op 1 N = full_matrix_k1 op N.
Proof. reflexivity. Qed.

(** C10. For every [N >= 2] and every 2x2 operator, the dedicated [k == 1]
    branch of [full_matrix] and its general branch evaluated at [k = 1] both
    return, and return equal matrices: the special case changes nothing. *)
Theorem C10_k1_branch_equals_general_branch (op : Mat.matrix) (N : Z) :
  Mat.is_2x2 op -> 2 <= N ->
  exists A B,
    full_matrix op 1 N = Ok A /\
    full_matrix_k1 op N = Ok A /\
    full_matrix_general op 1 N = Ok B /\
    A ==m B.
Proof.
  intros [Hr Hc] HN.
  unfold full_matrix_general, full_matrix_k1.
  rewrite full_matrix_at_1. unfold full_matrix_k1.
  replace (N - 1 - 1) with (N - 2) by lia.
  change (1 - 1) with 0.
  rewrite !eye_pow_ok by lia. cbn [bind].
  eexists; eexists. repeat split; try reflexivity.
  intros i j Hi Hj.
  assert (Hp : 0 <= 2 ^ (N - 2)) by (apply Z.pow_nonneg; lia).
  assert (HE : Mat.kron (Mat.kron (Mat.eye 2) op) (Mat.eye (2 ^ (N - 2)))
               ==m Mat.kron (Mat.kron (Mat.kron (Mat.eye 2) (Mat.eye (2 ^ 0))) op)
                            (Mat.eye (2 ^ (N - 2)))).
  { apply MatFacts.kron_eqm; [assumption|assumption| |apply MatFacts.eqm_refl].
    apply MatFacts.kron_eqm; [lia|lia| |apply MatFacts.eqm_refl].
    apply MatFacts.eqm_sym. change (2 ^ 0) with 1. apply MatFacts.kron_eye1_r. }
  destruct HE as (_ & _ & HE). apply HE; assumption.
Qed.

Lemma C10_k1_branch_witness :
  (Mat.is_2x2 sigma_x /\ 2 <= 4) /\
  exists A B,
    full_matrix sigma_x 1 4 = Ok A /\
    full_matrix_k1 sigma_x 4 = Ok A /\
    full_matrix_general sigma_x 1 4 = Ok B /\
    A ==m B.
Proof.
  split.
  - split; [split; reflexivity|lia].
  - apply (C10_k1_branch_equals_general_branch sigma_x 4);
      [split; reflexivity|lia].
Defined.

(** * Arrangements, their order and the permutation step *)

Section Binomial.
Local Open Scope nat_scope.

Lemma binom_0_r n : binom n 0 = 1.
Proof. destruct n; reflexivity. Qed.

Lemma binom_gt n : forall k, n < k -> binom n k = 0.
Proof.
  induction n as [|n IH]; intros [|k] H; try lia; try reflexivity.
  cbn [binom]. rewrite !IH by lia. reflexivity.
Qed.

Lemma binom_diag n : binom n n = 1.
Proof.
  induction n as [|n IH]; [reflexivity|].
  cbn [binom]. rewrite IH, binom_gt by lia. reflexivity.
Qed.

Lemma binom_succ n k : binom (S n) (S k) = binom n k + binom n (S k).
Proof. reflexivity. Qed.

Lemma binom_le_succ n k : binom n k <= binom (S n) k.
Proof.
  destruct k; [rewrite !binom_0_r; lia|].
  rewrite binom_succ. lia.
Qed.

End Binomial.

Section Ones.
Local Open Scope nat_scope.

Lemma ones_cons b t :
  ones (b :: t) = if (b =? 1)%Z then S (ones t) else ones t.
Proof.
  unfold ones. cbn [count_occ].
  destruct (Z.eq_dec b 1) as [->|Hb]; [reflexivity|].
  destruct (Z.eqb_spec b 1); [contradiction|reflexivity].
Qed.

Lemma ones_app l1 l2 : ones (l1 ++ l2) = ones l1 + ones l2.
Proof. unfold ones. apply count_occ_app. Qed.

Lemma ones_repeat_0 a : ones (repeat 0%Z a) = 0.
Proof. induction a; [reflexivity|]. cbn [repeat]. rewrite ones_cons. exact IHa. Qed.

Lemma ones_repeat_1 a : ones (repeat 1%Z a) = a.
Proof.
  induction a; [reflexivity|]. cbn [repeat]. rewrite ones_cons. cbn. congruence.
Qed.

Lemma ones_le_length l : ones l <= length l.
Proof. unfold ones. apply count_occ_bound. Qed.

Lemma ones_seed n k : k <= n -> ones (seed n k) = k.
Proof.
  intros _. unfold seed. rewrite ones_app, ones_repeat_0, ones_repeat_1. lia.
Qed.

Lemma length_seed n k : k <= n -> length (seed n k) = n.
Proof. intros H. unfold seed. rewrite length_app, !repeat_length. lia. Qed.

Lemma bits_repeat b a : is_bit b -> Forall is_bit (repeat b a).
Proof. intros Hb. induction a; constructor; assumption. Qed.

Lemma bits_seed n k : Forall is_bit (seed n k).
Proof.
  unfold seed. apply Forall_app. split; apply bits_repeat; [left|right]; reflexivity.
Qed.

Lemma seed_arrangement n k : k <= n -> arrangement n k (seed n k).
Proof.
  intros H. repeat split;
    [apply length_seed|apply bits_seed|apply ones_seed]; assumption.
Qed.

End Ones.

Section Rank.
Local Open Scope nat_scope.

Lemma rank_repeat_1 a : rank (repeat 1%Z a) = 0.
Proof.
  induction a as [|a IH]; [reflexivity|].
  cbn [repeat rank Z.eqb Pos.eqb]. rewrite IH, ones_repeat_1, repeat_length.
  rewrite binom_gt by lia. reflexivity.
Qed.

Lemma rank_seed_app a b : rank (repeat 0%Z a ++ repeat 1%Z b) = 0.
Proof.
  induction a as [|a IH]; [apply rank_repeat_1|].
  cbn [repeat app rank Z.eqb]. exact IH.
Qed.

Lemma rank_seed n k : rank (seed n k) = 0.
Proof. apply rank_seed_app. Qed.

Lemma rank_lt l : Forall is_bit l -> rank l < binom (length l) (ones l).
Proof.
  induction 1 as [|b t Hb Ht IH]; [cbn; lia|].
  rewrite ones_cons. cbn [rank length].
  destruct Hb as [->| ->]; cbn [Z.eqb Pos.eqb].
  - pose proof (binom_le_succ (length t) (ones t)). lia.
  - rewrite binom_succ. lia.
Qed.

Lemma rank_inj n k : forall l1 l2,
  arrangement n k l1 -> arrangement n k l2 -> rank l1 = rank l2 -> l1 = l2.
Proof.
  revert k. induction n as [|n IH]; intros k l1 l2 (L1 & B1 & O1) (L2 & B2 & O2) HR.
  - destruct l1, l2; try discriminate. reflexivity.
  - destruct l1 as [|b1 t1], l2 as [|b2 t2]; try discriminate.
    injection L1 as L1. injection L2 as L2.
    inversion B1 as [|? ? Hb1 Ht1]; inversion B2 as [|? ? Hb2 Ht2]; subst.
    rewrite ones_cons in O2. cbn [rank] in HR. rewrite ones_cons in *.
    pose proof (rank_lt t1 Ht1) as R1. pose proof (rank_lt t2 Ht2) as R2.
    rewrite L2 in *.
    destruct Hb1 as [->| ->], Hb2 as [->| ->]; cbn [Z.eqb Pos.eqb] in *.
    + f_equal. apply (IH (ones t1)); repeat split; auto.
    + exfalso. rewrite <- O2 in R1. lia.
    + exfalso. rewrite O2 in R2. lia.
    + f_equal. injection O2 as O2.
      apply (IH (ones t1)); repeat split; auto. rewrite <- O2 in HR. lia.
Qed.

End Rank.

Section NextArrangement.
Local Open Scope nat_scope.

(** When no successor exists the arrangement is the last of its order. *)
Lemma next_none_rank l :
  Forall is_bit l -> next_arrangement l = None ->
  S (rank l) = binom (length l) (ones l).
Proof.
  induction 1 as [|b t Hb Ht IH]; [reflexivity|].
  cbn [next_arrangement]. destruct (next_arrangement t) as [t'|]; [discriminate|].
  specialize (IH eq_refl). rewrite ones_cons. cbn [rank length].
  destruct Hb as [->| ->]; cbn [Z.eqb Pos.eqb andb].
  - destruct (Nat.ltb_spec 0 (ones t)) as [Hp|Hz]; [discriminate|].
    intros _. assert (Hz' : ones t = 0) by lia. rewrite Hz' in *.
    rewrite binom_0_r in *. exact IH.
  - intros _. rewrite binom_succ. lia.
Qed.

(** The successor, when there is one, is an arrangement of the same digits
    and the next one in the order. *)
Lemma next_some_spec l : forall l',
  Forall is_bit l -> next_arrangement l = Some l' ->
  Forall is_bit l' /\ length l' = length l /\ ones l' = ones l /\
  rank l' = S (rank l).
Proof.
  induction l as [|b t IH]; intros l' Hl; [discriminate|].
  inversion Hl as [|? ? Hb Ht]; subst.
  cbn [next_arrangement].
  destruct (next_arrangement t) as [t'|] eqn:Hn.
  - intros [= <-]. destruct (IH t' Ht eq_refl) as (B & L & O & R).
    rewrite !ones_cons. cbn [rank length]. rewrite L, O, R.
    repeat split; [constructor; assumption|].
    destruct (b =? 1)%Z; lia.
  - pose proof (next_none_rank t Ht Hn) as HR.
    destruct Hb as [->| ->]; cbn [Z.eqb Pos.eqb andb]; [|discriminate].
    destruct (Nat.ltb_spec 0 (ones t)) as [Hp|Hz]; [|discriminate].
    pose proof (ones_le_length t) as Hle.
    pose proof (rank_seed_app (S (length t - ones t)) (ones t - 1)) as Rr.
    assert (Or : ones (repeat 0%Z (S (length t - ones t))
                        ++ repeat 1%Z (ones t - 1)) = ones t - 1)
      by (rewrite ones_app, ones_repeat_0, ones_repeat_1; lia).
    assert (Lr : length (repeat 0%Z (S (length t - ones t))
                          ++ repeat 1%Z (ones t - 1)) = length t)
      by (rewrite length_app, !repeat_length; lia).
    assert (Br : Forall is_bit (repeat 0%Z (S (length t - ones t))
                                 ++ repeat 1%Z (ones t - 1)))
      by (apply Forall_app; split; apply bits_repeat; [left|right]; reflexivity).
    remember (repeat 0%Z (S (length t - ones t)) ++ repeat 1%Z (ones t - 1)) as r.
    intros [= <-].
    rewrite !ones_cons. cbn [Z.eqb Pos.eqb rank length].
    rewrite Or, Lr, Rr.
    replace (S (ones t - 1)) with (ones t) by lia.
    repeat split; try lia.
    constructor; [right; reflexivity|assumption].
Qed.

Lemma first_arrangement_seed l :
  first_arrangement l = seed (length l) (ones l).
Proof. reflexivity. Qed.

End NextArrangement.

(** ** The cyclic step

    On an arrangement with both digits present [cyclic_permutation] returns
    the arrangement that follows in the cyclic order; otherwise it raises
    [IndexError]. *)

Lemma cyclic_permutation_spec n k l :
  arrangement n k l -> (0 < k < n)%nat ->
  exists l', cyclic_permutation l = Ok l' /\ arrangement n k l' /\
             rank l' = (S (rank l) mod binom n k)%nat.
Proof.
  intros (L & B & O) Hk. unfold cyclic_permutation.
  destruct (Nat.eqb_spec (ones l) 0) as [H0|H0]; [lia|].
  destruct (Nat.eqb_spec (ones l) (length l)) as [H1|H1]; [lia|].
  cbn [orb].
  destruct (next_arrangement l) as [l'|] eqn:Hn.
  - destruct (next_some_spec l l' B Hn) as (B' & L' & O' & R').
    exists l'. split; [reflexivity|]. split; [repeat split; congruence|].
    pose proof (rank_lt l' B') as Hlt. rewrite L', O', L, O in Hlt.
    rewrite R' in *. symmetry. apply Nat.mod_small. exact Hlt.
  - exists (first_arrangement l). split; [reflexivity|].
    rewrite first_arrangement_seed, L, O. split.
    + apply seed_arrangement. lia.
    + rewrite rank_seed. pose proof (next_none_rank l B Hn) as HR.
      rewrite L, O in HR. rewrite HR. symmetry. apply Nat.Div0.mod_same.
Qed.

Lemma cyclic_permutation_degenerate n k l :
  arrangement n k l -> (k = 0 \/ k = n)%nat ->
  cyclic_permutation l = Raise IndexError.
Proof.
  intros (L & B & O) Hk. unfold cyclic_permutation.
  destruct (Nat.eqb_spec (ones l) 0) as [H0|H0]; [reflexivity|].
  destruct (Nat.eqb_spec (ones l) (length l)) as [H1|H1]; [reflexivity|].
  lia.
Qed.

(** Whatever the sector, the arrangement kept after one iteration is the
    next one in the cyclic order of the sector. *)
Lemma step_or_stay_spec n k l :
  (k <= n)%nat -> arrangement n k l ->
  arrangement n k (step_or_stay cyclic_permutation l) /\
  rank (step_or_stay cyclic_permutation l) = (S (rank l) mod binom n k)%nat.
Proof.
  intros Hk Hl. unfold step_or_stay.
  destruct (Nat.eq_dec k 0) as [K0|K0]; [|destruct (Nat.eq_dec k n) as [Kn|Kn]].
  - rewrite (cyclic_permutation_degenerate n k l Hl) by lia.
    split; [assumption|]. subst k. rewrite binom_0_r.
    destruct Hl as (L & B & O). pose proof (rank_lt l B) as Hlt.
    rewrite O, binom_0_r in Hlt. rewrite Nat.mod_1_r. lia.
  - rewrite (cyclic_permutation_degenerate n k l Hl) by lia.
    split; [assumption|]. subst k. rewrite binom_diag.
    destruct Hl as (L & B & O). pose proof (rank_lt l B) as Hlt.
    rewrite L, O, binom_diag in Hlt. rewrite Nat.mod_1_r. lia.
  - destruct (cyclic_permutation_spec n k l Hl ltac:(lia)) as (l' & -> & A & R).
    split; assumption.
Qed.

(** * Dictionaries *)

Lemma dict_set_fresh d k v :
  dict_get d k = None -> dict_set d k v = d ++ [(k, v)].
Proof.
  induction d as [|[k' v'] d IH]; [reflexivity|].
  cbn [dict_get dict_set app]. destruct (k' =? k); [discriminate|].
  intros H. rewrite IH by assumption. reflexivity.
Qed.

Lemma dict_get_map_none (f h : nat -> Z) js k :
  (forall j, In j js -> f j <> k) ->
  dict_get (map (fun j => (f j, h j)) js) k = None.
Proof.
  induction js as [|j js IH]; [reflexivity|].
  intros H. cbn [map dict_get].
  destruct (Z.eqb_spec (f j) k) as [E|_]; [exfalso; apply (H j); [left; reflexivity|exact E]|].
  apply IH. intros j' Hj'. apply H. right. exact Hj'.
Qed.

Lemma dict_get_map_some (f h : nat -> Z) js j :
  In j js -> (forall j', In j' js -> f j' = f j -> j' = j) ->
  dict_get (map (fun j => (f j, h j)) js) (f j) = Some (h j).
Proof.
  induction js as [|j0 js IH]; [contradiction|].
  intros Hin Hinj. cbn [map dict_get].
  destruct (Z.eqb_spec (f j0) (f j)) as [E|NE].
  - rewrite (Hinj j0 (or_introl eq_refl) E). reflexivity.
  - destruct Hin as [->|Hin]; [contradiction|].
    apply IH; [assumption|]. intros j' Hj'. apply Hinj. right. exact Hj'.
Qed.

(** Assigning along keys that are pairwise distinct lists the pairs in
    order. *)
Lemma dict_of_distinct (f h : nat -> Z) js :
  NoDup (map f js) -> dict_of f h js = map (fun j => (f j, h j)) js.
Proof.
  unfold dict_of.
  induction js as [|j js IH] using rev_ind; [reflexivity|].
  rewrite map_app, fold_left_app. cbn [fold_left map].
  intros ND. apply NoDup_app_remove_r in ND as ND1.
  rewrite IH by assumption. rewrite map_app. cbn [map].
  apply dict_set_fresh. apply dict_get_map_none.
  intros j' Hj' E.
  rewrite <- (app_nil_r (map f js ++ [f j])), <- app_assoc in ND.
  apply NoDup_remove_2 in ND. apply ND. rewrite app_nil_r.
  rewrite <- E. apply in_map. exact Hj'.
Qed.

(** * The enumeration loop *)

Lemma cb_loop_app step dim st l1 l2 :
  cb_loop step dim st (l1 ++ l2)
  = (st' <- cb_loop step dim st l1 ;; cb_loop step dim st' l2).
Proof.
  revert st. induction l1 as [|i l1 IH]; intros st; [reflexivity|].
  cbn [app cb_loop]. destruct (cb_body step dim st i); [|reflexivity].
  cbn [bind]. apply IH.
Qed.

Lemma range_nat m : range (Z.of_nat m) = map Z.of_nat (seq 0 m).
Proof. unfold range. rewrite Nat2Z.id. reflexivity. Qed.

Lemma iter_step_S step n l :
  iter_step step (S n) l = step_or_stay step (iter_step step n l).
Proof. reflexivity. Qed.

Lemma try_step_ok step l :
  step_okb step l = true ->
  try_step step l = Ok (step_or_stay step l, signals step l).
Proof.
  unfold step_okb, try_step, step_or_stay, signals.
  destruct (step l) as [l'|[]]; try reflexivity; discriminate.
Qed.

Section LoopAlongOrbit.

Variable step : list Z -> result (list Z).
Variable dim : Z.
Variable seed0 : list Z.

(** The state after [m] iterations, in closed form, when the step raises
    nothing but the exhaustion signal on the arrangements it meets. *)
Lemma cb_loop_closed_form m :
  (forall j, (j < m)%nat -> step_okb step (iter_step step j seed0) = true) ->
  exists st,
    cb_loop step dim (mk_cb seed0 [] [] [] []) (map Z.of_nat (seq 0 m)) = Ok st /\
    cb_basis st = iter_step step m seed0 /\
    cb_basis_set st = map (fun j => iter_step step (S j) seed0) (seq 0 m) /\
    cb_to_diag st
    = dict_of (fun j => recorded_index dim (iter_step step (S j) seed0))
              Z.of_nat (seq 0 m) /\
    cb_to_ord st
    = dict_of Z.of_nat
              (fun j => recorded_index dim (iter_step step (S j) seed0))
              (seq 0 m) /\
    cb_caught st
    = map Z.of_nat
        (filter (fun j => signals step (iter_step step j seed0)) (seq 0 m)).
Proof.
  induction m as [|m IH]; intros Hok.
  - eexists. split; [reflexivity|]. repeat split.
  - destruct IH as (st & Hst & Hb & Hs & Hd & Ho & Hc);
      [intros j Hj; apply Hok; lia|].
    rewrite seq_S, map_app, cb_loop_app, Hst. cbn [bind map cb_loop Nat.add].
    unfold cb_body. rewrite Hb, (try_step_ok step _ (Hok m (Nat.lt_succ_diag_r m))).
    cbn [bind fst snd]. eexists. split; [reflexivity|].
    cbn [cb_basis cb_basis_set cb_to_diag cb_to_ord cb_caught].
    rewrite Hs, Hd, Ho, Hc. unfold dict_of.
    rewrite !fold_left_app, map_app, filter_app.
    cbn [fold_left map filter]. unfold recorded_index. rewrite !iter_step_S.
    repeat split.
    destruct (signals step (iter_step step m seed0));
      [rewrite map_app; reflexivity|rewrite app_nil_r; reflexivity].
Qed.

(** Local indices are pairwise distinct, so [to_ord] lists them in order. *)
Lemma to_ord_closed_form (g : nat -> Z) m :
  dict_of Z.of_nat g (seq 0 m) = map (fun j => (Z.of_nat j, g j)) (seq 0 m).
Proof.
  apply dict_of_distinct.
  apply Injective_map_NoDup; [|apply seq_NoDup].
  intros x y. apply Nat2Z.inj.
Qed.

End LoopAlongOrbit.

(** * Arrangements as binary numbers *)

Lemma bin_to_dec_app l d : bin_to_dec (l ++ [d]) = 2 * bin_to_dec l + d.
Proof. unfold bin_to_dec. rewrite fold_left_app. reflexivity. Qed.

Lemma bin_to_dec_range l :
  Forall is_bit l -> 0 <= bin_to_dec l < 2 ^ Z.of_nat (length l).
Proof.
  induction l as [|d l IH] using rev_ind; intros Hl; [cbn; lia|].
  apply Forall_app in Hl as [Hl Hd]. apply Forall_inv in Hd as Hd'.
  specialize (IH Hl). rewrite bin_to_dec_app, length_app. cbn [length].
  rewrite Nat.add_1_r, Nat2Z.inj_succ, Z.pow_succ_r by lia.
  destruct Hd' as [->| ->]; lia.
Qed.

Lemma to_bits_length n : forall g, length (to_bits n g) = n.
Proof.
  induction n as [|n IH]; intros g; [reflexivity|].
  cbn [to_bits]. rewrite length_app, IH. cbn. lia.
Qed.

Lemma to_bits_bits n : forall g, Forall is_bit (to_bits n g).
Proof.
  induction n as [|n IH]; intros g; [constructor|].
  cbn [to_bits]. apply Forall_app. split; [apply IH|].
  constructor; [|constructor].
  pose proof (Z.mod_pos_bound g 2 ltac:(lia)). unfold is_bit. lia.
Qed.

Lemma dec_to_bits n : forall g,
  0 <= g < 2 ^ Z.of_nat n -> bin_to_dec (to_bits n g) = g.
Proof.
  induction n as [|n IH]; intros g Hg.
  - cbn in *. lia.
  - cbn [to_bits]. rewrite bin_to_dec_app.
    rewrite Nat2Z.inj_succ, Z.pow_succ_r in Hg by lia.
    rewrite IH.
    + pose proof (Z.div_mod g 2 ltac:(lia)). lia.
    + split; [apply Z.div_pos; lia|apply Z.div_lt_upper_bound; lia].
Qed.

Lemma to_bits_dec l : Forall is_bit l -> to_bits (length l) (bin_to_dec l) = l.
Proof.
  induction l as [|d l IH] using rev_ind; intros Hl; [reflexivity|].
  apply Forall_app in Hl as [Hl Hd]. apply Forall_inv in Hd as Hd'.
  rewrite length_app, bin_to_dec_app. cbn [length]. rewrite Nat.add_1_r.
  cbn [to_bits].
  assert (Hd2 : 0 <= d < 2) by (destruct Hd' as [->| ->]; lia).
  assert (E1 : (2 * bin_to_dec l + d) / 2 = bin_to_dec l)
    by (symmetry; apply (Z.div_unique _ _ _ d); [left; exact Hd2|reflexivity]).
  assert (E2 : (2 * bin_to_dec l + d) mod 2 = d)
    by (symmetry; apply (Z.mod_unique _ _ (bin_to_dec l)); [left; exact Hd2|reflexivity]).
  rewrite E1, E2, IH by assumption. reflexivity.
Qed.

(** Arrangements of equal length with the same value are equal. *)
Lemma bin_to_dec_inj l1 l2 :
  Forall is_bit l1 -> Forall is_bit l2 -> length l1 = length l2 ->
  bin_to_dec l1 = bin_to_dec l2 -> l1 = l2.
Proof.
  intros B1 B2 L E.
  rewrite <- (to_bits_dec l1 B1), <- (to_bits_dec l2 B2), L, E. reflexivity.
Qed.

Lemma flip_length l : length (flip l) = length l.
Proof. apply length_map. Qed.

Lemma flip_bits l : Forall is_bit l -> Forall is_bit (flip l).
Proof.
  intros H. unfold flip. rewrite Forall_map.
  eapply Forall_impl; [|exact H]. intros d [->| ->]; [right|left]; reflexivity.
Qed.

Lemma flip_flip l : Forall is_bit l -> flip (flip l) = l.
Proof.
  induction 1 as [|d l Hd _ IH]; [reflexivity|].
  unfold flip in *. cbn [map]. rewrite IH. f_equal. lia.
Qed.

Lemma flip_ones l :
  Forall is_bit l -> (ones (flip l) + ones l = length l)%nat.
Proof.
  induction 1 as [|d l Hd _ IH]; [reflexivity|].
  unfold flip in *. cbn [map length]. rewrite !ones_cons.
  destruct Hd as [->| ->]; [change (1 - 0 =? 1) with true|change (1 - 1 =? 1) with false];
    cbn [Z.eqb Pos.eqb]; lia.
Qed.

Lemma flip_dec l :
  Forall is_bit l ->
  bin_to_dec (flip l) = 2 ^ Z.of_nat (length l) - 1 - bin_to_dec l.
Proof.
  induction l as [|d l IH] using rev_ind; intros Hl; [reflexivity|].
  apply Forall_app in Hl as [Hl Hd].
  unfold flip in *. rewrite map_app. cbn [map].
  rewrite !bin_to_dec_app, IH by assumption.
  rewrite length_app. cbn [length].
  rewrite Nat.add_1_r, Nat2Z.inj_succ, Z.pow_succ_r by lia. lia.
Qed.

(** The recorded index of an arrangement is the value of its flipped
    digits. *)
Lemma recorded_index_flip n l :
  Forall is_bit l -> length l = n ->
  recorded_index (2 ^ Z.of_nat n) l = bin_to_dec (flip l).
Proof.
  intros B L. unfold recorded_index. rewrite flip_dec, L by assumption. lia.
Qed.

Lemma recorded_index_range n l :
  Forall is_bit l -> length l = n ->
  0 <= recorded_index (2 ^ Z.of_nat n) l < 2 ^ Z.of_nat n.
Proof.
  intros B L. unfold recorded_index.
  pose proof (bin_to_dec_range l B) as H. rewrite L in H. lia.
Qed.

Lemma recorded_index_inj n l1 l2 :
  Forall is_bit l1 -> Forall is_bit l2 -> length l1 = n -> length l2 = n ->
  recorded_index (2 ^ Z.of_nat n) l1 = recorded_index (2 ^ Z.of_nat n) l2 ->
  l1 = l2.
Proof.
  intros B1 B2 L1 L2 E. apply bin_to_dec_inj; try assumption; [congruence|].
  unfold recorded_index in E. lia.
Qed.

(** The recorded index of an arrangement with [k] ones has [n - k] ones in
    its [n]-bit representation. *)
Lemma recorded_index_popcount n k l :
  arrangement n k l ->
  popcount (Z.of_nat n) (recorded_index (2 ^ Z.of_nat n) l)
  = Z.of_nat n - Z.of_nat k.
Proof.
  intros (L & B & O). unfold popcount. rewrite Nat2Z.id.
  rewrite (recorded_index_flip n l B L).
  rewrite <- (flip_length l) in L. rewrite <- L at 1.
  rewrite to_bits_dec by (apply flip_bits; assumption).
  pose proof (flip_ones l B). rewrite flip_length in L. lia.
Qed.

(** Conversely an index of [n] bits with [n - k] ones is the recorded index
    of an arrangement with [k] ones. *)
Lemma popcount_recorded n k g :
  0 <= g < 2 ^ Z.of_nat n ->
  popcount (Z.of_nat n) g = Z.of_nat n - Z.of_nat k ->
  arrangement n k (flip (to_bits n g)) /\
  recorded_index (2 ^ Z.of_nat n) (flip (to_bits n g)) = g.
Proof.
  intros Hg Hp. unfold popcount in Hp. rewrite Nat2Z.id in Hp.
  pose proof (to_bits_bits n g) as B. pose proof (to_bits_length n g) as L.
  pose proof (flip_ones _ B) as FO. rewrite L in FO.
  split.
  - repeat split; [rewrite flip_length; exact L|apply flip_bits; exact B|lia].
  - rewrite (recorded_index_flip n) by
      (try apply flip_bits; try rewrite flip_length; assumption).
    rewrite flip_flip by assumption. apply dec_to_bits. exact Hg.
Qed.

(** * One sector, enumerated by a step that meets the contract *)

Lemma list_eqb_eq l1 : forall l2, list_eqb l1 l2 = true <-> l1 = l2.
Proof.
  induction l1 as [|x t1 IH]; intros [|y t2]; cbn [list_eqb];
    try (split; [discriminate|discriminate]); [split; reflexivity|].
  rewrite andb_true_iff, Z.eqb_eq, IH. split.
  - intros [-> ->]. reflexivity.
  - intros [= -> ->]. split; reflexivity.
Qed.

Lemma distinctb_NoDup ls : distinctb ls = true -> NoDup ls.
Proof.
  induction ls as [|l t IH]; [constructor|].
  cbn [distinctb]. rewrite andb_true_iff, negb_true_iff.
  intros [Hn Ht]. constructor; [|apply IH; exact Ht].
  intros Hin. assert (E : existsb (list_eqb l) t = true).
  { apply existsb_exists. exists l. split; [exact Hin|apply list_eqb_eq; reflexivity]. }
  congruence.
Qed.

Lemma NoDup_distinctb ls : NoDup ls -> distinctb ls = true.
Proof.
  induction 1 as [|l t Hn _ IH]; [reflexivity|].
  cbn [distinctb]. rewrite IH, andb_true_r, negb_true_iff.
  destruct (existsb (list_eqb l) t) eqn:E; [|reflexivity].
  apply existsb_exists in E as (l' & Hin & E). apply list_eqb_eq in E. subst l'.
  contradiction.
Qed.

Lemma is_bitb_spec d : is_bitb d = true <-> is_bit d.
Proof.
  unfold is_bitb, is_bit. rewrite orb_true_iff, !Z.eqb_eq. reflexivity.
Qed.

Lemma arrangementb_spec n k l : arrangementb n k l = true <-> arrangement n k l.
Proof.
  unfold arrangementb, arrangement.
  rewrite !andb_true_iff, !Nat.eqb_eq, forallb_forall, Forall_forall.
  split.
  - intros [[L B] O]. repeat split; try assumption.
    intros d Hd. apply is_bitb_spec, B, Hd.
  - intros (L & B & O). repeat split; try assumption.
    intros d Hd. apply is_bitb_spec, B, Hd.
Qed.

Section Sector.

Variable step : list Z -> result (list Z).
Variables n k : nat.
Hypothesis contract : enumeratesb step n k = true.

Lemma contract_ok j :
  (j < binom n k)%nat -> step_okb step (iter_step step j (seed n k)) = true.
Proof.
  intros Hj. pose proof contract as H. unfold enumeratesb in H.
  apply andb_true_iff in H as [H _]. apply andb_true_iff in H as [H _].
  rewrite forallb_forall in H. apply H, in_seq. lia.
Qed.

Lemma sector_basis_arrangement j :
  (j < binom n k)%nat -> arrangement n k (sector_basis step n k j).
Proof.
  intros Hj. pose proof contract as H. unfold enumeratesb in H.
  apply andb_true_iff in H as [H _]. apply andb_true_iff in H as [_ H].
  rewrite forallb_forall in H. apply arrangementb_spec, H, in_seq. lia.
Qed.

Lemma sector_basis_NoDup :
  NoDup (map (sector_basis step n k) (seq 0 (binom n k))).
Proof.
  pose proof contract as H. unfold enumeratesb in H.
  apply andb_true_iff in H as [_ H]. apply distinctb_NoDup, H.
Qed.

Lemma sector_basis_inj j j' :
  (j < binom n k)%nat -> (j' < binom n k)%nat ->
  sector_basis step n k j = sector_basis step n k j' -> j = j'.
Proof.
  intros Hj Hj' E.
  pose proof (proj1 (NoDup_nth _ []) sector_basis_NoDup j j') as H.
  rewrite length_map, length_seq in H. specialize (H Hj Hj').
  rewrite !(nth_indep _ [] (sector_basis step n k 0)) in H
    by (rewrite length_map, length_seq; assumption).
  rewrite !map_nth, !seq_nth in H by assumption. apply H, E.
Qed.

(** The ranks of the recorded arrangements fill [0, C(n, k)): there are as
    many of them as there are places. *)
Lemma sector_ranks_cover r :
  (r < binom n k)%nat ->
  exists j, (j < binom n k)%nat /\ rank (sector_basis step n k j) = r.
Proof.
  intros Hr.
  set (R := map (fun j => rank (sector_basis step n k j)) (seq 0 (binom n k))).
  assert (ND : NoDup R).
  { apply Injective_map_NoDup_in; [|apply seq_NoDup].
    intros j j' Hj Hj' E. apply in_seq in Hj, Hj'.
    apply sector_basis_inj; try lia.
    apply (rank_inj n k); [apply sector_basis_arrangement; lia..|exact E]. }
  assert (Hincl : incl R (seq 0 (binom n k))).
  { intros x Hx. apply in_map_iff in Hx as (j & <- & Hj). apply in_seq in Hj.
    destruct (sector_basis_arrangement j ltac:(lia)) as (L & B & O).
    pose proof (rank_lt _ B) as Hlt. rewrite L, O in Hlt. apply in_seq. lia. }
  assert (Hin : In r R).
  { apply (NoDup_length_incl ND (l' := seq 0 (binom n k))).
    - unfold R. rewrite length_map. lia.
    - exact Hincl.
    - apply in_seq. lia. }
  apply in_map_iff in Hin as (j & E & Hj). apply in_seq in Hj.
  exists j. split; [lia|exact E].
Qed.

(** Every arrangement of the sector is recorded at some local index. *)
Lemma sector_basis_complete a :
  arrangement n k a ->
  exists j, (j < binom n k)%nat /\ sector_basis step n k j = a.
Proof.
  intros A. pose proof A as (L & B & O).
  pose proof (rank_lt a B) as Hlt. rewrite L, O in Hlt.
  destruct (sector_ranks_cover (rank a) Hlt) as (j & Hj & E).
  exists j. split; [assumption|].
  apply (rank_inj n k); [apply sector_basis_arrangement|..]; assumption.
Qed.

Lemma sector_index_inj j j' :
  (j < binom n k)%nat -> (j' < binom n k)%nat ->
  sector_index step n k j = sector_index step n k j' -> j = j'.
Proof.
  intros Hj Hj' E. apply sector_basis_inj; try assumption.
  destruct (sector_basis_arrangement j Hj) as (L & B & _).
  destruct (sector_basis_arrangement j' Hj') as (L' & B' & _).
  apply (recorded_index_inj n); assumption.
Qed.

Lemma sector_index_range j :
  (j < binom n k)%nat -> 0 <= sector_index step n k j < 2 ^ Z.of_nat n.
Proof.
  intros Hj. destruct (sector_basis_arrangement j Hj) as (L & B & _).
  apply recorded_index_range; assumption.
Qed.

Lemma sector_index_popcount j :
  (j < binom n k)%nat ->
  popcount (Z.of_nat n) (sector_index step n k j) = Z.of_nat n - Z.of_nat k.
Proof. intros Hj. apply recorded_index_popcount, sector_basis_arrangement, Hj. Qed.

Lemma sector_index_NoDup :
  NoDup (map (sector_index step n k) (seq 0 (binom n k))).
Proof.
  apply Injective_map_NoDup_in; [|apply seq_NoDup].
  intros j j' Hj Hj'. apply in_seq in Hj, Hj'. apply sector_index_inj; lia.
Qed.

(** Every index of [n] bits with [n - k] ones is the recorded index of one
    local index. *)
Lemma sector_index_complete g :
  0 <= g < 2 ^ Z.of_nat n ->
  popcount (Z.of_nat n) g = Z.of_nat n - Z.of_nat k ->
  exists j, (j < binom n k)%nat /\ sector_index step n k j = g.
Proof.
  intros Hg Hp. destruct (popcount_recorded n k g Hg Hp) as [A R].
  destruct (sector_basis_complete _ A) as (j & Hj & E).
  exists j. split; [assumption|]. unfold sector_index. rewrite E. exact R.
Qed.

End Sector.

Lemma seed_of_inputs N s :
  0 <= s <= N ->
  list_mul 0 (N - s) ++ list_mul 1 s = seed (Z.to_nat N) (Z.to_nat s).
Proof.
  intros H. unfold list_mul, seed. rewrite Z2Nat.inj_sub by lia. reflexivity.
Qed.

Lemma comb_binom N s :
  0 <= s <= N -> comb N s = Z.of_nat (binom (Z.to_nat N) (Z.to_nat s)).
Proof.
  intros H. unfold comb.
  destruct (Z.leb_spec 0 s); [|lia]. destruct (Z.leb_spec s N); [|lia].
  reflexivity.
Qed.

Lemma comb_outside N s : s < 0 \/ N < s -> comb N s = 0.
Proof.
  intros H. unfold comb.
  destruct (Z.leb_spec 0 s); [|reflexivity].
  destruct (Z.leb_spec s N); [lia|reflexivity].
Qed.

(** The run of [create_complete_basis] on a sector whose step meets the
    contract, in closed form. *)
Lemma cb_run_closed_form step N current_j :
  0 <= N -> 0 <= spin_ups_of N current_j <= N ->
  let n := Z.to_nat N in
  let k := Z.to_nat (spin_ups_of N current_j) in
  enumeratesb step n k = true ->
  exists st,
    cb_run step N current_j = Ok st /\
    cb_basis_set st = map (sector_basis step n k) (seq 0 (binom n k)) /\
    cb_to_diag st
    = map (fun j => (sector_index step n k j, Z.of_nat j)) (seq 0 (binom n k)) /\
    cb_to_ord st
    = map (fun j => (Z.of_nat j, sector_index step n k j)) (seq 0 (binom n k)) /\
    cb_caught st
    = map Z.of_nat
        (filter (fun j => signals step (iter_step step j (seed n k)))
                (seq 0 (binom n k))).
Proof.
  intros HN Hs n k Hc. unfold cb_run.
  rewrite seed_of_inputs, comb_binom, range_nat by assumption.
  fold n k.
  destruct (cb_loop_closed_form step (2 ^ N) (seed n k) (binom n k)
              (contract_ok step n k Hc))
    as (st & Hst & _ & Hset & Hd & Ho & Hcg).
  exists st. split; [exact Hst|].
  replace (2 ^ N) with (2 ^ Z.of_nat n) in * by (unfold n; rewrite Z2Nat.id; lia).
  split; [exact Hset|]. split; [|split; [|exact Hcg]].
  - rewrite Hd. apply (dict_of_distinct (sector_index step n k) Z.of_nat).
    apply sector_index_NoDup; assumption.
  - rewrite Ho. apply to_ord_closed_form.
Qed.

Lemma create_complete_basis_closed_form step N current_j :
  0 <= N -> 0 <= spin_ups_of N current_j <= N ->
  let n := Z.to_nat N in
  let k := Z.to_nat (spin_ups_of N current_j) in
  enumeratesb step n k = true ->
  create_complete_basis step N current_j
  = Ok (map (sector_basis step n k) (seq 0 (binom n k)),
        map (fun j => (sector_index step n k j, Z.of_nat j)) (seq 0 (binom n k)),
        map (fun j => (Z.of_nat j, sector_index step n k j)) (seq 0 (binom n k))).
Proof.
  intros HN Hs n k Hc. unfold create_complete_basis.
  destruct (cb_run_closed_form step N current_j HN Hs Hc)
    as (st & -> & Hset & Hd & Ho & _).
  cbn [bind]. fold n k in Hset, Hd, Ho. rewrite Hset, Hd, Ho. reflexivity.
Qed.

Section SectorMaps.

Variable step : list Z -> result (list Z).
Variables n k : nat.
Hypothesis contract : enumeratesb step n k = true.

Lemma to_ord_get j :
  (j < binom n k)%nat ->
  dict_get (map (fun j => (Z.of_nat j, sector_index step n k j))
                (seq 0 (binom n k))) (Z.of_nat j)
  = Some (sector_index step n k j).
Proof.
  intros Hj. apply (dict_get_map_some Z.of_nat (sector_index step n k)).
  - apply in_seq. lia.
  - intros j' _. apply Nat2Z.inj.
Qed.

Lemma to_diag_get j :
  (j < binom n k)%nat ->
  dict_get (map (fun j => (sector_index step n k j, Z.of_nat j))
                (seq 0 (binom n k))) (sector_index step n k j)
  = Some (Z.of_nat j).
Proof.
  intros Hj. apply (dict_get_map_some (sector_index step n k) Z.of_nat).
  - apply in_seq. lia.
  - intros j' Hj' E. apply in_seq in Hj'.
    apply (sector_index_inj step n k contract); [lia|lia|exact E].
Qed.

Lemma to_diag_get_none g :
  (forall j, (j < binom n k)%nat -> sector_index step n k j <> g) ->
  dict_get (map (fun j => (sector_index step n k j, Z.of_nat j))
                (seq 0 (binom n k))) g = None.
Proof.
  intros Hg. apply (dict_get_map_none (sector_index step n k) Z.of_nat).
  intros j Hj. apply in_seq in Hj. apply Hg. lia.
Qed.

End SectorMaps.

(** * The cyclic step meets the contract *)

Section CyclicStep.

Variables n k : nat.
Hypothesis k_le_n : (k <= n)%nat.

(** After [m] iterations from the seed the loop holds the arrangement of
    rank [m] modulo the size of the sector. *)
Lemma iter_step_spec m :
  arrangement n k (iter_step cyclic_permutation m (seed n k)) /\
  rank (iter_step cyclic_permutation m (seed n k)) = (m mod binom n k)%nat.
Proof.
  induction m as [|m [A R]].
  - split; [apply seed_arrangement; assumption|].
    change (iter_step cyclic_permutation 0 (seed n k)) with (seed n k).
    rewrite rank_seed. symmetry. apply Nat.Div0.mod_0_l.
  - rewrite iter_step_S.
    destruct (step_or_stay_spec n k _ k_le_n A) as [A' R'].
    split; [assumption|]. rewrite R', R.
    rewrite <- Nat.add_1_l, Nat.Div0.add_mod_idemp_r. reflexivity.
Qed.

Lemma succ_mod_inj c j j' :
  (j < c)%nat -> (j' < c)%nat -> (S j mod c = S j' mod c)%nat -> j = j'.
Proof.
  intros Hj Hj' E.
  destruct (Nat.eq_dec (S j) c) as [Ej|Nj], (Nat.eq_dec (S j') c) as [Ej'|Nj'].
  - lia.
  - rewrite Ej, Nat.Div0.mod_same, Nat.mod_small in E by lia. lia.
  - rewrite Ej', Nat.Div0.mod_same, Nat.mod_small in E by lia. lia.
  - rewrite !Nat.mod_small in E by lia. lia.
Qed.

Lemma step_okb_cyclic_permutation l : step_okb cyclic_permutation l = true.
Proof.
  unfold step_okb, cyclic_permutation.
  destruct ((ones l =? 0)%nat || (ones l =? length l)%nat); [reflexivity|].
  destruct (next_arrangement l); reflexivity.
Qed.

Lemma cyclic_permutation_enumerates : enumeratesb cyclic_permutation n k = true.
Proof.
  unfold enumeratesb. rewrite !andb_true_iff. repeat split.
  - apply forallb_forall. intros j _. apply step_okb_cyclic_permutation.
  - apply forallb_forall. intros j _. apply arrangementb_spec.
    apply (iter_step_spec (S j)).
  - apply NoDup_distinctb.
    apply Injective_map_NoDup_in; [|apply seq_NoDup].
    intros j j' Hj Hj' E. apply in_seq in Hj, Hj'.
    apply (succ_mod_inj (binom n k)); try lia.
    unfold sector_basis in E.
    rewrite <- (proj2 (iter_step_spec (S j))), <- (proj2 (iter_step_spec (S j'))), E.
    reflexivity.
Qed.

(** The cyclic step signals exhaustion exactly in the extreme sectors. *)
Lemma signals_cyclic_permutation l :
  arrangement n k l ->
  signals cyclic_permutation l = ((k =? 0)%nat || (k =? n)%nat).
Proof.
  intros (L & B & O). unfold signals, cyclic_permutation.
  rewrite O, L.
  destruct ((k =? 0)%nat || (k =? n)%nat); [reflexivity|].
  destruct (next_arrangement l); reflexivity.
Qed.

End CyclicStep.

Lemma cyclic_permutation_enumerates_all n :
  enumerates_allb cyclic_permutation n = true.
Proof.
  unfold enumerates_allb. apply forallb_forall. intros k Hk.
  apply in_seq in Hk. apply cyclic_permutation_enumerates. lia.
Qed.

(** * The helper as the specification words it *)

Lemma step_okb_binary_permutation l : step_okb binary_permutation l = true.
Proof.
  unfold step_okb, binary_permutation. destruct (next_arrangement l); reflexivity.
Qed.

(** On an arrangement the helper signals exactly when the arrangement is the
    last one of its order. *)
Lemma signals_binary_permutation n k l :
  arrangement n k l ->
  signals binary_permutation l = (S (rank l) =? binom n k)%nat.
Proof.
  intros (L & B & O). unfold signals, binary_permutation.
  destruct (next_arrangement l) as [l'|] eqn:E.
  - destruct (next_some_spec l l' B E) as (B' & L' & O' & R').
    pose proof (rank_lt l' B') as Hlt. rewrite L', O', L, O, R' in Hlt.
    symmetry. apply Nat.eqb_neq. lia.
  - pose proof (next_none_rank l B E) as Hr. rewrite L, O in Hr.
    symmetry. apply Nat.eqb_eq. exact Hr.
Qed.

Lemma step_or_stay_binary_permutation l :
  step_or_stay binary_permutation l
  = match next_arrangement l with Some l' => l' | None => l end.
Proof.
  unfold step_or_stay, binary_permutation.
  destruct (next_arrangement l); reflexivity.
Qed.

(** As long as the order is not exhausted, [m] iterations from the seed lead
    to the arrangement of rank [m]. *)
Lemma binary_permutation_iter n k m :
  (k <= n)%nat -> (m < binom n k)%nat ->
  arrangement n k (iter_step binary_permutation m (seed n k)) /\
  rank (iter_step binary_permutation m (seed n k)) = m.
Proof.
  intros Hk. induction m as [|m IH]; intros Hm.
  - split; [apply seed_arrangement; assumption|apply rank_seed].
  - destruct (IH ltac:(lia)) as [(L & B & O) R].
    rewrite iter_step_S, step_or_stay_binary_permutation.
    destruct (next_arrangement (iter_step binary_permutation m (seed n k)))
      as [l'|] eqn:E.
    + destruct (next_some_spec _ l' B E) as (B' & L' & O' & R').
      split; [split; [congruence|split; [assumption|congruence]]|].
      rewrite R', R. reflexivity.
    + pose proof (next_none_rank _ B E) as Hr. rewrite L, O, R in Hr. lia.
Qed.

Lemma binom_pos n k : (k <= n)%nat -> (0 < binom n k)%nat.
Proof.
  intros Hk. destruct (seed_arrangement n k Hk) as (L & B & O).
  pose proof (rank_lt (seed n k) B) as H. rewrite L, O in H. lia.
Qed.

Lemma filter_all_false {A} (f : A -> bool) l :
  (forall x, In x l -> f x = false) -> filter f l = [].
Proof.
  induction l as [|x l IH]; intros H; [reflexivity|].
  cbn [filter]. rewrite (H x (or_introl eq_refl)).
  apply IH. intros y Hy. apply H. right. exact Hy.
Qed.

(** A full enumeration with the helper raises the signal once, in its last
    iteration. *)
Lemma binary_permutation_signals_once n k :
  (k <= n)%nat ->
  filter (fun j => signals binary_permutation
                     (iter_step binary_permutation j (seed n k)))
         (seq 0 (binom n k))
  = [(binom n k - 1)%nat].
Proof.
  intros Hk. pose proof (binom_pos n k Hk) as Hpos.
  rewrite (filter_ext_in _ (fun j => (S j =? binom n k)%nat)).
  - remember (binom n k - 1)%nat as b eqn:Eb.
    replace (binom n k) with (S b) by lia.
    rewrite seq_S, filter_app. cbn [filter Nat.add].
    rewrite Nat.eqb_refl.
    replace (filter (fun j => (S j =? S b)%nat) (seq 0 b)) with (@nil nat);
      [reflexivity|].
    symmetry. apply filter_all_false. intros j Hj. apply in_seq in Hj.
    apply Nat.eqb_neq. lia.
  - intros j Hj. apply in_seq in Hj.
    destruct (binary_permutation_iter n k j Hk ltac:(lia)) as [A R].
    rewrite (signals_binary_permutation n k _ A), R. reflexivity.
Qed.

(** * Properties of [create_complete_basis] *)




(** With a step that meets the contract the seed comes back in the last
    iteration: it is an arrangement of the sector, so it is recorded, and an
    earlier return would make the next iteration repeat the first one. *)
Lemma seed_recorded_last step n k :
  (k <= n)%nat -> enumeratesb step n k = true ->
  sector_basis step n k (binom n k - 1) = seed n k.
Proof.
  intros Hk Hc.
  destruct (sector_basis_complete step n k Hc (seed n k) (seed_arrangement n k Hk))
    as (j & Hj & E).
  destruct (Nat.eq_dec (S j) (binom n k)) as [Ej|Nj].
  - replace (binom n k - 1)%nat with j by lia. exact E.
  - exfalso.
    assert (E' : sector_basis step n k (S j) = sector_basis step n k 0).
    { unfold sector_basis in *. rewrite (iter_step_S step (S j)), E. reflexivity. }
    apply (sector_basis_inj step n k Hc) in E'; lia.
Qed.

(** C4 (amended). For every [N >= 1] and [current_j] whose [spin_ups] lies in
    [0, N], and a permutation step that meets its contract on the sector, the
    enumeration starts from the seed [[0]*spin_downs + [1]*spin_ups], applies
    the step once in each of its [blksize] iterations and records the
    arrangement held after the step, so that local index [i] holds the seed
    stepped [i + 1] times; the seed itself is recorded last, at local index
    [blksize - 1], hence at local index 0 exactly when [blksize = 1]; the
    returned [basis_set] has length [C(N, spin_ups)] and every arrangement in
    it has [N] digits, exactly [spin_ups] of them ones. *)
Theorem C4_enumeration_records_after_each_step
  (step : list Z -> result (list Z)) (N : Z) (current_j : Q) :
  1 <= N -> 0 <= spin_ups_of N current_j <= N ->
  enumeratesb step (Z.to_nat N) (Z.to_nat (spin_ups_of N current_j)) = true ->
  let spin_ups := spin_ups_of N current_j in
  let basis_seed := list_mul 0 (N - spin_ups) ++ list_mul 1 spin_ups in
  exists basis_set to_diag to_ord,
    create_complete_basis step N current_j = Ok (basis_set, to_diag, to_ord) /\
    Z.of_nat (length basis_set) = comb N spin_ups /\
    (forall i, (i < length basis_set)%nat ->
       nth_error basis_set i = Some (iter_step step (S i) basis_seed)) /\
    nth_error basis_set (length basis_set - 1) = Some basis_seed /\
    (nth_error basis_set 0 = Some basis_seed <-> comb N spin_ups = 1) /\
    Forall (fun a => Z.of_nat (length a) = N /\ Forall is_bit a /\
                     Z.of_nat (ones a) = spin_ups) basis_set.
Proof.
  intros HN Hs Hc spin_ups basis_seed.
  rewrite create_complete_basis_closed_form by (assumption || lia).
  unfold basis_seed, spin_ups. rewrite seed_of_inputs, comb_binom by assumption.
  revert Hc.
  set (n := Z.to_nat N). set (k := Z.to_nat (spin_ups_of N current_j)).
  intros Hc.
  assert (Hk : (k <= n)%nat) by (unfold n, k; lia).
  pose proof (binom_pos n k Hk) as Hpos.
  pose proof (seed_recorded_last step n k Hk Hc) as Hlast.
  assert (Hnth : forall i, (i < binom n k)%nat ->
            nth_error (map (sector_basis step n k) (seq 0 (binom n k))) i
            = Some (sector_basis step n k i)).
  { intros i Hi. rewrite nth_error_map, nth_error_seq.
    destruct (Nat.ltb_spec i (binom n k)); [reflexivity|lia]. }
  do 3 eexists. split; [reflexivity|]. rewrite length_map, length_seq.
  split; [reflexivity|]. split; [|split; [|split]].
  - intros i Hi. apply Hnth. exact Hi.
  - rewrite Hnth by lia. rewrite Hlast. reflexivity.
  - rewrite Hnth by lia. split.
    + intros [= E]. rewrite <- Hlast in E.
      apply (sector_basis_inj step n k Hc) in E; lia.
    + intros E. f_equal. rewrite <- Hlast. f_equal. lia.
  - apply Forall_forall. intros a Ha. apply in_map_iff in Ha as (j & <- & Hj).
    apply in_seq in Hj.
    destruct (sector_basis_arrangement step n k Hc j ltac:(lia)) as (L & B & O).
    rewrite L, O. unfold n, k. rewrite !Z2Nat.id by lia. auto.
Qed.

Lemma C4_enumeration_witness :
  (1 <= 4 /\ 0 <= spin_ups_of 4 0 <= 4 /\
   enumeratesb cyclic_permutation (Z.to_nat 4) (Z.to_nat (spin_ups_of 4 0))
   = true) /\
  create_complete_basis cyclic_permutation 4 0
  = Ok ([[0; 1; 0; 1]; [0; 1; 1; 0]; [1; 0; 0; 1]; [1; 0; 1; 0]; [1; 1; 0; 0];
         [0; 0; 1; 1]],
        [(10, 0); (9, 1); (6, 2); (5, 3); (3, 4); (12, 5)],
        [(0, 10); (1, 9); (2, 6); (3, 5); (4, 3); (5, 12)]) /\
  exists basis_set to_diag to_ord,
    create_complete_basis cyclic_permutation 4 0
    = Ok (basis_set, to_diag, to_ord) /\
    Z.of_nat (length basis_set) = comb 4 (spin_ups_of 4 0) /\
    (forall i, (i < length basis_set)%nat ->
       nth_error basis_set i
       = Some (iter_step cyclic_permutation (S i)
                 (list_mul 0 (4 - spin_ups_of 4 0)
                  ++ list_mul 1 (spin_ups_of 4 0)))) /\
    nth_error basis_set (length basis_set - 1)
    = Some (list_mul 0 (4 - spin_ups_of 4 0) ++ list_mul 1 (spin_ups_of 4 0)) /\
    (nth_error basis_set 0
     = Some (list_mul 0 (4 - spin_ups_of 4 0) ++ list_mul 1 (spin_ups_of 4 0))
     <-> comb 4 (spin_ups_of 4 0) = 1) /\
    Forall (fun a => Z.of_nat (length a) = 4 /\ Forall is_bit a /\
                     Z.of_nat (ones a) = spin_ups_of 4 0) basis_set.
Proof.
  split.
  - split; [lia|]. split; [vm_compute; split; discriminate|vm_compute; reflexivity].
  - split; [vm_compute; reflexivity|].
    apply (C4_enumeration_records_after_each_step cyclic_permutation 4 0);
      [lia|vm_compute; split; discriminate|vm_compute; reflexivity].
Defined.

(** With any step at all, an enumeration that records the seed first repeats
    it: the loop steps before it records. *)
Lemma seed_first_only_if_stuck step basis_set to_diag to_ord :
  create_complete_basis step 2 0 = Ok (basis_set, to_diag, to_ord) ->
  nth_error basis_set 0 = Some [0; 1] ->
  basis_set = [[0; 1]; [0; 1]].
Proof.
  unfold create_complete_basis, cb_run.
  change (spin_ups_of 2 0) with 1. change (comb 2 1) with 2.
  change (range 2) with [0; 1].
  change (list_mul 0 (2 - 1) ++ list_mul 1 1) with [0; 1].
  cbn [cb_loop]. unfold cb_body, try_step. cbn [cb_basis].
  destruct (step [0; 1]) as [b0|[]] eqn:E0; cbn [bind fst snd cb_basis cb_basis_set];
    try discriminate.
  - destruct (step b0) as [b1|[]] eqn:E1; cbn [bind fst snd cb_basis_set app];
      try discriminate.
    + intros [= <- _ _]. cbn [nth_error]. intros [= ->].
      rewrite E0 in E1. injection E1 as <-. reflexivity.
    + intros [= <- _ _]. cbn [nth_error]. intros [= ->]. reflexivity.
  - rewrite E0. cbn [bind fst snd cb_basis_set app].
    intros [= <- _ _]. reflexivity.
Qed.

(** For [N = 2], [current_j = 0] local index 0 does not hold the seed
    [[0, 1]], whatever step meets the contract ([cyclic_permutation] does,
    and leaves [[1, 0]] there). *)
Lemma C4_counterexample :
  enumeratesb cyclic_permutation 2 1 = true /\
  forall step, enumeratesb step 2 1 = true ->
    exists basis_set to_diag to_ord,
      create_complete_basis step 2 0 = Ok (basis_set, to_diag, to_ord) /\
      nth_error basis_set 0
      <> Some (list_mul 0 (2 - spin_ups_of 2 0) ++ list_mul 1 (spin_ups_of 2 0)).
Proof.
  split; [vm_compute; reflexivity|]. intros step Hc.
  pose proof (create_complete_basis_closed_form step 2 0 ltac:(lia)
                ltac:(vm_compute; split; discriminate) Hc) as H.
  do 3 eexists. split; [exact H|].
  change (list_mul 0 (2 - spin_ups_of 2 0) ++ list_mul 1 (spin_ups_of 2 0))
    with [0; 1].
  intros H0.
  pose proof (seed_first_only_if_stuck step _ _ _ H H0) as Hstuck.
  pose proof (sector_basis_NoDup step 2 1 Hc) as ND.
  change (Z.to_nat 2) with 2%nat in Hstuck.
  change (Z.to_nat (spin_ups_of 2 0)) with 1%nat in Hstuck.
  rewrite Hstuck in ND. inversion ND as [|? ? Hnin _]. apply Hnin. left. reflexivity.
Qed.

Lemma arrangement_2_1 l : arrangement 2 1 l -> l = [0; 1] \/ l = [1; 0].
Proof.
  intros (L & B & O).
  destruct l as [|a [|b [|c l]]]; try discriminate.
  inversion B as [|? ? Ha B']; inversion B' as [|? ? Hb _]; subst.
  destruct Ha as [->| ->], Hb as [->| ->]; vm_compute in O; try discriminate; auto.
Qed.




(** C6 (amended). [create_complete_basis] validates nothing.  When
    [spin_ups = round(0.5*N + current_j)] lies outside [0, N] it raises no
    error and returns an empty [basis_set] and empty maps; and it depends on
    [current_j] through the rounded [spin_ups] only, so a [current_j] that
    makes [0.5*N + current_j] a non-integer is answered like the one of the
    rounded sector.  This holds whatever the permutation step. *)
Theorem C6_no_domain_check (step : list Z -> result (list Z)) (N : Z) :
  (forall current_j,
     spin_ups_of N current_j < 0 \/ N < spin_ups_of N current_j ->
     create_complete_basis step N current_j = Ok ([], [], [])) /\
  (forall current_j current_j',
     spin_ups_of N current_j = spin_ups_of N current_j' ->
     create_complete_basis step N current_j
     = create_complete_basis step N current_j').
Proof.
  split.
  - intros current_j H. unfold create_complete_basis, cb_run.
    rewrite comb_outside by assumption. reflexivity.
  - intros current_j current_j' H. unfold create_complete_basis, cb_run.
    rewrite H. reflexivity.
Qed.

Lemma C6_no_domain_check_witness :
  (spin_ups_of 2 2 < 0 \/ 2 < spin_ups_of 2 2) /\
  create_complete_basis cyclic_permutation 2 2 = Ok ([], [], []) /\
  spin_ups_of 2 (3 # 10) = spin_ups_of 2 0 /\
  create_complete_basis cyclic_permutation 2 (3 # 10)
  = create_complete_basis cyclic_permutation 2 0.
Proof.
  pose proof (C6_no_domain_check cyclic_permutation 2) as [H1 H2].
  split; [right; reflexivity|].
  split; [apply H1; right; reflexivity|].
  split; [reflexivity|apply H2; reflexivity].
Defined.

(** [N = 2], [current_j = 2] gives [spin_ups = 3 > N], and [N = 2],
    [current_j = 3/10] gives the non-integer [0.5*N + current_j = 13/10]:
    neither call fails. *)
Lemma C6_counterexample :
  (2 < spin_ups_of 2 2 /\
   create_complete_basis cyclic_permutation 2 2 = Ok ([], [], [])) /\
  (~ Qeq ((1 # 2) * inject_Z 2 + (3 # 10))
         (inject_Z (spin_ups_of 2 (3 # 10))) /\
   create_complete_basis cyclic_permutation 2 (3 # 10)
   = Ok ([[1; 0]; [0; 1]], [(1, 0); (2, 1)], [(0, 1); (1, 2)])).
Proof.
  split; split; try reflexivity.
  vm_compute. discriminate.
Qed.

(** * The exhaustion signal *)

(** A non-[IndexError] exception of the step aborts the loop. *)
Lemma cb_loop_propagates step dim st i idx e :
  step (cb_basis st) = Raise e -> e <> IndexError ->
  cb_loop step dim st (i :: idx) = Raise e.
Proof.
  intros H He. cbn [cb_loop]. unfold cb_body, try_step. rewrite H.
  destruct e; try reflexivity. contradiction.
Qed.

Lemma signals_stay step l : signals step l = true -> step_or_stay step l = l.
Proof.
  unfold signals, step_or_stay. destruct (step l) as [l'|[]]; try discriminate.
  reflexivity.
Qed.

(** A step that meets the contract can signal exhaustion in a sector of a
    single arrangement only, on its single iteration: any other signal would
    record an arrangement twice. *)
Lemma signal_only_in_singleton_sector step n k j :
  enumeratesb step n k = true -> (j < binom n k)%nat ->
  signals step (iter_step step j (seed n k)) = true ->
  j = O /\ binom n k = 1%nat.
Proof.
  intros Hc Hj Hs. apply signals_stay in Hs.
  destruct j as [|j].
  - split; [reflexivity|].
    destruct (Nat.eq_dec (binom n k) 1) as [E|NE]; [exact E|exfalso].
    change (iter_step step 0 (seed n k)) with (seed n k) in Hs.
    assert (E : sector_basis step n k 1 = sector_basis step n k 0).
    { unfold sector_basis. rewrite (iter_step_S step 1).
      change (iter_step step 1 (seed n k)) with (step_or_stay step (seed n k)).
      rewrite !Hs. reflexivity. }
    apply (sector_basis_inj step n k Hc) in E; lia.
  - exfalso. rewrite <- iter_step_S in Hs.
    assert (E : sector_basis step n k (S j) = sector_basis step n k j) by exact Hs.
    apply (sector_basis_inj step n k Hc) in E; lia.
Qed.

(** The helper as the specification words it signals on the last arrangement
    of a sector, so in a sector of several arrangements it does not meet the
    contract: the loop records the last arrangement twice and the seed
    never. *)
Lemma binary_permutation_misses_contract n k :
  (k <= n)%nat -> (2 <= binom n k)%nat ->
  enumeratesb binary_permutation n k = false.
Proof.
  intros Hk Hb. destruct (enumeratesb binary_permutation n k) eqn:E;
    [exfalso|reflexivity].
  destruct (binary_permutation_iter n k (binom n k - 1) Hk ltac:(lia)) as [A R].
  destruct (signal_only_in_singleton_sector binary_permutation n k
              (binom n k - 1) E ltac:(lia)) as [_ H]; [|lia].
  rewrite (signals_binary_permutation n k _ A), R. apply Nat.eqb_eq. lia.
Qed.



(** * [reorder_basis] *)

Lemma list_update_length {A} (l : list A) : forall n v,
  length (list_update l n v) = length l.
Proof.
  induction l as [|x l IH]; intros [|n] v; cbn [list_update length]; auto.
Qed.

Lemma list_update_nth_same {A} (l : list A) : forall n v d,
  (n < length l)%nat -> nth n (list_update l n v) d = v.
Proof.
  induction l as [|x l IH]; intros [|n] v d H; cbn [length] in H; try lia;
    cbn [list_update nth]; [reflexivity|apply IH; lia].
Qed.

Lemma list_update_nth_other {A} (l : list A) : forall n m v d,
  m <> n -> nth m (list_update l n v) d = nth m l d.
Proof.
  induction l as [|x l IH]; intros [|n] [|m] v d H; cbn [list_update nth];
    try reflexivity; try lia. apply IH. lia.
Qed.

(** The indices of the nonzero entries of a flat vector, from [a] on. *)
Lemma nonzero_from_spec v : forall a i,
  In i (map fst (filter (fun p => negb (snd p =? 0))
                        (combine (map Z.of_nat (seq a (length v))) v)))
  <-> Z.of_nat a <= i < Z.of_nat a + Z.of_nat (length v) /\
      nth (Z.to_nat i - a) v 0 <> 0.
Proof.
  induction v as [|x v IH]; intros a i.
  - cbn. split; [contradiction|lia].
  - cbn [length seq map combine filter snd].
    assert (Hstep : forall P : Prop,
              (In i (map fst (filter (fun p => negb (snd p =? 0))
                       (combine (map Z.of_nat (seq (S a) (length v))) v))) <-> P)
              -> (i = Z.of_nat a /\ x <> 0 \/ P) <->
                 In i (map fst (if negb (x =? 0)
                                then (Z.of_nat a, x)
                                     :: filter (fun p => negb (snd p =? 0))
                                          (combine (map Z.of_nat (seq (S a) (length v))) v)
                                else filter (fun p => negb (snd p =? 0))
                                       (combine (map Z.of_nat (seq (S a) (length v))) v)))).
    { intros P HP. destruct (Z.eqb_spec x 0) as [->|Hx]; cbn [negb map In fst].
      - rewrite HP. split; [intros [[_ H]|H]; [contradiction|exact H]|auto].
      - rewrite HP. split; [intros [[-> _]|H]; auto|intros [<-|H]; auto]. }
    rewrite <- (Hstep _ (IH (S a) i)). clear Hstep IH.
    split.
    + intros [[-> Hx]|[Hr Hn]].
      * split; [lia|]. rewrite Nat2Z.id, Nat.sub_diag. exact Hx.
      * split; [lia|]. replace (Z.to_nat i - a)%nat with (S (Z.to_nat i - S a)) by lia.
        exact Hn.
    + intros [Hr Hn]. destruct (Z.eq_dec i (Z.of_nat a)) as [->|Hne].
      * left. split; [reflexivity|]. rewrite Nat2Z.id, Nat.sub_diag in Hn. exact Hn.
      * right. split; [lia|].
        replace (Z.to_nat i - a)%nat with (S (Z.to_nat i - S a)) in Hn by lia.
        exact Hn.
Qed.

Lemma nonzero0_flat_spec v i :
  In i (nonzero0 (Arr1 v)) <->
  0 <= i < Z.of_nat (length v) /\ entry v i <> 0.
Proof.
  unfold nonzero0, range, entry. rewrite Nat2Z.id, nonzero_from_spec.
  rewrite Nat.sub_0_r. cbn [Z.of_nat]. rewrite Z.add_0_l. reflexivity.
Qed.

Lemma nonzero_column_from v : forall a,
  concat (map (fun p => map (fun _ : Z => fst p)
                            (filter (fun x => negb (x =? 0)) (snd p)))
              (combine (map Z.of_nat (seq a (length (map (fun x => [x]) v))))
                       (map (fun x => [x]) v)))
  = map fst (filter (fun p => negb (snd p =? 0))
                    (combine (map Z.of_nat (seq a (length v))) v)).
Proof.
  induction v as [|x v IH]; intros a; [reflexivity|].
  cbn [length map seq combine concat filter snd fst].
  rewrite IH. destruct (negb (x =? 0)); reflexivity.
Qed.

(** A column and a flat vector have their nonzero entries at the same
    indices. *)
Lemma nonzero0_column v : nonzero0 (column v) = nonzero0 (Arr1 v).
Proof.
  unfold nonzero0, column, range. rewrite !Nat2Z.id. apply nonzero_column_from.
Qed.

Lemma getitem1_flat v i :
  0 <= i < Z.of_nat (length v) -> getitem1 (Arr1 v) i = Ok (entry v i).
Proof.
  intros Hi. unfold getitem1, np_index, entry.
  destruct (Z.leb_spec 0 i); [|lia]. destruct (Z.ltb_spec i (Z.of_nat (length v))); [|lia].
  cbn [andb bind].
  rewrite (nth_error_nth' v 0) by lia. reflexivity.
Qed.

Lemma getitem2_column v i :
  0 <= i < Z.of_nat (length v) -> getitem2 (column v) i = Ok (entry v i).
Proof.
  intros Hi. unfold getitem2, column, np_index, entry. rewrite length_map.
  destruct (Z.leb_spec 0 i); [|lia]. destruct (Z.ltb_spec i (Z.of_nat (length v))); [|lia].
  cbn [andb bind].
  rewrite nth_error_map, (nth_error_nth' v 0) by lia. reflexivity.
Qed.

(** On a flat vector the two-index access fails at once: the first pass
    stops at the first nonzero entry and has written nothing. *)
Lemma rb_pass_flat_first v to_ord psi idx :
  rb_pass (getitem2 (Arr1 v)) to_ord psi idx
  = (psi, match idx with [] => None | _ :: _ => Some IndexError end).
Proof. destruct idx; reflexivity. Qed.

Section Pass.

Variable rhs : Z -> result Z.
Variable to_ord : dict.
Variable val G : Z -> Z.

(** A pass whose every access succeeds writes [val i] at place [G i]. *)
Lemma rb_pass_ok : forall idx psi,
  (forall i, In i idx ->
     rhs i = Ok (val i) /\ dict_get to_ord i = Some (G i) /\
     0 <= G i < Z.of_nat (length psi)) ->
  rb_pass rhs to_ord psi idx
  = (fold_left (fun a i => list_update a (Z.to_nat (G i)) (val i)) idx psi, None).
Proof.
  induction idx as [|i idx IH]; intros psi H; [reflexivity|].
  destruct (H i (or_introl eq_refl)) as (Hr & Hg & Hrange).
  cbn [rb_pass fold_left]. rewrite Hr. unfold dict_getitem. rewrite Hg.
  unfold np_set, np_index.
  destruct (Z.leb_spec 0 (G i)); [|lia].
  destruct (Z.ltb_spec (G i) (Z.of_nat (length psi))); [|lia].
  cbn [andb bind]. apply IH.
  intros i' Hi'. rewrite list_update_length. apply H. right. exact Hi'.
Qed.

Lemma fold_update_length : forall idx (psi : list Z),
  length (fold_left (fun a i => list_update a (Z.to_nat (G i)) (val i)) idx psi)
  = length psi.
Proof.
  induction idx as [|i idx IH]; intros psi; [reflexivity|].
  cbn [fold_left]. rewrite IH. apply list_update_length.
Qed.

Lemma fold_update_untouched g : forall idx (psi : list Z),
  (forall i, In i idx -> Z.to_nat (G i) <> g) ->
  nth g (fold_left (fun a i => list_update a (Z.to_nat (G i)) (val i)) idx psi) 0
  = nth g psi 0.
Proof.
  induction idx as [|i idx IH]; intros psi H; [reflexivity|].
  cbn [fold_left]. rewrite IH by (intros i' Hi'; apply H; right; exact Hi').
  apply list_update_nth_other. intros E. apply (H i (or_introl eq_refl)). auto.
Qed.

Lemma fold_update_written i : forall idx (psi : list Z),
  In i idx ->
  (forall i', In i' idx -> 0 <= G i' < Z.of_nat (length psi)) ->
  (forall i', In i' idx -> G i' = G i -> i' = i) ->
  nth (Z.to_nat (G i))
      (fold_left (fun a i => list_update a (Z.to_nat (G i)) (val i)) idx psi) 0
  = val i.
Proof.
  induction idx as [|x idx IH] using rev_ind; intros psi Hin Hr Hinj;
    [contradiction|].
  rewrite fold_left_app. cbn [fold_left].
  destruct (Z.eq_dec (G x) (G i)) as [E|NE].
  - rewrite (Hinj x) by (try apply in_or_app; auto; right; left; reflexivity).
    apply list_update_nth_same. rewrite fold_update_length.
    specialize (Hr i Hin). lia.
  - rewrite list_update_nth_other.
    + apply in_app_or in Hin as [Hin|[->|[]]]; [|contradiction].
      apply IH; [assumption| |].
      * intros i' Hi'. apply Hr, in_or_app. left. exact Hi'.
      * intros i' Hi'. apply Hinj, in_or_app. left. exact Hi'.
    + assert (0 <= G x) by (apply Hr, in_or_app; right; left; reflexivity).
      assert (0 <= G i) by (apply Hr, Hin). lia.
Qed.

End Pass.

(** On a flat vector the call ends with what the one-index pass writes. *)
Lemma reorder_flat_result to_ord v (psi0 F : list Z) :
  rb_pass (getitem1 (Arr1 v)) to_ord psi0 (nonzero0 (Arr1 v)) = (F, None) ->
  match rb_pass (getitem2 (Arr1 v)) to_ord psi0 (nonzero0 (Arr1 v)) with
  | (psi_ord, None) => Ok psi_ord
  | (psi_ord, Some IndexError) =>
      match rb_pass (getitem1 (Arr1 v)) to_ord psi_ord (nonzero0 (Arr1 v)) with
      | (psi_ord, None) => Ok psi_ord
      | (_, Some e) => Raise e
      end
  | (_, Some e) => Raise e
  end = Ok F.
Proof.
  rewrite rb_pass_flat_first.
  destruct (nonzero0 (Arr1 v)) as [|i idx]; intros H.
  - cbn [rb_pass] in H. injection H as <-. reflexivity.
  - rewrite H. reflexivity.
Qed.

(** What [reorder_basis] returns for a vector supported in the sector, entry
    by entry: local index [j] of the sector goes to the global index the sector
    assigns to it, and every other entry is zero. *)
Lemma reorder_basis_entries
  (step : list Z -> result (list Z)) (N : Z) (current_j : Q) (v : list Z) :
  1 <= N -> 0 <= spin_ups_of N current_j <= N ->
  enumeratesb step (Z.to_nat N) (Z.to_nat (spin_ups_of N current_j)) = true ->
  (forall i, 0 <= i < Z.of_nat (length v) -> entry v i <> 0 ->
             i < comb N (spin_ups_of N current_j)) ->
  exists psi,
    reorder_basis step N (Arr1 v) current_j = Ok psi /\
    reorder_basis step N (column v) current_j = Ok psi /\
    length psi = Z.to_nat (2 ^ N) /\
    (forall j, (j < binom (Z.to_nat N) (Z.to_nat (spin_ups_of N current_j)))%nat ->
       entry psi (sector_index step (Z.to_nat N)
                    (Z.to_nat (spin_ups_of N current_j)) j)
       = entry v (Z.of_nat j)) /\
    (forall g, 0 <= g < 2 ^ N ->
       popcount N g <> N - spin_ups_of N current_j -> entry psi g = 0).
Proof.
  intros HN Hs Hc Hsup.
  unfold reorder_basis. destruct (Z.ltb_spec N 0) as [|_]; [lia|].
  rewrite create_complete_basis_closed_form by (assumption || lia).
  rewrite comb_binom in * by assumption.
  revert Hc Hsup.
  set (n := Z.to_nat N). set (k := Z.to_nat (spin_ups_of N current_j)).
  intros Hc Hsup. cbn [bind snd].
  set (to_ord := map (fun j => (Z.of_nat j, sector_index step n k j))
                     (seq 0 (binom n k))).
  set (G := fun i => sector_index step n k (Z.to_nat i)).
  set (psi0 := repeat 0 (Z.to_nat (2 ^ N))).
  set (idx := nonzero0 (Arr1 v)).
  set (F := fold_left (fun a i => list_update a (Z.to_nat (G i)) (entry v i))
                      idx psi0).
  assert (Hpow : 2 ^ N = 2 ^ Z.of_nat n) by (unfold n; rewrite Z2Nat.id; lia).
  assert (Hlen0 : Z.of_nat (length psi0) = 2 ^ N).
  { unfold psi0. rewrite repeat_length, Z2Nat.id; [reflexivity|].
    apply Z.pow_nonneg. lia. }
  assert (Hidx : forall i, In i idx ->
            (0 <= i < Z.of_nat (length v) /\ entry v i <> 0) /\
            (Z.to_nat i < binom n k)%nat /\
            dict_get to_ord i = Some (G i) /\
            0 <= G i < Z.of_nat (length psi0)).
  { intros i Hi. apply nonzero0_flat_spec in Hi as [Hr Hnz].
    pose proof (Hsup i Hr Hnz) as Hlt.
    assert (Hj : (Z.to_nat i < binom n k)%nat) by lia.
    repeat split; try lia; try assumption.
    - rewrite <- (Z2Nat.id i) at 1 by lia. apply to_ord_get. exact Hj.
    - apply (sector_index_range step n k Hc _ Hj).
    - rewrite Hlen0, Hpow. apply (sector_index_range step n k Hc _ Hj). }
  assert (Hflat : rb_pass (getitem1 (Arr1 v)) to_ord psi0 idx = (F, None)).
  { apply (rb_pass_ok _ to_ord (entry v) G). intros i Hi.
    destruct (Hidx i Hi) as ((Hr & _) & _ & Hg & HG).
    split; [apply getitem1_flat; exact Hr|split; assumption]. }
  assert (Hcol : rb_pass (getitem2 (column v)) to_ord psi0 (nonzero0 (column v))
                 = (F, None)).
  { rewrite nonzero0_column. apply (rb_pass_ok _ to_ord (entry v) G). intros i Hi.
    destruct (Hidx i Hi) as ((Hr & _) & _ & Hg & HG).
    split; [apply getitem2_column; exact Hr|split; assumption]. }
  exists F. split; [|split; [|split; [|split]]].
  - apply reorder_flat_result. exact Hflat.
  - rewrite Hcol. reflexivity.
  - unfold F. rewrite fold_update_length. unfold psi0. apply repeat_length.
  - intros j Hj.
    destruct (Z.eq_dec (entry v (Z.of_nat j)) 0) as [Hz|Hnz].
    + rewrite Hz. unfold entry at 1, F. rewrite fold_update_untouched.
      * unfold psi0. apply nth_repeat.
      * intros i Hi E. destruct (Hidx i Hi) as ((Hr & Hnz) & Hj' & _ & HG).
        pose proof (sector_index_range step n k Hc _ Hj) as Hrg.
        assert (E' : G i = sector_index step n k j) by lia.
        apply (sector_index_inj step n k Hc) in E'; [|assumption..].
        apply Hnz. rewrite <- Hz. f_equal. lia.
    + assert (Hlt : Z.of_nat j < Z.of_nat (length v)).
      { destruct (Z.lt_ge_cases (Z.of_nat j) (Z.of_nat (length v))); [assumption|].
        exfalso. apply Hnz. unfold entry. apply nth_overflow. lia. }
      assert (Hi : In (Z.of_nat j) idx)
        by (apply nonzero0_flat_spec; split; [lia|assumption]).
      replace (sector_index step n k j) with (G (Z.of_nat j))
        by (unfold G; rewrite Nat2Z.id; reflexivity).
      unfold entry at 1. unfold F. apply fold_update_written; [exact Hi| |].
      * intros i' Hi'. apply (Hidx i' Hi').
      * intros i' Hi' E. destruct (Hidx i' Hi') as ((Hr' & _) & Hj' & _).
        unfold G in E. rewrite Nat2Z.id in E.
        apply (sector_index_inj step n k Hc) in E; [lia|assumption..].
  - intros g Hg Hpop. unfold entry at 1, F.
    rewrite fold_update_untouched.
    + unfold psi0. apply nth_repeat.
    + intros i Hi E. destruct (Hidx i Hi) as ((Hr & _) & Hj & Hget & HG).
      apply Hpop. replace g with (G i) by lia. unfold G.
      rewrite <- (Z2Nat.id N) at 1 by lia. fold n.
      rewrite (sector_index_popcount step n k Hc _ Hj). unfold n, k. lia.
Qed.

(** C8 (amended). For every [N >= 1] and [current_j] whose [spin_ups] lies
    in [0, N], a permutation step that meets its contract on the sector, and
    every
    vector [v] whose nonzero entries sit at local indices below [blksize],
    [reorder_basis] returns the same vector of length [2^N] for [v] given
    flat and for [v] given as a 2-D column; its entry at [to_ord[i]] is
    [v[i]] for every index [i] of a nonzero entry of [v]; and its entries are
    zero at every global index that is not [to_ord[i]] for a local index
    [i], in particular at every index whose [N]-bit representation has not
    [N - spin_ups] ones. *)
Theorem C8_reorder_basis_places_entries_at_to_ord
  (step : list Z -> result (list Z)) (N : Z) (current_j : Q) (v : list Z) :
  1 <= N -> 0 <= spin_ups_of N current_j <= N ->
  enumeratesb step (Z.to_nat N) (Z.to_nat (spin_ups_of N current_j)) = true ->
  (forall i, 0 <= i < Z.of_nat (length v) -> entry v i <> 0 ->
             i < comb N (spin_ups_of N current_j)) ->
  exists basis_set to_diag to_ord psi_ord,
    create_complete_basis step N current_j = Ok (basis_set, to_diag, to_ord) /\
    reorder_basis step N (Arr1 v) current_j = Ok psi_ord /\
    reorder_basis step N (column v) current_j = Ok psi_ord /\
    Z.of_nat (length psi_ord) = 2 ^ N /\
    (forall i, 0 <= i < Z.of_nat (length v) -> entry v i <> 0 ->
       exists g, dict_get to_ord i = Some g /\ 0 <= g < 2 ^ N /\
                 entry psi_ord g = entry v i) /\
    (forall g, 0 <= g < 2 ^ N ->
       (forall i, 0 <= i < comb N (spin_ups_of N current_j) ->
                  dict_get to_ord i <> Some g) ->
       entry psi_ord g = 0) /\
    (forall g, 0 <= g < 2 ^ N ->
       popcount N g <> N - spin_ups_of N current_j -> entry psi_ord g = 0).
Proof.
  intros HN Hs Hc Hsup.
  unfold reorder_basis. destruct (Z.ltb_spec N 0) as [|_]; [lia|].
  rewrite create_complete_basis_closed_form by (assumption || lia).
  rewrite comb_binom in * by assumption.
  revert Hc Hsup.
  set (n := Z.to_nat N). set (k := Z.to_nat (spin_ups_of N current_j)).
  intros Hc Hsup. cbn [bind snd].
  set (to_ord := map (fun j => (Z.of_nat j, sector_index step n k j))
                     (seq 0 (binom n k))).
  set (G := fun i => sector_index step n k (Z.to_nat i)).
  set (psi0 := repeat 0 (Z.to_nat (2 ^ N))).
  set (idx := nonzero0 (Arr1 v)).
  set (F := fold_left (fun a i => list_update a (Z.to_nat (G i)) (entry v i))
                      idx psi0).
  assert (Hpow : 2 ^ N = 2 ^ Z.of_nat n) by (unfold n; rewrite Z2Nat.id; lia).
  assert (Hlen0 : Z.of_nat (length psi0) = 2 ^ N).
  { unfold psi0. rewrite repeat_length, Z2Nat.id; [reflexivity|].
    apply Z.pow_nonneg. lia. }
  assert (Hidx : forall i, In i idx ->
            (0 <= i < Z.of_nat (length v) /\ entry v i <> 0) /\
            (Z.to_nat i < binom n k)%nat /\
            dict_get to_ord i = Some (G i) /\
            0 <= G i < Z.of_nat (length psi0)).
  { intros i Hi. apply nonzero0_flat_spec in Hi as [Hr Hnz].
    pose proof (Hsup i Hr Hnz) as Hlt.
    assert (Hj : (Z.to_nat i < binom n k)%nat) by lia.
    repeat split; try lia; try assumption.
    - rewrite <- (Z2Nat.id i) at 1 by lia. apply to_ord_get. exact Hj.
    - apply (sector_index_range step n k Hc _ Hj).
    - rewrite Hlen0, Hpow. apply (sector_index_range step n k Hc _ Hj). }
  assert (Hflat : rb_pass (getitem1 (Arr1 v)) to_ord psi0 idx = (F, None)).
  { apply (rb_pass_ok _ to_ord (entry v) G). intros i Hi.
    destruct (Hidx i Hi) as ((Hr & _) & _ & Hg & HG).
    split; [apply getitem1_flat; exact Hr|split; assumption]. }
  assert (Hcol : rb_pass (getitem2 (column v)) to_ord psi0 (nonzero0 (column v))
                 = (F, None)).
  { rewrite nonzero0_column. apply (rb_pass_ok _ to_ord (entry v) G). intros i Hi.
    destruct (Hidx i Hi) as ((Hr & _) & _ & Hg & HG).
    split; [apply getitem2_column; exact Hr|split; assumption]. }
  exists (map (sector_basis step n k) (seq 0 (binom n k))),
         (map (fun j => (sector_index step n k j, Z.of_nat j)) (seq 0 (binom n k))),
         to_ord, F.
  split; [reflexivity|]. split; [|split; [|split; [|split; [|split]]]].
  - apply reorder_flat_result. exact Hflat.
  - rewrite Hcol. reflexivity.
  - unfold F. rewrite fold_update_length. exact Hlen0.
  - intros i Hr Hnz.
    assert (Hi : In i idx) by (apply nonzero0_flat_spec; split; assumption).
    destruct (Hidx i Hi) as (_ & Hj & Hg & HG).
    exists (G i). split; [exact Hg|]. split; [lia|].
    unfold entry at 1. unfold F. apply fold_update_written; [exact Hi| |].
    + intros i' Hi'. apply (Hidx i' Hi').
    + intros i' Hi' E. destruct (Hidx i' Hi') as ((Hr' & _) & Hj' & _).
      apply (sector_index_inj step n k Hc) in E; [lia|assumption..].
  - intros g Hg Hno. unfold entry at 1, F.
    rewrite fold_update_untouched.
    + unfold psi0. apply nth_repeat.
    + intros i Hi E. destruct (Hidx i Hi) as ((Hr & _) & Hj & Hget & HG).
      apply (Hno i); [lia|]. rewrite Hget. f_equal. lia.
  - intros g Hg Hpop. unfold entry at 1, F.
    rewrite fold_update_untouched.
    + unfold psi0. apply nth_repeat.
    + intros i Hi E. destruct (Hidx i Hi) as ((Hr & _) & Hj & Hget & HG).
      apply Hpop. replace g with (G i) by lia. unfold G.
      rewrite <- (Z2Nat.id N) at 1 by lia. fold n.
      rewrite (sector_index_popcount step n k Hc _ Hj). unfold n, k. lia.
Qed.

Lemma C8_reorder_basis_witness :
  (1 <= 3 /\ 0 <= spin_ups_of 3 (1 # 2) <= 3 /\
   enumeratesb cyclic_permutation (Z.to_nat 3)
     (Z.to_nat (spin_ups_of 3 (1 # 2))) = true) /\
  reorder_basis cyclic_permutation 3 (Arr1 [5; 0; 7]) (1 # 2)
  = Ok [0; 0; 5; 0; 7; 0; 0; 0] /\
  reorder_basis cyclic_permutation 3 (column [5; 0; 7]) (1 # 2)
  = Ok [0; 0; 5; 0; 7; 0; 0; 0].
Proof.
  assert (H1 : 1 <= 3) by lia.
  assert (H2 : 0 <= spin_ups_of 3 (1 # 2) <= 3) by (vm_compute; split; discriminate).
  assert (H3 : enumeratesb cyclic_permutation (Z.to_nat 3)
                 (Z.to_nat (spin_ups_of 3 (1 # 2))) = true) by (vm_compute; reflexivity).
  assert (H4 : forall i, 0 <= i < Z.of_nat (length [5; 0; 7]) ->
                 entry [5; 0; 7] i <> 0 -> i < comb 3 (spin_ups_of 3 (1 # 2)))
    by (intros i Hi _; change (comb 3 (spin_ups_of 3 (1 # 2))) with 3;
        cbn [length Z.of_nat] in Hi; lia).
  destruct (C8_reorder_basis_places_entries_at_to_ord cyclic_permutation 3
              (1 # 2) [5; 0; 7] H1 H2 H3 H4)
    as (bs & td & to & psi & _ & Hflat & Hcol & _).
  split; [repeat split; try assumption; lia|].
  split; [rewrite Hflat|rewrite Hcol]; reflexivity || idtac.
  - vm_compute in Hflat. injection Hflat as <-. reflexivity.
  - vm_compute in Hflat. injection Hflat as <-. reflexivity.
Defined.

(** The claim as written keeps the output zero outside the global indices
    with [spin_ups] ones.  For [N = 3], [current_j = 1/2] ([spin_ups = 2])
    and the vector [[5, 6, 7]] the output is nonzero at an index with a single
    one, whatever step meets the contract; with [cyclic_permutation] it is
    [[0, 6, 5, 0, 7, 0, 0, 0]], nonzero at 1, 2 and 4 and zero at 3, 5 and 6,
    the indices with two ones. *)
Lemma C8_counterexample :
  spin_ups_of 3 (1 # 2) = 2 /\
  enumeratesb cyclic_permutation 3 2 = true /\
  reorder_basis cyclic_permutation 3 (Arr1 [5; 6; 7]) (1 # 2)
  = Ok [0; 6; 5; 0; 7; 0; 0; 0] /\
  popcount 3 1 = 1 /\ popcount 3 2 = 1 /\ popcount 3 4 = 1 /\
  popcount 3 3 = 2 /\ popcount 3 5 = 2 /\ popcount 3 6 = 2 /\
  forall step, enumeratesb step 3 2 = true ->
    exists psi_ord g,
      reorder_basis step 3 (Arr1 [5; 6; 7]) (1 # 2) = Ok psi_ord /\
      0 <= g < 2 ^ 3 /\
      popcount 3 g <> spin_ups_of 3 (1 # 2) /\
      entry psi_ord g <> 0.
Proof.
  split; [reflexivity|]. split; [vm_compute; reflexivity|].
  split; [vm_compute; reflexivity|].
  repeat (split; [reflexivity|]).
  intros step Hc.
  destruct (reorder_basis_entries step 3 (1 # 2) [5; 6; 7]) as (psi & E & _ & _ & Hin & _).
  - lia.
  - vm_compute. split; discriminate.
  - exact Hc.
  - intros i Hi _. change (comb 3 (spin_ups_of 3 (1 # 2))) with 3.
    cbn [length Z.of_nat] in Hi. lia.
  - exists psi, (sector_index step 3 2 0). split; [exact E|].
    change (Z.to_nat 3) with 3%nat in Hin.
    change (Z.to_nat (spin_ups_of 3 (1 # 2))) with 2%nat in Hin.
    split; [apply (sector_index_range step 3 2 Hc 0); vm_compute; lia|].
    split.
    + change 3 with (Z.of_nat 3) at 1.
      rewrite (sector_index_popcount step 3 2 Hc 0) by (vm_compute; lia).
      vm_compute. discriminate.
    + rewrite (Hin 0%nat) by (vm_compute; lia). vm_compute. discriminate.
Qed.

(** * [similarity_trans_matrix] *)

(** ** The traversal of the sectors *)

Lemma py_round_Z x z : Qeq x (inject_Z z) -> py_round x = z.
Proof.
  intros E. unfold py_round.
  rewrite (Qfloor_comp _ _ E), Qfloor_Z.
  assert (H : Qcompare (x - inject_Z z) (1 # 2) = Lt).
  { apply Qlt_alt. rewrite E. unfold Qminus. rewrite Qplus_opp_r. reflexivity. }
  rewrite H. reflexivity.
Qed.

(** The sector visited at step [t] of the traversal has [N - t] spins up. *)
Lemma spin_ups_of_traversal N t :
  spin_ups_of N (inject_Z N / 2 - inject_Z t)%Q = N - t.
Proof.
  unfold spin_ups_of. apply py_round_Z.
  unfold Z.sub. rewrite inject_Z_plus, inject_Z_opp. field.
Qed.

Lemma arange_j_nat N :
  0 <= N ->
  arange_j N
  = map (fun t => (inject_Z N / 2 - inject_Z (Z.of_nat t))%Q)
        (seq 0 (S (Z.to_nat N))).
Proof.
  intros HN. unfold arange_j, range. rewrite map_map.
  replace (Z.to_nat (N + 1)) with (S (Z.to_nat N)) by lia. reflexivity.
Qed.

(** ** Sums of sector sizes *)

Section Sizes.
Local Open Scope nat_scope.

Lemma sum_binom_pascal n : forall m,
  list_sum (map (binom (S n)) (seq 0 (S m)))
  = list_sum (map (binom n) (seq 0 (S m))) + list_sum (map (binom n) (seq 0 m)).
Proof.
  induction m as [|m IH].
  - cbn [seq map list_sum fold_right]. rewrite !binom_0_r. reflexivity.
  - rewrite (seq_S (S m)), !map_app, !list_sum_app, IH.
    rewrite (seq_S m), !map_app, !list_sum_app.
    cbn [map list_sum fold_right Nat.add]. rewrite binom_succ. lia.
Qed.

Lemma sum_binom n : list_sum (map (binom n) (seq 0 (S n))) = 2 ^ n.
Proof.
  induction n as [|n IH]; [reflexivity|].
  rewrite sum_binom_pascal, (seq_S (S n)), map_app, list_sum_app, IH.
  cbn [map list_sum fold_right Nat.add]. rewrite binom_gt by lia.
  rewrite Nat.pow_succ_r'. lia.
Qed.

Lemma map_seq_reverse {A} (g : nat -> A) : forall m,
  map (fun t => g (m - t)) (seq 0 (S m)) = rev (map g (seq 0 (S m))).
Proof.
  induction m as [|m IH]; [reflexivity|].
  transitivity (g (S m) :: rev (map g (seq 0 (S m)))).
  - rewrite <- IH. change (seq 0 (S (S m))) with (0 :: seq 1 (S m)).
    cbn [map]. f_equal. rewrite <- seq_shift, map_map. reflexivity.
  - rewrite (seq_S (S m)), map_app, rev_app_distr. reflexivity.
Qed.

Lemma list_sum_rev l : list_sum (rev l) = list_sum l.
Proof.
  induction l as [|x l IH]; [reflexivity|].
  cbn [rev]. rewrite list_sum_app, IH. simpl. lia.
Qed.

(** The sector sizes add up to the dimension. *)
Lemma sector_offset_total n : sector_offset n (S n) = 2 ^ n.
Proof.
  unfold sector_offset.
  rewrite (map_seq_reverse (binom n) n), list_sum_rev. apply sum_binom.
Qed.

Lemma sector_offset_S n t :
  sector_offset n (S t) = sector_offset n t + binom n (n - t).
Proof.
  unfold sector_offset. rewrite seq_S, map_app, list_sum_app.
  cbn [map list_sum fold_right Nat.add]. lia.
Qed.

Lemma sector_offset_mono n t : sector_offset n t <= sector_offset n (S t).
Proof. rewrite sector_offset_S. lia. Qed.

Lemma sector_offset_le n : forall t t', t <= t' -> sector_offset n t <= sector_offset n t'.
Proof.
  intros t t' H. induction H as [|t' _ IH]; [lia|].
  pose proof (sector_offset_mono n t'). lia.
Qed.

Lemma sector_offset_bound n t : t <= S n -> sector_offset n t <= 2 ^ n.
Proof.
  intros H. rewrite <- (sector_offset_total n). apply sector_offset_le. exact H.
Qed.

End Sizes.

(** ** The loop *)

Lemma list_update_mid {A} (l1 : list A) x l2 v :
  list_update (l1 ++ x :: l2) (length l1) v = l1 ++ v :: l2.
Proof.
  induction l1 as [|y l1 IH]; [reflexivity|].
  cbn [app length list_update]. rewrite IH. reflexivity.
Qed.

Lemma np_set_next {A} (l1 : list A) x l2 v :
  np_set (l1 ++ x :: l2) (Z.of_nat (length l1)) v = Ok (l1 ++ v :: l2).
Proof.
  unfold np_set, np_index. rewrite length_app. cbn [length].
  destruct (Z.leb_spec 0 (Z.of_nat (length l1))); [|lia].
  destruct (Z.ltb_spec (Z.of_nat (length l1))
              (Z.of_nat (length l1 + S (length l2)))); [|lia].
  cbn [andb bind]. rewrite Nat2Z.id, list_update_mid. reflexivity.
Qed.

(** Writing the items of one sector fills the next free cells. *)
Lemma stm_items_spec offset off_z : forall items R C m,
  length R = length C -> (length items <= m)%nat ->
  stm_items offset
    (mk_stm off_z (Z.of_nat (length R))
       (map Some R ++ repeat None m) (map Some C ++ repeat None m)) items
  = Ok (mk_stm off_z (Z.of_nat (length R + length items))
          (map Some (R ++ map (fun it => snd it + offset) items)
           ++ repeat None (m - length items))
          (map Some (C ++ map fst items) ++ repeat None (m - length items))).
Proof.
  induction items as [|it items IH]; intros R C m HL Hm.
  - cbn [stm_items length map]. rewrite !app_nil_r, Nat.add_0_r, Nat.sub_0_r.
    reflexivity.
  - destruct m as [|m]; [cbn [length] in Hm; lia|].
    cbn [stm_items repeat]. unfold stm_inner.
    cbn [stm_row_ind stm_col_ind stm_current_pos stm_offset].
    rewrite <- (length_map Some R) at 1. rewrite np_set_next. cbn [bind].
    rewrite HL. rewrite <- (length_map Some C) at 1. rewrite np_set_next.
    cbn [bind].
    replace (Z.of_nat (length C) + 1) with (Z.of_nat (length (R ++ [snd it + offset])))
      by (rewrite length_app; cbn [length]; lia).
    replace (map Some R ++ Some (snd it + offset) :: repeat None m)
      with (map Some (R ++ [snd it + offset]) ++ repeat None m)
      by (rewrite map_app, <- app_assoc; reflexivity).
    replace (map Some C ++ Some (fst it) :: repeat None m)
      with (map Some (C ++ [fst it]) ++ repeat None m)
      by (rewrite map_app, <- app_assoc; reflexivity).
    rewrite IH by (rewrite ?length_app; cbn [length] in *; lia).
    rewrite !length_app. cbn [length map Nat.sub].
    rewrite <- !app_assoc. cbn [app].
    f_equal. f_equal. lia.
Qed.

Lemma sector_cols_S step n t :
  sector_cols step n (S t)
  = sector_cols step n t
    ++ map (sector_index step n (n - t)) (seq 0 (binom n (n - t))).
Proof.
  unfold sector_cols. rewrite seq_S, map_app, concat_app. cbn [map concat Nat.add].
  rewrite app_nil_r. reflexivity.
Qed.

Lemma sector_cols_length step n t :
  length (sector_cols step n t) = sector_offset n t.
Proof.
  induction t as [|t IH]; [reflexivity|].
  rewrite sector_cols_S, sector_offset_S, length_app, IH, length_map, length_seq.
  reflexivity.
Qed.

Lemma enumerates_all_sector step n k :
  enumerates_allb step n = true -> (k <= n)%nat -> enumeratesb step n k = true.
Proof.
  unfold enumerates_allb. rewrite forallb_forall. intros H Hk.
  apply H, in_seq. lia.
Qed.

Lemma map_seq_offset {A} (f : nat -> A) : forall len a,
  map f (seq a len) = map (fun x => f (x + a)%nat) (seq 0 len).
Proof.
  induction len as [|len IH]; intros a; [reflexivity|].
  cbn [seq map]. f_equal. rewrite (IH (S a)), <- seq_shift, map_map.
  apply map_ext. intros x. f_equal. lia.
Qed.

(** One iteration of the outer loop takes the state before sector [t] to the
    state before sector [t + 1]. *)
Lemma stm_body_spec step N t :
  0 <= N -> (t <= Z.to_nat N)%nat ->
  enumerates_allb step (Z.to_nat N) = true ->
  stm_body step N (stm_state_at step (Z.to_nat N) t)
    (inject_Z N / 2 - inject_Z (Z.of_nat t))%Q
  = Ok (stm_state_at step (Z.to_nat N) (S t)).
Proof.
  intros HN Ht Hall. unfold stm_body.
  rewrite spin_ups_of_traversal.
  assert (Hs : 0 <= N - Z.of_nat t <= N) by lia.
  pose proof (enumerates_all_sector step (Z.to_nat N) (Z.to_nat N - t) Hall
                ltac:(lia)) as Hc.
  assert (Ek : Z.to_nat (N - Z.of_nat t) = (Z.to_nat N - t)%nat) by lia.
  rewrite create_complete_basis_closed_form;
    rewrite ?spin_ups_of_traversal, ?Ek; try assumption.
  rewrite comb_binom, Ek by assumption.
  set (n := Z.to_nat N) in *. set (k := (n - t)%nat) in *.
  cbn [bind fst snd dict_items]. unfold stm_state_at.
  cbn [stm_offset].
  pose proof (sector_offset_bound n (S t) ltac:(lia)) as Hb.
  rewrite sector_offset_S in Hb. fold k in Hb.
  replace (Z.of_nat (sector_offset n t))
    with (Z.of_nat (length (map Z.of_nat (seq 0 (sector_offset n t)))))
    by (rewrite length_map, length_seq; reflexivity).
  rewrite stm_items_spec.
  - cbn [bind stm_offset stm_current_pos stm_row_ind stm_col_ind].
    rewrite !length_map, !length_seq. cbn [fst snd].
    rewrite sector_cols_S, sector_offset_S. fold k.
    f_equal. f_equal.
    + lia.
    + f_equal; [|f_equal; lia]. f_equal.
      rewrite seq_app, map_app. f_equal.
      rewrite (map_seq_offset Z.of_nat (binom n k) (0 + sector_offset n t)).
      rewrite map_map. apply map_ext. intros x. cbn [snd]. lia.
    + f_equal; [|f_equal; lia]. f_equal. f_equal.
      rewrite map_map. reflexivity.
  - rewrite !length_map, length_seq, sector_cols_length. reflexivity.
  - rewrite length_map, length_seq. lia.
Qed.

Lemma stm_loop_spec step N :
  0 <= N -> enumerates_allb step (Z.to_nat N) = true ->
  forall len t, (t + len <= S (Z.to_nat N))%nat ->
  stm_loop step N (stm_state_at step (Z.to_nat N) t)
    (map (fun t => (inject_Z N / 2 - inject_Z (Z.of_nat t))%Q) (seq t len))
  = Ok (stm_state_at step (Z.to_nat N) (t + len)).
Proof.
  intros HN Hall. induction len as [|len IH]; intros t Ht.
  - rewrite Nat.add_0_r. reflexivity.
  - cbn [seq map stm_loop]. rewrite stm_body_spec by (assumption || lia).
    cbn [bind]. rewrite IH by lia. f_equal. f_equal. lia.
Qed.

Lemma pow2_nat N : 0 <= N -> Z.to_nat (2 ^ N) = (2 ^ Z.to_nat N)%nat.
Proof.
  intros HN. apply Nat2Z.inj. rewrite Z2Nat.id by (apply Z.pow_nonneg; lia).
  rewrite Nat2Z.inj_pow, Z2Nat.id by lia. reflexivity.
Qed.

(** The whole run, in closed form. *)
Lemma stm_run_closed_form step N :
  0 <= N -> enumerates_allb step (Z.to_nat N) = true ->
  stm_run step N
  = Ok (mk_stm (2 ^ N) (2 ^ N)
          (map Some (map Z.of_nat (seq 0 (2 ^ Z.to_nat N))))
          (map Some (sector_cols step (Z.to_nat N) (S (Z.to_nat N))))).
Proof.
  intros HN Hall. unfold stm_run. destruct (Z.ltb_spec N 0) as [Hneg|_]; [lia|].
  rewrite arange_j_nat, pow2_nat by assumption.
  pose proof (stm_loop_spec step N HN Hall (S (Z.to_nat N)) 0 ltac:(lia)) as H.
  assert (E0 : stm_state_at step (Z.to_nat N) 0
               = mk_stm 0 0 (repeat None (2 ^ Z.to_nat N))
                        (repeat None (2 ^ Z.to_nat N))).
  { unfold stm_state_at, sector_cols, sector_offset.
    cbn [seq map concat app list_sum fold_right Z.of_nat].
    rewrite Nat.sub_0_r. reflexivity. }
  rewrite E0 in H. rewrite H. cbn [Nat.add]. unfold stm_state_at.
  rewrite sector_offset_total, Nat.sub_diag. cbn [repeat].
  rewrite !app_nil_r, Nat2Z.inj_pow, Z2Nat.id by lia. reflexivity.
Qed.

Lemma fold_add_list_sum (l : list nat) : forall a,
  fold_left Z.add (map Z.of_nat l) a = a + Z.of_nat (list_sum l).
Proof.
  induction l as [|x l IH]; intros a; [cbn; lia|].
  cbn [map fold_left]. rewrite IH. simpl list_sum. lia.
Qed.

(** The block sizes met by the traversal add up to the dimension, whatever
    the permutation step. *)
Lemma block_sizes_sum N :
  0 <= N ->
  fold_left Z.add
    (map (fun current_j => comb N (spin_ups_of N current_j)) (arange_j N)) 0
  = 2 ^ N.
Proof.
  intros HN. rewrite arange_j_nat by assumption. rewrite map_map.
  rewrite (map_ext_in _ (fun t => Z.of_nat (binom (Z.to_nat N) (Z.to_nat N - t)))).
  - rewrite <- map_map, fold_add_list_sum.
    fold (sector_offset (Z.to_nat N) (S (Z.to_nat N))).
    rewrite sector_offset_total, Nat2Z.inj_pow, Z2Nat.id by lia. reflexivity.
  - intros t Ht. apply in_seq in Ht.
    rewrite spin_ups_of_traversal, comb_binom by lia. do 2 f_equal. lia.
Qed.

(** The offset does not depend on what the sectors contribute: the inner loop
    leaves it alone and each sector adds its block size. *)
Lemma stm_items_offset offset : forall items st st',
  stm_items offset st items = Ok st' -> stm_offset st' = stm_offset st.
Proof.
  induction items as [|it items IH]; intros st st' H.
  - injection H as <-. reflexivity.
  - cbn [stm_items] in H. unfold stm_inner in H.
    destruct (np_set (stm_row_ind st) (stm_current_pos st)
                     (Some (snd it + offset))) as [r|e]; [|discriminate].
    cbn [bind] in H.
    destruct (np_set (stm_col_ind st) (stm_current_pos st) (Some (fst it)))
      as [c|e]; [|discriminate].
    cbn [bind] in H. apply IH in H. exact H.
Qed.

Lemma stm_body_offset step N st current_j st' :
  stm_body step N st current_j = Ok st' ->
  stm_offset st' = stm_offset st + comb N (spin_ups_of N current_j).
Proof.
  unfold stm_body. destruct (create_complete_basis step N current_j) as [r|e];
    [|discriminate].
  cbn [bind].
  destruct (stm_items (stm_offset st) st (dict_items (snd (fst r))))
    as [st1|e] eqn:E; [|discriminate].
  cbn [bind]. intros [= <-]. cbn [stm_offset].
  rewrite (stm_items_offset _ _ _ _ E). reflexivity.
Qed.

Lemma stm_loop_offset step N : forall js st st',
  stm_loop step N st js = Ok st' ->
  stm_offset st'
  = fold_left Z.add (map (fun current_j => comb N (spin_ups_of N current_j)) js)
              (stm_offset st).
Proof.
  induction js as [|j js IH]; intros st st' H.
  - injection H as <-. reflexivity.
  - cbn [stm_loop] in H.
    destruct (stm_body step N st j) as [st1|e] eqn:E; [|discriminate].
    cbn [bind] in H. apply IH in H. rewrite H.
    rewrite (stm_body_offset _ _ _ _ _ E). reflexivity.
Qed.




(** * The similarity transform is a permutation matrix *)

(** ** The columns written form a permutation of the global indices *)

Section Columns.

Variable step : list Z -> result (list Z).
Variable n : nat.
Hypothesis contract : enumerates_allb step n = true.

Lemma sector_cols_spec : forall t x,
  (t <= S n)%nat -> In x (sector_cols step n t) ->
  0 <= x < 2 ^ Z.of_nat n /\ popcount (Z.of_nat n) x < Z.of_nat t.
Proof.
  induction t as [|t IH]; intros x Ht Hx; [contradiction|].
  rewrite sector_cols_S in Hx. apply in_app_or in Hx as [Hx|Hx].
  - destruct (IH x ltac:(lia) Hx). split; [assumption|lia].
  - apply in_map_iff in Hx as (j & <- & Hj). apply in_seq in Hj.
    pose proof (enumerates_all_sector step n (n - t) contract ltac:(lia)) as Hc.
    split.
    + apply (sector_index_range step n (n - t) Hc). lia.
    + rewrite (sector_index_popcount step n (n - t) Hc) by lia. lia.
Qed.

Lemma sector_cols_NoDup : forall t,
  (t <= S n)%nat -> NoDup (sector_cols step n t).
Proof.
  induction t as [|t IH]; intros Ht; [constructor|].
  rewrite sector_cols_S.
  pose proof (enumerates_all_sector step n (n - t) contract ltac:(lia)) as Hc.
  apply NoDup_app.
  - apply IH. lia.
  - apply (sector_index_NoDup step n (n - t) Hc).
  - intros x Hx Hx'. destruct (sector_cols_spec t x ltac:(lia) Hx) as [_ Hp].
    apply in_map_iff in Hx' as (j & <- & Hj). apply in_seq in Hj.
    rewrite (sector_index_popcount step n (n - t) Hc) in Hp by lia. lia.
Qed.

Lemma sector_cols_as_map :
  sector_cols step n (S n) = map (col_at step n) (seq 0 (2 ^ n)).
Proof.
  rewrite <- (sector_offset_total n), <- (sector_cols_length step n (S n)).
  unfold col_at. generalize (sector_cols step n (S n)). intros l.
  apply (nth_ext _ _ 0 0).
  - rewrite length_map, length_seq. reflexivity.
  - intros p Hp.
    rewrite (nth_indep (map _ _) 0 (nth 0 l 0))
      by (rewrite length_map, length_seq; exact Hp).
    rewrite (map_nth (fun p => nth p l 0)), seq_nth by exact Hp. reflexivity.
Qed.

Lemma col_at_range p :
  (p < 2 ^ n)%nat -> 0 <= col_at step n p < 2 ^ Z.of_nat n.
Proof.
  intros Hp. apply (sector_cols_spec (S n)); [lia|].
  apply nth_In. rewrite sector_cols_length, sector_offset_total. exact Hp.
Qed.

Lemma col_at_inj p q :
  (p < 2 ^ n)%nat -> (q < 2 ^ n)%nat -> col_at step n p = col_at step n q -> p = q.
Proof.
  intros Hp Hq E.
  apply (proj1 (NoDup_nth _ 0) (sector_cols_NoDup (S n) ltac:(lia)));
    rewrite ?sector_cols_length, ?sector_offset_total; assumption.
Qed.

Lemma col_at_surj c :
  0 <= c < 2 ^ Z.of_nat n -> exists p, (p < 2 ^ n)%nat /\ col_at step n p = c.
Proof.
  intros Hc.
  assert (Epow : Z.of_nat (2 ^ n) = 2 ^ Z.of_nat n)
    by (rewrite Nat2Z.inj_pow; reflexivity).
  assert (Hin : In c (sector_cols step n (S n))).
  { apply (NoDup_length_incl (sector_cols_NoDup (S n) ltac:(lia))
             (l' := map Z.of_nat (seq 0 (2 ^ n)))).
    - rewrite length_map, length_seq, sector_cols_length, sector_offset_total.
      lia.
    - intros x Hx. destruct (sector_cols_spec (S n) x ltac:(lia) Hx) as [Hr _].
      apply in_map_iff. exists (Z.to_nat x). split; [lia|].
      apply in_seq. lia.
    - apply in_map_iff. exists (Z.to_nat c). split; [lia|].
      apply in_seq. lia. }
  destruct (In_nth _ _ 0 Hin) as (p & Hp & E).
  rewrite sector_cols_length, sector_offset_total in Hp.
  exists p. split; assumption.
Qed.

End Columns.

(** ** The matrix built from the triplets *)

Lemma combine_map_same {A B C} (f : A -> B) (g : A -> C) l :
  combine (map f l) (map g l) = map (fun x => (f x, g x)) l.
Proof. induction l as [|x l IH]; [reflexivity|]. cbn [map combine]. rewrite IH. reflexivity. Qed.

Lemma filter_map_length {A B} (f : B -> bool) (F : A -> B) l :
  length (filter f (map F l)) = length (filter (fun x => f (F x)) l).
Proof.
  induction l as [|x l IH]; [reflexivity|].
  cbn [map filter]. destruct (f (F x)); cbn [length]; rewrite IH; reflexivity.
Qed.

(** Among the positions [a, a + len) exactly [p0] passes the test "is [p0]
    and satisfies [g]", if it is there and satisfies [g]. *)
Lemma count_single (g : nat -> bool) p0 : forall len a,
  length (filter (fun p => (Z.of_nat p =? Z.of_nat p0) && g p) (seq a len))
  = if ((a <=? p0)%nat && (p0 <? a + len)%nat && g p0)%bool then 1%nat else 0%nat.
Proof.
  induction len as [|len IH]; intros a.
  - cbn [seq filter length].
    destruct (Nat.leb_spec a p0), (Nat.ltb_spec p0 (a + 0)); cbn [andb];
      try reflexivity. lia.
  - cbn [seq filter]. rewrite <- Nat.add_succ_comm.
    destruct (Z.eqb_spec (Z.of_nat a) (Z.of_nat p0)) as [E|NE]; cbn [andb].
    + apply Nat2Z.inj in E. subst a.
      assert (Hrest : length (filter (fun p => (Z.of_nat p =? Z.of_nat p0) && g p)
                                     (seq (S p0) len)) = 0%nat).
      { rewrite IH. destruct (Nat.leb_spec (S p0) p0); [lia|reflexivity]. }
      destruct (Nat.leb_spec p0 p0); [|lia].
      destruct (Nat.ltb_spec p0 (S p0 + len)); [|lia]. cbn [andb].
      destruct (g p0); cbn [length]; rewrite Hrest; reflexivity.
    + rewrite IH. assert (a <> p0) by congruence.
      destruct (Nat.leb_spec (S a) p0), (Nat.leb_spec a p0); try lia; reflexivity.
Qed.

Section Triplets.

Variable sigma : nat -> Z.
Variable D : nat.
Hypothesis sigma_range : forall p, (p < D)%nat -> 0 <= sigma p < Z.of_nat D.

Lemma triplets_ok :
  forallb (triplet_ok (Z.of_nat D))
    (combine (map Some (map Z.of_nat (seq 0 D))) (map Some (map sigma (seq 0 D))))
  = true.
Proof.
  rewrite !map_map, combine_map_same. apply forallb_forall.
  intros t Ht. apply in_map_iff in Ht as (p & <- & Hp). apply in_seq in Hp.
  pose proof (sigma_range p ltac:(lia)). cbn [triplet_ok].
  destruct (Z.leb_spec 0 (Z.of_nat p)); [|lia].
  destruct (Z.ltb_spec (Z.of_nat p) (Z.of_nat D)); [|lia].
  destruct (Z.leb_spec 0 (sigma p)); [|lia].
  destruct (Z.ltb_spec (sigma p) (Z.of_nat D)); [|lia]. reflexivity.
Qed.

(** The entry at [(r, c)]: 1 when [c] is the column written at position
    [r], 0 otherwise. *)
Lemma triplets_count r c :
  0 <= r < Z.of_nat D ->
  Z.of_nat
    (length (filter (triplet_hits r c)
       (combine (map Some (map Z.of_nat (seq 0 D)))
                (map Some (map sigma (seq 0 D))))))
  = if sigma (Z.to_nat r) =? c then 1 else 0.
Proof.
  intros Hr. rewrite !map_map, combine_map_same, filter_map_length.
  rewrite (filter_ext _ (fun p => (Z.of_nat p =? Z.of_nat (Z.to_nat r))
                                  && (sigma p =? c)))
    by (intros p; cbn [triplet_hits]; rewrite Z2Nat.id by lia; reflexivity).
  rewrite (count_single (fun p => sigma p =? c) (Z.to_nat r) D 0).
  destruct (Nat.leb_spec 0 (Z.to_nat r)); [|lia].
  destruct (Nat.ltb_spec (Z.to_nat r) (0 + D)); [|lia]. cbn [andb].
  destruct (sigma (Z.to_nat r) =? c); reflexivity.
Qed.

End Triplets.

(** ** Sums with one nonzero term *)

Lemma fold_sum_zero (f : Z -> Z) l :
  (forall t, In t l -> f t = 0) -> fold_right (fun t acc => f t + acc) 0 l = 0.
Proof.
  induction l as [|x l IH]; intros H; [reflexivity|].
  cbn [fold_right]. rewrite (H x (or_introl eq_refl)), IH; [reflexivity|].
  intros t Ht. apply H. right. exact Ht.
Qed.

Lemma fold_sum_single (f : Z -> Z) t0 l :
  NoDup l -> In t0 l -> (forall t, In t l -> t <> t0 -> f t = 0) ->
  fold_right (fun t acc => f t + acc) 0 l = f t0.
Proof.
  induction 1 as [|x l Hx ND IH]; intros Hin Hz; [contradiction|].
  cbn [fold_right]. destruct (Z.eq_dec x t0) as [->|Hne].
  - rewrite fold_sum_zero; [lia|].
    intros t Ht. apply Hz; [right; exact Ht|]. intros ->. contradiction.
  - rewrite (Hz x (or_introl eq_refl) Hne). destruct Hin as [E|Hin]; [contradiction|].
    rewrite IH; [reflexivity|exact Hin|].
    intros t Ht. apply Hz. right. exact Ht.
Qed.

Lemma range_NoDup n : NoDup (range n).
Proof.
  unfold range. apply Injective_map_NoDup; [|apply seq_NoDup].
  intros x y. apply Nat2Z.inj.
Qed.

Lemma range_In n t : In t (range n) <-> 0 <= t < n.
Proof.
  unfold range. rewrite in_map_iff. split.
  - intros (p & <- & Hp). apply in_seq in Hp. lia.
  - intros Ht. exists (Z.to_nat t). split; [lia|]. apply in_seq. lia.
Qed.

Lemma zsum_single f n t0 :
  0 <= t0 < n -> (forall t, 0 <= t < n -> t <> t0 -> f t = 0) ->
  zsum f n = f t0.
Proof.
  intros Ht0 Hz. unfold zsum. apply fold_sum_single.
  - apply range_NoDup.
  - apply range_In. exact Ht0.
  - intros t Ht. apply Hz. apply range_In. exact Ht.
Qed.

(** The matrix returned by [similarity_trans_matrix], entry by entry. *)
Lemma similarity_trans_matrix_closed_form step N :
  0 <= N -> enumerates_allb step (Z.to_nat N) = true ->
  exists U,
    similarity_trans_matrix step N = Ok U /\
    Mat.nrows U = 2 ^ N /\ Mat.ncols U = 2 ^ N /\
    forall r c, 0 <= r < 2 ^ N ->
      Mat.get U r c = if col_at step (Z.to_nat N) (Z.to_nat r) =? c then 1 else 0.
Proof.
  intros HN Hall. unfold similarity_trans_matrix.
  rewrite stm_run_closed_form by assumption. cbn [bind stm_row_ind stm_col_ind].
  set (n := Z.to_nat N) in *.
  assert (Epow : 2 ^ N = Z.of_nat (2 ^ n))
    by (unfold n; rewrite Nat2Z.inj_pow, Z2Nat.id by lia; reflexivity).
  rewrite (sector_cols_as_map step n), Epow. unfold csc_matrix.
  assert (Hrange : forall p, (p < 2 ^ n)%nat ->
                     0 <= col_at step n p < Z.of_nat (2 ^ n)).
  { intros p Hp. rewrite Nat2Z.inj_pow. apply (col_at_range step n Hall p Hp). }
  rewrite (triplets_ok (col_at step n) (2 ^ n) Hrange).
  eexists. split; [reflexivity|]. cbn [Mat.nrows Mat.ncols Mat.get].
  split; [reflexivity|]. split; [reflexivity|].
  intros r c Hr. apply (triplets_count (col_at step n) (2 ^ n)). exact Hr.
Qed.




(** * [create_complete_basis] with an arbitrary permutation step *)

Lemma dict_get_set d k v k' :
  dict_get (dict_set d k v) k' = if k =? k' then Some v else dict_get d k'.
Proof.
  induction d as [|[k0 v0] d IH]; cbn [dict_set dict_get].
  - reflexivity.
  - destruct (Z.eqb_spec k0 k) as [->|NE]; cbn [dict_get].
    + destruct (k =? k'); reflexivity.
    + rewrite IH. destruct (Z.eqb_spec k0 k') as [->|NE'].
      * destruct (Z.eqb_spec k k'); [congruence|reflexivity].
      * reflexivity.
Qed.

Lemma dict_of_snoc f h js j k :
  dict_get (dict_of f h (js ++ [j])) k
  = if f j =? k then Some (h j) else dict_get (dict_of f h js) k.
Proof. unfold dict_of. rewrite fold_left_app. cbn [fold_left]. apply dict_get_set. Qed.

(** A value read from a dictionary built by successive assignments was
    assigned to that key. *)
Lemma dict_of_get_some f h js k v :
  dict_get (dict_of f h js) k = Some v ->
  exists j, In j js /\ f j = k /\ v = h j.
Proof.
  induction js as [|j js IH] using rev_ind; [discriminate|].
  rewrite dict_of_snoc. destruct (Z.eqb_spec (f j) k) as [E|NE].
  - intros [= <-]. exists j. split; [apply in_or_app; right; left; reflexivity|].
    split; [exact E|reflexivity].
  - intros H. destruct (IH H) as (j' & Hin & Hf & Hv).
    exists j'. split; [apply in_or_app; left; exact Hin|]. split; assumption.
Qed.

(** The value held for the key assigned at position [i] is the one assigned
    by the last position with that key. *)
Lemma dict_of_get_last f h : forall m i,
  (i < m)%nat ->
  exists i', (i <= i' < m)%nat /\ f i' = f i /\
             dict_get (dict_of f h (seq 0 m)) (f i) = Some (h i') /\
             forall j, (i' < j < m)%nat -> f j <> f i.
Proof.
  induction m as [|m IH]; intros i Hi; [lia|].
  rewrite seq_S, dict_of_snoc. cbn [Nat.add].
  destruct (Z.eqb_spec (f m) (f i)) as [E|NE].
  - exists m. repeat split; try lia; try assumption.
  - assert (Hi' : (i < m)%nat).
    { destruct (Nat.eq_dec i m) as [->|]; [contradiction|lia]. }
    destruct (IH i Hi') as (i' & Hr & Hf & Hg & Hlast).
    exists i'. repeat split; try lia; try assumption.
    intros j Hj. destruct (Nat.eq_dec j m) as [->|]; [exact NE|apply Hlast; lia].
Qed.

(** A loop that ends normally met no exception of the step but the
    exhaustion signal. *)
Lemma cb_loop_ok_steps step dim seed0 : forall m st,
  cb_loop step dim (mk_cb seed0 [] [] [] []) (map Z.of_nat (seq 0 m)) = Ok st ->
  forall j, (j < m)%nat -> step_okb step (iter_step step j seed0) = true.
Proof.
  induction m as [|m IH]; intros st Hst j Hj; [lia|].
  rewrite seq_S, map_app, cb_loop_app in Hst.
  destruct (cb_loop step dim (mk_cb seed0 [] [] [] []) (map Z.of_nat (seq 0 m)))
    as [st'|e] eqn:Hm; [|discriminate].
  pose proof (IH st' eq_refl) as Hlt.
  destruct (Nat.eq_dec j m) as [->|NE]; [|apply Hlt; lia].
  destruct (cb_loop_closed_form step dim seed0 m Hlt) as (st2 & Hst2 & Hb & _).
  rewrite Hm in Hst2. injection Hst2 as <-.
  cbn [bind map cb_loop Nat.add] in Hst. unfold cb_body, try_step in Hst.
  rewrite Hb in Hst. unfold step_okb.
  destruct (step (iter_step step m seed0)) as [l|[]]; try reflexivity; discriminate.
Qed.

(** What a normal return of [create_complete_basis] holds, whatever the
    step. *)
Lemma create_complete_basis_ok_form step N current_j basis_set to_diag to_ord :
  create_complete_basis step N current_j = Ok (basis_set, to_diag, to_ord) ->
  let spin_ups := spin_ups_of N current_j in
  let seed0 := list_mul 0 (N - spin_ups) ++ list_mul 1 spin_ups in
  let m := Z.to_nat (comb N spin_ups) in
  let g := fun j => recorded_index (2 ^ N) (iter_step step (S j) seed0) in
  basis_set = map (fun j => iter_step step (S j) seed0) (seq 0 m) /\
  to_diag = dict_of g Z.of_nat (seq 0 m) /\
  to_ord = map (fun j => (Z.of_nat j, g j)) (seq 0 m).
Proof.
  intros H spin_ups seed0 m g. unfold create_complete_basis, cb_run in H.
  fold spin_ups seed0 in H. unfold range in H. fold m in H.
  destruct (cb_loop step (2 ^ N) (mk_cb seed0 [] [] [] []) (map Z.of_nat (seq 0 m)))
    as [st|e] eqn:Hst; [|discriminate].
  cbn [bind] in H. injection H as <- <- <-.
  destruct (cb_loop_closed_form step (2 ^ N) seed0 m
              (cb_loop_ok_steps step (2 ^ N) seed0 m st Hst))
    as (st2 & Hst2 & _ & Hset & Hd & Ho & _).
  rewrite Hst in Hst2. injection Hst2 as <-.
  split; [exact Hset|]. split; [exact Hd|].
  rewrite Ho. apply to_ord_closed_form.
Qed.

Lemma comb_nonneg N k : 0 <= comb N k.
Proof. unfold comb. destruct ((0 <=? k) && (k <=? N)); lia. Qed.

(** X1. Whatever the permutation step and whatever the input, when
    [create_complete_basis] returns, [basis_set] has [blksize] elements,
    [to_ord] holds exactly the keys [0 .. blksize - 1], in that order, and
    [to_ord[i]] is [dim - bin_to_dec(basis_set[i]) - 1]. *)
Theorem X1_to_ord_lists_every_local_index
  (step : list Z -> result (list Z)) (N : Z) (current_j : Q)
  (basis_set : list (list Z)) (to_diag to_ord : dict) :
  create_complete_basis step N current_j = Ok (basis_set, to_diag, to_ord) ->
  Z.of_nat (length basis_set) = comb N (spin_ups_of N current_j) /\
  to_ord
  = map (fun i => (Z.of_nat i, 2 ^ N - bin_to_dec (nth i basis_set []) - 1))
        (seq 0 (length basis_set)).
Proof.
  intros H. destruct (create_complete_basis_ok_form _ _ _ _ _ _ H) as (Hb & _ & Ho).
  pose proof (comb_nonneg N (spin_ups_of N current_j)) as Hc.
  assert (Hl : length basis_set = Z.to_nat (comb N (spin_ups_of N current_j)))
    by (rewrite Hb, length_map, length_seq; reflexivity).
  split; [lia|]. rewrite Ho, Hl. apply map_ext_in. intros i Hi. apply in_seq in Hi.
  f_equal. unfold recorded_index. rewrite Hb.
  rewrite (nth_indep _ [] (iter_step step 1
             (list_mul 0 (N - spin_ups_of N current_j)
              ++ list_mul 1 (spin_ups_of N current_j))))
    by (rewrite length_map, length_seq; lia).
  rewrite (map_nth (fun j => iter_step step (S j) _)), seq_nth by lia.
  reflexivity.
Qed.

Lemma X1_to_ord_witness :
  create_complete_basis stuck_step 2 0
  = Ok ([[0; 1]; [0; 1]], [(2, 1)], [(0, 2); (1, 2)]) /\
  Z.of_nat (length [[0; 1]; [0; 1]]) = comb 2 (spin_ups_of 2 0) /\
  [(0, 2); (1, 2)]
  = map (fun i => (Z.of_nat i, 2 ^ 2 - bin_to_dec (nth i [[0; 1]; [0; 1]] []) - 1))
        (seq 0 (length [[0; 1]; [0; 1]])).
Proof.
  assert (H : create_complete_basis stuck_step 2 0
              = Ok ([[0; 1]; [0; 1]], [(2, 1)], [(0, 2); (1, 2)])) by reflexivity.
  split; [exact H|].
  exact (X1_to_ord_lists_every_local_index stuck_step 2 0 _ _ _ H).
Defined.

(** X2. Whatever the permutation step and whatever the input, the maps
    that [create_complete_basis] returns satisfy
    [to_ord[to_diag[g]] == g] for every key [g] of [to_diag]; and for every
    local index [i], [to_diag[to_ord[i]]] is the last local index that
    recorded the same global index as [i] (it is [i] itself exactly when no
    later index records it again). *)
Theorem X2_to_ord_inverts_to_diag_on_its_keys
  (step : list Z -> result (list Z)) (N : Z) (current_j : Q)
  (basis_set : list (list Z)) (to_diag to_ord : dict) :
  create_complete_basis step N current_j = Ok (basis_set, to_diag, to_ord) ->
  let blksize := comb N (spin_ups_of N current_j) in
  (forall g i, dict_get to_diag g = Some i ->
     0 <= i < blksize /\ dict_get to_ord i = Some g) /\
  (forall i, 0 <= i < blksize ->
     exists g i', dict_get to_ord i = Some g /\
                  dict_get to_diag g = Some i' /\ i <= i' < blksize /\
                  dict_get to_ord i' = Some g /\
                  forall j, i' < j < blksize -> dict_get to_ord j <> Some g).
Proof.
  intros H blksize.
  destruct (create_complete_basis_ok_form _ _ _ _ _ _ H) as (_ & Hd & Ho).
  pose proof (comb_nonneg N (spin_ups_of N current_j)) as Hc. fold blksize in Hc.
  revert Hd Ho.
  set (seed0 := list_mul 0 (N - spin_ups_of N current_j)
                ++ list_mul 1 (spin_ups_of N current_j)).
  set (g := fun j => recorded_index (2 ^ N) (iter_step step (S j) seed0)).
  fold blksize. set (m := Z.to_nat blksize). intros Hd Ho.
  assert (Hget : forall j, (j < m)%nat -> dict_get to_ord (Z.of_nat j) = Some (g j)).
  { intros j Hj. rewrite Ho. apply (dict_get_map_some Z.of_nat g).
    - apply in_seq. lia.
    - intros j' _. apply Nat2Z.inj. }
  split.
  - intros k i Hk. rewrite Hd in Hk.
    apply dict_of_get_some in Hk as (j & Hin & Hf & ->). apply in_seq in Hin.
    split; [lia|]. rewrite Hget by lia. f_equal. exact Hf.
  - intros i Hi. assert (Ei : i = Z.of_nat (Z.to_nat i)) by lia.
    assert (Hlt : (Z.to_nat i < m)%nat) by lia.
    revert Ei Hlt. generalize (Z.to_nat i). intros j -> Hj.
    destruct (dict_of_get_last g Z.of_nat m j Hj) as (j' & Hr & Hf & Hg & Hlast).
    exists (g j), (Z.of_nat j'). rewrite Hd.
    split; [apply Hget, Hj|]. split; [exact Hg|]. split; [lia|].
    split; [rewrite Hget by lia; f_equal; exact Hf|].
    intros j2 Hj2. assert (E2 : j2 = Z.of_nat (Z.to_nat j2)) by lia.
    rewrite E2, Hget by lia. intros [= E]. apply (Hlast (Z.to_nat j2)); [lia|exact E].
Qed.

Lemma X2_to_ord_inverts_witness :
  create_complete_basis stuck_step 2 0
  = Ok ([[0; 1]; [0; 1]], [(2, 1)], [(0, 2); (1, 2)]) /\
  (forall g i, dict_get [(2, 1)] g = Some i ->
     0 <= i < comb 2 (spin_ups_of 2 0) /\
     dict_get [(0, 2); (1, 2)] i = Some g).
Proof.
  assert (H : create_complete_basis stuck_step 2 0
              = Ok ([[0; 1]; [0; 1]], [(2, 1)], [(0, 2); (1, 2)])) by reflexivity.
  split; [exact H|].
  exact (proj1 (X2_to_ord_inverts_to_diag_on_its_keys stuck_step 2 0 _ _ _ H)).
Defined.



(** * More on [reorder_basis] *)

(** A pass stops with [KeyError] at the first index that [to_ord] does not
    hold. *)
Lemma rb_pass_keyerror rhs to_ord (val G : Z -> Z) : forall idx psi,
  (forall i, In i idx ->
     rhs i = Ok (val i) /\
     (dict_get to_ord i = None \/
      (dict_get to_ord i = Some (G i) /\ 0 <= G i < Z.of_nat (length psi)))) ->
  (exists i, In i idx /\ dict_get to_ord i = None) ->
  exists psi', rb_pass rhs to_ord psi idx = (psi', Some KeyError).
Proof.
  induction idx as [|i idx IH]; intros psi H (i0 & Hin & Hnone); [contradiction|].
  destruct (H i (or_introl eq_refl)) as (Hr & Hcase).
  cbn [rb_pass]. rewrite Hr. unfold dict_getitem.
  destruct Hcase as [Hn|(Hg & Hrange)].
  - rewrite Hn. eexists. reflexivity.
  - rewrite Hg. unfold np_set, np_index.
    destruct (Z.leb_spec 0 (G i)); [|lia].
    destruct (Z.ltb_spec (G i) (Z.of_nat (length psi))); [|lia].
    cbn [andb bind]. apply IH.
    + intros i' Hi'. rewrite list_update_length. apply H. right. exact Hi'.
    + destruct Hin as [->|Hin]; [congruence|]. exists i0. split; assumption.
Qed.

(** A nonzero entry at a local index outside the sector makes the call end
    with [KeyError], whichever layout the vector has. *)
Lemma reorder_basis_keyerror
  (step : list Z -> result (list Z)) (N : Z) (current_j : Q) (v : list Z) :
  1 <= N -> 0 <= spin_ups_of N current_j <= N ->
  enumeratesb step (Z.to_nat N) (Z.to_nat (spin_ups_of N current_j)) = true ->
  (exists i, comb N (spin_ups_of N current_j) <= i < Z.of_nat (length v) /\
             entry v i <> 0) ->
  reorder_basis step N (Arr1 v) current_j = Raise KeyError /\
  reorder_basis step N (column v) current_j = Raise KeyError.
Proof.
  intros HN Hs Hc (i0 & Hi0 & Hnz0).
  unfold reorder_basis. destruct (Z.ltb_spec N 0) as [|_]; [lia|].
  rewrite create_complete_basis_closed_form by (assumption || lia).
  rewrite comb_binom in Hi0 by assumption.
  revert Hc Hi0.
  set (n := Z.to_nat N). set (k := Z.to_nat (spin_ups_of N current_j)).
  intros Hc Hi0. cbn [bind snd].
  set (to_ord := map (fun j => (Z.of_nat j, sector_index step n k j))
                     (seq 0 (binom n k))).
  set (G := fun i => sector_index step n k (Z.to_nat i)).
  set (psi0 := repeat 0 (Z.to_nat (2 ^ N))).
  assert (Hpow : 2 ^ N = 2 ^ Z.of_nat n) by (unfold n; rewrite Z2Nat.id; lia).
  assert (Hlen0 : Z.of_nat (length psi0) = 2 ^ N).
  { unfold psi0. rewrite repeat_length, Z2Nat.id; [reflexivity|].
    apply Z.pow_nonneg. lia. }
  assert (Hcase : forall i, In i (nonzero0 (Arr1 v)) ->
            0 <= i < Z.of_nat (length v) /\
            (dict_get to_ord i = None \/
             (dict_get to_ord i = Some (G i) /\ 0 <= G i < Z.of_nat (length psi0)))).
  { intros i Hi. apply nonzero0_flat_spec in Hi as [Hr _]. split; [exact Hr|].
    destruct (Z.lt_ge_cases i (Z.of_nat (binom n k))) as [Hlt|Hge].
    - right. assert (Hj : (Z.to_nat i < binom n k)%nat) by lia. split.
      + rewrite <- (Z2Nat.id i) at 1 by lia. apply to_ord_get. exact Hj.
      + rewrite Hlen0, Hpow. apply (sector_index_range step n k Hc _ Hj).
    - left. apply (dict_get_map_none Z.of_nat (sector_index step n k)).
      intros j Hj E. apply in_seq in Hj. lia. }
  assert (Hbad : exists i, In i (nonzero0 (Arr1 v)) /\ dict_get to_ord i = None).
  { exists i0. split; [apply nonzero0_flat_spec; split; [lia|exact Hnz0]|].
    apply (dict_get_map_none Z.of_nat (sector_index step n k)).
    intros j Hj E. apply in_seq in Hj. lia. }
  split.
  - rewrite rb_pass_flat_first.
    destruct (nonzero0 (Arr1 v)) as [|i1 idx] eqn:Eidx;
      [destruct Hbad as (? & [] & _)|].
    rewrite <- Eidx in Hcase, Hbad |- *.
    destruct (rb_pass_keyerror (getitem1 (Arr1 v)) to_ord (entry v) G
                (nonzero0 (Arr1 v)) psi0) as (psi' & ->); [|exact Hbad|reflexivity].
    intros i Hi. destruct (Hcase i Hi) as (Hr & Hd).
    split; [apply getitem1_flat; exact Hr|exact Hd].
  - destruct (rb_pass_keyerror (getitem2 (column v)) to_ord (entry v) G
                (nonzero0 (column v)) psi0) as (psi' & ->);
      [|rewrite nonzero0_column; exact Hbad|reflexivity].
    intros i Hi. rewrite nonzero0_column in Hi. destruct (Hcase i Hi) as (Hr & Hd).
    split; [apply getitem2_column; exact Hr|exact Hd].
Qed.

(** A call that returns was given a vector supported in the sector. *)
Lemma reorder_basis_ok_support
  (step : list Z -> result (list Z)) (N : Z) (current_j : Q) (v psi : list Z) :
  1 <= N -> 0 <= spin_ups_of N current_j <= N ->
  enumeratesb step (Z.to_nat N) (Z.to_nat (spin_ups_of N current_j)) = true ->
  reorder_basis step N (Arr1 v) current_j = Ok psi ->
  forall i, 0 <= i < Z.of_nat (length v) -> entry v i <> 0 ->
            i < comb N (spin_ups_of N current_j).
Proof.
  intros HN Hs Hc Hok i Hi Hnz.
  destruct (Z.lt_ge_cases i (comb N (spin_ups_of N current_j))) as [|Hge];
    [assumption|exfalso].
  destruct (reorder_basis_keyerror step N current_j v HN Hs Hc) as [E _].
  - exists i. split; [lia|exact Hnz].
  - congruence.
Qed.

(** X4. For [N >= 1], [spin_ups] in [0, N] and a permutation step that meets
    its contract on the sector, [reorder_basis] raises [KeyError] exactly
    when the input vector has a nonzero entry at an index [blksize] or
    beyond, for a flat input and for a 2-D column alike: the fallback for
    flat inputs catches [IndexError] only, and nothing checks the length of
    the vector. *)
Theorem X4_reorder_basis_KeyError_beyond_the_sector
  (step : list Z -> result (list Z)) (N : Z) (current_j : Q) (v : list Z) :
  1 <= N -> 0 <= spin_ups_of N current_j <= N ->
  enumeratesb step (Z.to_nat N) (Z.to_nat (spin_ups_of N current_j)) = true ->
  let beyond := exists i, comb N (spin_ups_of N current_j) <= i
                          < Z.of_nat (length v) /\ entry v i <> 0 in
  (reorder_basis step N (Arr1 v) current_j = Raise KeyError <-> beyond) /\
  (reorder_basis step N (column v) current_j = Raise KeyError <-> beyond).
Proof.
  intros HN Hs Hc beyond.
  assert (Hdec : beyond \/
                 forall i, 0 <= i < Z.of_nat (length v) -> entry v i <> 0 ->
                           i < comb N (spin_ups_of N current_j)).
  { destruct (existsb (fun i => comb N (spin_ups_of N current_j) <=? i)
                      (nonzero0 (Arr1 v))) eqn:E.
    - left. apply existsb_exists in E as (i & Hi & Hge).
      apply nonzero0_flat_spec in Hi as [Hr Hnz]. apply Z.leb_le in Hge.
      exists i. split; [lia|exact Hnz].
    - right. intros i Hr Hnz.
      destruct (Z.lt_ge_cases i (comb N (spin_ups_of N current_j))) as [|Hge];
        [assumption|exfalso].
      assert (Hin : In i (nonzero0 (Arr1 v)))
        by (apply nonzero0_flat_spec; split; assumption).
      assert (Ht : existsb (fun i => comb N (spin_ups_of N current_j) <=? i)
                           (nonzero0 (Arr1 v)) = true).
      { apply existsb_exists. exists i. split; [exact Hin|]. apply Z.leb_le. lia. }
      congruence. }
  destruct Hdec as [Hb|Hsup].
  - destruct (reorder_basis_keyerror step N current_j v HN Hs Hc Hb) as [E1 E2].
    split; split; intros _; assumption.
  - destruct (reorder_basis_entries step N current_j v HN Hs Hc Hsup)
      as (psi & E1 & E2 & _).
    assert (Hno : ~ beyond).
    { intros (i & Hi & Hnz).
      pose proof (comb_nonneg N (spin_ups_of N current_j)) as Hcn.
      assert (Hr : 0 <= i < Z.of_nat (length v)) by lia.
      specialize (Hsup i Hr Hnz). lia. }
    rewrite E1, E2. split; split; intros H; (discriminate || contradiction).
Qed.

Lemma X4_reorder_basis_KeyError_witness :
  (1 <= 3 /\ 0 <= spin_ups_of 3 (1 # 2) <= 3 /\
   enumeratesb cyclic_permutation (Z.to_nat 3)
     (Z.to_nat (spin_ups_of 3 (1 # 2))) = true /\
   comb 3 (spin_ups_of 3 (1 # 2)) <= 3 < Z.of_nat (length [5; 0; 7; 9]) /\
   entry [5; 0; 7; 9] 3 <> 0) /\
  reorder_basis cyclic_permutation 3 (Arr1 [5; 0; 7; 9]) (1 # 2) = Raise KeyError /\
  reorder_basis cyclic_permutation 3 (column [5; 0; 7; 9]) (1 # 2) = Raise KeyError.
Proof.
  assert (H1 : 1 <= 3) by lia.
  assert (H2 : 0 <= spin_ups_of 3 (1 # 2) <= 3) by (vm_compute; split; discriminate).
  assert (H3 : enumeratesb cyclic_permutation (Z.to_nat 3)
                 (Z.to_nat (spin_ups_of 3 (1 # 2))) = true) by (vm_compute; reflexivity).
  assert (H4 : comb 3 (spin_ups_of 3 (1 # 2)) <= 3 < Z.of_nat (length [5; 0; 7; 9]))
    by (vm_compute; split; [discriminate|reflexivity]).
  assert (H5 : entry [5; 0; 7; 9] 3 <> 0) by (vm_compute; discriminate).
  split; [repeat split; try assumption; try apply H2; apply H4|].
  destruct (X4_reorder_basis_KeyError_beyond_the_sector cyclic_permutation 3
              (1 # 2) [5; 0; 7; 9] H1 H2 H3) as [Hflat Hcol].
  split; [apply Hflat|apply Hcol]; exists 3; split; assumption.
Defined.

Lemma entry_vec_add v w g :
  length v = length w -> entry (vec_add v w) g = entry v g + entry w g.
Proof.
  unfold entry, vec_add. generalize (Z.to_nat g). clear g.
  revert w. induction v as [|x v IH]; intros [|y w] p Hlen; try discriminate.
  - destruct p; reflexivity.
  - destruct p as [|p]; [reflexivity|]. cbn [combine map nth]. apply IH.
    injection Hlen as Hlen. exact Hlen.
Qed.

Lemma entry_vec_scale a v g : entry (vec_scale a v) g = a * entry v g.
Proof.
  unfold entry, vec_scale. generalize (Z.to_nat g). clear g.
  induction v as [|x v IH]; intros [|p]; cbn [map nth]; try lia. apply IH.
Qed.

Lemma vec_add_length v w : length v = length w -> length (vec_add v w) = length v.
Proof.
  intros H. unfold vec_add. rewrite length_map, length_combine, H. apply Nat.min_id.
Qed.

Lemma vec_scale_length a v : length (vec_scale a v) = length v.
Proof. apply length_map. Qed.



Lemma nonzero0_all_zero v :
  (forall i, 0 <= i < Z.of_nat (length v) -> entry v i = 0) ->
  nonzero0 (Arr1 v) = [].
Proof.
  intros Hz. destruct (nonzero0 (Arr1 v)) as [|i idx] eqn:E; [reflexivity|].
  assert (Hin : In i (nonzero0 (Arr1 v))) by (rewrite E; left; reflexivity).
  apply nonzero0_flat_spec in Hin as [Hr Hnz]. exfalso. apply Hnz, Hz, Hr.
Qed.

(** X6. [reorder_basis] consults [create_complete_basis] before it looks at
    the vector.  For [N >= 1] and any permutation step: an exception of
    [create_complete_basis] is the exception of [reorder_basis], whatever the
    vector; and when [create_complete_basis] returns, a vector with no
    nonzero entry (the empty one, or zeros of any length, flat or as a 2-D
    column) gives the zero vector of length [2^N]: the length of the input is
    never compared with the size of the sector. *)
Theorem X6_reorder_basis_zero_vector_and_failures
  (step : list Z -> result (list Z)) (N : Z) (current_j : Q) :
  1 <= N ->
  (forall e psi_diag,
     create_complete_basis step N current_j = Raise e ->
     reorder_basis step N psi_diag current_j = Raise e) /\
  (forall r v,
     create_complete_basis step N current_j = Ok r ->
     (forall i, 0 <= i < Z.of_nat (length v) -> entry v i = 0) ->
     reorder_basis step N (Arr1 v) current_j = Ok (repeat 0 (Z.to_nat (2 ^ N))) /\
     reorder_basis step N (column v) current_j = Ok (repeat 0 (Z.to_nat (2 ^ N)))).
Proof.
  intros HN. unfold reorder_basis. destruct (Z.ltb_spec N 0) as [|_]; [lia|].
  split.
  - intros e psi_diag ->. reflexivity.
  - intros r v -> Hz. cbn [bind]. rewrite nonzero0_column.
    rewrite (nonzero0_all_zero v Hz). split; reflexivity.
Qed.

Lemma X6_reorder_basis_zero_vector_witness :
  1 <= 2 /\
  reorder_basis failing_step 2 (Arr1 [5; 7]) 0 = Raise ValueError /\
  reorder_basis stuck_step 2 (Arr1 [0; 0; 0; 0; 0]) 0 = Ok [0; 0; 0; 0] /\
  reorder_basis stuck_step 2 (column []) 0 = Ok [0; 0; 0; 0].
Proof.
  assert (H1 : 1 <= 2) by lia.
  destruct (X6_reorder_basis_zero_vector_and_failures failing_step 2 0 H1)
    as [Hfail _].
  destruct (X6_reorder_basis_zero_vector_and_failures stuck_step 2 0 H1)
    as [_ Hzero].
  split; [exact H1|]. split; [apply Hfail; reflexivity|]. split.
  - apply (Hzero ([[0; 1]; [0; 1]], [(2, 1)], [(0, 2); (1, 2)]) [0; 0; 0; 0; 0]).
    + reflexivity.
    + intros i Hi. cbn [length Z.of_nat] in Hi.
      assert (Hc : i = 0 \/ i = 1 \/ i = 2 \/ i = 3 \/ i = 4) by lia.
      destruct Hc as [->|[->|[->|[->| ->]]]]; reflexivity.
  - apply (Hzero ([[0; 1]; [0; 1]], [(2, 1)], [(0, 2); (1, 2)]) []).
    + reflexivity.
    + intros i Hi. cbn [length Z.of_nat] in Hi. lia.
Defined.

(** * The blocks of [similarity_trans_matrix] *)

Lemma sector_cols_prefix step n t : forall d,
  exists rest, sector_cols step n (t + d) = sector_cols step n t ++ rest.
Proof.
  induction d as [|d (rest & IH)].
  - exists []. rewrite Nat.add_0_r, app_nil_r. reflexivity.
  - rewrite Nat.add_succ_r, sector_cols_S, IH. eexists. rewrite <- app_assoc.
    reflexivity.
Qed.

(** The column written at position [i] of the block of the sector of rank [t]
    is the global index that sector gives to its local index [i]. *)
Lemma col_at_block step n t i :
  (t <= n)%nat -> (i < binom n (n - t))%nat ->
  col_at step n (sector_offset n t + i) = sector_index step n (n - t) i.
Proof.
  intros Ht Hi. unfold col_at.
  destruct (sector_cols_prefix step n (S t) (n - t)) as (rest & E).
  replace (S t + (n - t))%nat with (S n) in E by lia.
  rewrite E, sector_cols_S, <- app_assoc.
  rewrite app_nth2 by (rewrite sector_cols_length; lia).
  rewrite sector_cols_length.
  replace (sector_offset n t + i - sector_offset n t)%nat with i by lia.
  rewrite app_nth1 by (rewrite length_map, length_seq; exact Hi).
  rewrite (nth_indep _ 0 (sector_index step n (n - t) 0))
    by (rewrite length_map, length_seq; exact Hi).
  rewrite map_nth, seq_nth by exact Hi. reflexivity.
Qed.

(** Every position lies in the block of one sector. *)
Lemma block_of_position n p : forall T,
  (p < sector_offset n T)%nat ->
  exists t i, (t < T)%nat /\ (i < binom n (n - t))%nat /\
              p = (sector_offset n t + i)%nat.
Proof.
  induction T as [|T IH]; intros Hp; [cbn in Hp; lia|].
  rewrite sector_offset_S in Hp.
  destruct (Nat.lt_ge_cases p (sector_offset n T)) as [Hlt|Hge].
  - destruct (IH Hlt) as (t & i & Ht & Hi & E). exists t, i.
    repeat split; [lia|assumption..].
  - exists T, (p - sector_offset n T)%nat. repeat split; lia.
Qed.

(** The blocks do not overlap. *)
Lemma block_unique n t t0 i :
  (i < binom n (n - t))%nat ->
  (sector_offset n t0 <= sector_offset n t + i < sector_offset n (S t0))%nat ->
  t = t0.
Proof.
  intros Hi [Hlo Hhi].
  destruct (Nat.lt_trichotomy t t0) as [Hlt|[E|Hgt]]; [exfalso|exact E|exfalso].
  - pose proof (sector_offset_le n (S t) t0 ltac:(lia)) as H.
    rewrite sector_offset_S in H. lia.
  - pose proof (sector_offset_le n (S t0) t ltac:(lia)) as H. lia.
Qed.

Lemma block_offset_sector N s :
  0 <= s <= N ->
  block_offset N s = Z.of_nat (sector_offset (Z.to_nat N) (Z.to_nat N - Z.to_nat s)).
Proof.
  intros Hs. unfold block_offset, zsum, range, sector_offset.
  replace (Z.to_nat (N - s)) with (Z.to_nat N - Z.to_nat s)%nat by lia.
  assert (Hle : (Z.to_nat N - Z.to_nat s <= Z.to_nat N)%nat) by lia.
  revert Hle. generalize (Z.to_nat N - Z.to_nat s)%nat. intros m.
  induction m as [|m IH]; intros Hm; [reflexivity|].
  rewrite seq_S, !map_app, fold_right_app, list_sum_app. cbn [map fold_right list_sum Nat.add].
  specialize (IH ltac:(lia)).
  rewrite Nat2Z.inj_add, <- IH.
  rewrite (comb_binom N (N - Z.of_nat m)) by lia.
  replace (Z.to_nat (N - Z.of_nat m)) with (Z.to_nat N - m)%nat by lia.
  rewrite Nat.add_0_r, Z.add_0_r.
  generalize (Z.of_nat (binom (Z.to_nat N) (Z.to_nat N - m))). intros b.
  generalize (map Z.of_nat (seq 0 m)). intros l.
  induction l as [|x l IHl]; cbn [fold_right]; [lia|]. rewrite IHl. lia.
Qed.

(** A lookup in [to_ord] that succeeds is the lookup of a local index. *)
Lemma to_ord_get_inv step n k i g :
  dict_get (map (fun j => (Z.of_nat j, sector_index step n k j))
                (seq 0 (binom n k))) i = Some g ->
  0 <= i < Z.of_nat (binom n k) /\ g = sector_index step n k (Z.to_nat i).
Proof.
  intros H.
  destruct (Z.lt_ge_cases i 0) as [Hneg|Hpos];
    [|destruct (Z.lt_ge_cases i (Z.of_nat (binom n k))) as [Hlt|Hge]].
  - rewrite (dict_get_map_none Z.of_nat (sector_index step n k)) in H;
      [discriminate|]. intros j _. lia.
  - split; [lia|]. rewrite <- (Z2Nat.id i) in H at 1 by lia.
    rewrite to_ord_get in H by lia. congruence.
  - rewrite (dict_get_map_none Z.of_nat (sector_index step n k)) in H;
      [discriminate|]. intros j Hj. apply in_seq in Hj. lia.
Qed.



Lemma entry_map_range (f : Z -> Z) m r :
  0 <= r < m -> entry (map f (range m)) r = f r.
Proof.
  intros Hr. unfold entry, range. rewrite map_map.
  rewrite (nth_indep _ 0 (f (Z.of_nat 0)))
    by (rewrite length_map, length_seq; lia).
  rewrite (map_nth (fun x => f (Z.of_nat x))), seq_nth by lia.
  f_equal. lia.
Qed.



(** * Products of the matrices of [full_matrix] *)

Module MatAlg.
Import Mat.

Lemma fold_sum_last (f : Z -> Z) x : forall l,
  fold_right (fun t acc => f t + acc) 0 (l ++ [x])
  = fold_right (fun t acc => f t + acc) 0 l + f x.
Proof.
  induction l as [|y l IH]; cbn [app fold_right]; [lia|]. rewrite IH. lia.
Qed.

Lemma zsum_S f n : 0 <= n -> zsum f (n + 1) = zsum f n + f n.
Proof.
  intros Hn. unfold zsum, range.
  replace (Z.to_nat (n + 1)) with (S (Z.to_nat n)) by lia.
  rewrite seq_S, map_app. cbn [map Nat.add]. rewrite fold_sum_last.
  rewrite Z2Nat.id by exact Hn. reflexivity.
Qed.

Lemma zsum_nonpos f n : n <= 0 -> zsum f n = 0.
Proof.
  intros Hn. unfold zsum, range.
  replace (Z.to_nat n) with 0%nat by lia. reflexivity.
Qed.

Lemma zsum_ext f g n :
  (forall t, 0 <= t < n -> f t = g t) -> zsum f n = zsum g n.
Proof.
  destruct (Z.le_gt_cases 0 n) as [Hn|Hn];
    [|intros _; rewrite !zsum_nonpos by lia; reflexivity].
  revert f g. pattern n. apply natlike_ind; [reflexivity| |exact Hn].
  clear n Hn. intros n Hn IH f g H. unfold Z.succ.
  rewrite !zsum_S by exact Hn.
  rewrite (IH f g) by (intros t Ht; apply H; lia).
  rewrite H by lia. reflexivity.
Qed.

Lemma zsum_mul_l c f n : zsum (fun t => c * f t) n = c * zsum f n.
Proof.
  destruct (Z.le_gt_cases 0 n) as [Hn|Hn];
    [|rewrite !zsum_nonpos by lia; lia].
  pattern n. apply natlike_ind; [cbn; lia| |exact Hn].
  clear n Hn. intros n Hn IH. unfold Z.succ. rewrite !zsum_S, IH by exact Hn. lia.
Qed.

Lemma zsum_mul_r c f n : zsum (fun t => f t * c) n = zsum f n * c.
Proof.
  rewrite (zsum_ext _ (fun t => c * f t)) by (intros; lia).
  rewrite zsum_mul_l. lia.
Qed.

Lemma zsum_shift f m n :
  0 <= m -> 0 <= n ->
  zsum f (m + n) = zsum f m + zsum (fun y => f (m + y)) n.
Proof.
  intros Hm Hn. pattern n. apply natlike_ind; [|clear n Hn|exact Hn].
  - rewrite Z.add_0_r. cbn. lia.
  - intros n Hn IH. unfold Z.succ. rewrite Z.add_assoc.
    rewrite !zsum_S, IH by lia. lia.
Qed.

(** A sum over [range(a * b)] is a double sum over quotient and remainder. *)
Lemma zsum_kron (F : Z -> Z -> Z) a b :
  0 <= a -> 0 < b ->
  zsum (fun t => F (t / b) (t mod b)) (a * b)
  = zsum (fun x => zsum (fun y => F x y) b) a.
Proof.
  intros Ha Hb. pattern a. apply natlike_ind; [reflexivity| |exact Ha].
  clear a Ha. intros a Ha IH. unfold Z.succ.
  rewrite zsum_S by exact Ha. rewrite <- IH.
  replace ((a + 1) * b) with (a * b + b) by lia.
  rewrite zsum_shift by nia. f_equal.
  apply zsum_ext. intros y Hy.
  replace (a * b + y) with (y + a * b) by lia.
  rewrite Z.div_add, Z.mod_add by lia.
  rewrite Z.div_small, Z.mod_small by lia. reflexivity.
Qed.

Lemma mat_mul_eqm A A' B B' :
  ncols A = nrows B -> A ==m A' -> B ==m B' ->
  mat_mul A B ==m mat_mul A' B'.
Proof.
  intros Hab (Hr & Hc & He) (Hr' & Hc' & He').
  unfold mat_mul. split; [exact Hr|]. split; [exact Hc'|].
  cbn [nrows ncols get]. intros i j Hi Hj. rewrite <- Hc.
  apply zsum_ext. intros t Ht.
  rewrite He by assumption. rewrite He' by (assumption || lia). reflexivity.
Qed.

Lemma mat_mul_eye_l n A : nrows A = n -> mat_mul (eye n) A ==m A.
Proof.
  intros Hn. unfold mat_mul, eye. cbn [nrows ncols get].
  split; [symmetry; exact Hn|]. split; [reflexivity|].
  cbn [nrows ncols get]. intros i j Hi Hj.
  rewrite (zsum_single _ n i Hi).
  - rewrite Z.eqb_refl. lia.
  - intros t Ht Hne. destruct (Z.eqb_spec i t); [congruence|lia].
Qed.

Lemma mat_mul_eye_r n A : ncols A = n -> mat_mul A (eye n) ==m A.
Proof.
  intros Hn. unfold mat_mul, eye. cbn [nrows ncols get].
  split; [reflexivity|]. split; [symmetry; exact Hn|].
  cbn [nrows ncols get]. intros i j Hi Hj. rewrite Hn.
  rewrite (zsum_single _ n j ltac:(lia)).
  - rewrite Z.eqb_refl. lia.
  - intros t Ht Hne. destruct (Z.eqb_spec t j); [congruence|lia].
Qed.

(** The mixed-product rule: a product of Kronecker products is the Kronecker
    product of the products. *)
Lemma kron_mixed A B C D :
  ncols A = nrows C -> ncols B = nrows D ->
  0 <= ncols A -> 0 <= ncols B ->
  mat_mul (kron A B) (kron C D) ==m kron (mat_mul A C) (mat_mul B D).
Proof.
  intros HAC HBD HcA HcB.
  split; [reflexivity|]. split; [reflexivity|].
  unfold mat_mul, kron. cbn [nrows ncols get]. intros i j Hi Hj.
  rewrite <- HBD.
  destruct (Z.eq_dec (ncols B) 0) as [E0|Hne].
  - rewrite E0, Z.mul_0_r. rewrite (zsum_nonpos _ 0) by lia.
    rewrite (zsum_nonpos (fun t => get B (i mod nrows B) t
                                   * get D t (j mod ncols D)) 0) by lia.
    lia.
  - pose (F := fun x y => (get A (i / nrows B) x * get C x (j / ncols D))
                          * (get B (i mod nrows B) y * get D y (j mod ncols D))).
    rewrite (zsum_ext _ (fun t => F (t / ncols B) (t mod ncols B)))
      by (intros t Ht; unfold F; ring).
    rewrite (zsum_kron F (ncols A) (ncols B)) by lia. unfold F.
    rewrite (zsum_ext _ (fun x =>
       (get A (i / nrows B) x * get C x (j / ncols D))
       * zsum (fun y => get B (i mod nrows B) y * get D y (j mod ncols D))
              (ncols B)))
      by (intros x Hx; apply zsum_mul_l).
    apply zsum_mul_r.
Qed.

(** The Kronecker product is associative. *)
Lemma kron_assoc A B C :
  0 <= nrows B -> 0 <= ncols B -> 0 <= nrows C -> 0 <= ncols C ->
  kron (kron A B) C ==m kron A (kron B C).
Proof.
  intros HrB HcB HrC HcC. unfold kron. cbn [nrows ncols get].
  split; [cbn [nrows]; ring|]. split; [cbn [ncols]; ring|].
  cbn [nrows ncols get]. intros i j Hi Hj.
  assert (Hdm : forall x b c, 0 <= x -> 0 < b -> 0 < c ->
            x / c / b = x / (b * c) /\
            (x / c) mod b = x mod (b * c) / c /\
            x mod c = x mod (b * c) mod c).
  { intros x b c Hx Hb Hc.
    assert (E : x mod (b * c) = x mod c + c * ((x / c) mod b))
      by (rewrite (Z.mul_comm b c); apply Z.rem_mul_r; lia).
    pose proof (Z.mod_pos_bound x c Hc).
    pose proof (Z.mod_pos_bound (x / c) b Hb).
    split; [rewrite (Z.mul_comm b c); apply Z.div_div; lia|]. split.
    - rewrite E. rewrite (Z.mul_comm c), Z.div_add by lia.
      rewrite (Z.div_small (x mod c) c) by lia. lia.
    - rewrite E. rewrite (Z.mul_comm c), Z.mod_add by lia.
      symmetry. apply Z.mod_small. lia. }
  assert (0 < nrows B)
    by (destruct (Z.eq_dec (nrows B) 0) as [E|]; [rewrite E in Hi|]; lia).
  assert (0 < nrows C)
    by (destruct (Z.eq_dec (nrows C) 0) as [E|]; [rewrite E in Hi|]; lia).
  assert (0 < ncols B)
    by (destruct (Z.eq_dec (ncols B) 0) as [E|]; [rewrite E in Hj|]; lia).
  assert (0 < ncols C)
    by (destruct (Z.eq_dec (ncols C) 0) as [E|]; [rewrite E in Hj|]; lia).
  destruct (Hdm i (nrows B) (nrows C)) as (-> & -> & <-); try lia.
  destruct (Hdm j (ncols B) (ncols C)) as (-> & -> & <-); lia.
Qed.

End MatAlg.

(** * [full_matrix] on operands of any shape, entry by entry, and under
      products *)

(** The Kronecker product that [full_matrix] returns, for an operand of any
    shape. *)
Lemma full_matrix_embed_any op k N M :
  0 <= Mat.nrows op -> 0 <= Mat.ncols op -> 0 <= k < N ->
  full_matrix op k N = Ok M ->
  M ==m Mat.kron (Mat.kron (Mat.eye (2 ^ k)) op) (Mat.eye (2 ^ (N - k - 1))).
Proof.
  intros Hr Hc Hk HM. rewrite full_matrix_value in HM by assumption.
  injection HM as <-.
  assert (Hp : 0 <= 2 ^ (N - k - 1)) by (apply Z.pow_nonneg; lia).
  destruct (Z.eqb_spec k 0) as [->|Hk0].
  - replace (N - 0 - 1) with (N - 1) by lia.
    apply MatFacts.kron_eqm; simpl; try (apply Z.pow_nonneg; lia).
    + apply MatFacts.eqm_sym. change (2 ^ 0) with 1. apply MatFacts.kron_eye1_l.
    + apply MatFacts.eqm_refl.
  - destruct (Z.eqb_spec k 1) as [->|Hk1].
    + replace (N - 1 - 1) with (N - 2) by lia.
      change (2 ^ 1) with 2. apply MatFacts.eqm_refl.
    + apply MatFacts.kron_eqm; simpl; try assumption; [|apply MatFacts.eqm_refl].
      apply MatFacts.kron_eqm; try lia; [|apply MatFacts.eqm_refl].
      replace (2 ^ k) with (2 * 2 ^ (k - 1))
        by (rewrite <- Z.pow_succ_r by lia; f_equal; lia).
      apply MatFacts.eye_kron_eye.
Qed.

Lemma pow2_split a b : 0 <= a -> 0 <= b -> 2 ^ (a + b) = 2 ^ a * 2 ^ b.
Proof. intros. apply Z.pow_add_r; assumption. Qed.

Lemma pow2_pos a : 0 <= a -> 0 < 2 ^ a.
Proof. intros. apply Z.pow_pos_nonneg; lia. Qed.

(** X9. [full_matrix] does not look at the shape of its operand: for an
    operand with [r] rows and [c] columns and a site [0 <= k < N] it returns
    the Kronecker product of the [2^k] identity, the operand and the
    [2^(N-k-1)] identity, a matrix with [2^(N-1) * r] rows and
    [2^(N-1) * c] columns.  A one-site state given as a 2 x 1 column thus
    yields a [2^N] x [2^(N-1)] matrix. *)
Theorem X9_full_matrix_any_operand_shape (op : Mat.matrix) (k N : Z) :
  0 <= Mat.nrows op -> 0 <= Mat.ncols op -> 0 <= k < N ->
  exists M,
    full_matrix op k N = Ok M /\
    M ==m Mat.kron (Mat.kron (Mat.eye (2 ^ k)) op) (Mat.eye (2 ^ (N - k - 1))) /\
    Mat.nrows M = 2 ^ (N - 1) * Mat.nrows op /\
    Mat.ncols M = 2 ^ (N - 1) * Mat.ncols op /\
    (Mat.nrows op = 2 -> Mat.ncols op = 1 ->
     Mat.nrows M = 2 ^ N /\ Mat.ncols M = 2 ^ (N - 1)).
Proof.
  intros Hr Hc Hk.
  destruct (full_matrix op k N) as [M|e] eqn:HM;
    [|rewrite full_matrix_value in HM by assumption; discriminate].
  exists M. split; [reflexivity|].
  pose proof (full_matrix_embed_any op k N M Hr Hc Hk HM) as HE.
  split; [exact HE|].
  destruct HE as (Hrows & Hcols & _). cbn [Mat.kron Mat.eye Mat.nrows Mat.ncols] in Hrows, Hcols.
  assert (Hpow : 2 ^ (N - 1) = 2 ^ k * 2 ^ (N - k - 1))
    by (rewrite <- pow2_split by lia; f_equal; lia).
  assert (Hrows' : Mat.nrows M = 2 ^ (N - 1) * Mat.nrows op)
    by (rewrite Hrows, Hpow; ring).
  assert (Hcols' : Mat.ncols M = 2 ^ (N - 1) * Mat.ncols op)
    by (rewrite Hcols, Hpow; ring).
  split; [exact Hrows'|]. split; [exact Hcols'|].
  intros E2 E1. rewrite Hrows', Hcols', E2, E1. split; [|lia].
  replace N with (N - 1 + 1) at 2 by lia.
  rewrite pow2_split by lia. reflexivity.
Qed.

Lemma X9_full_matrix_any_operand_witness :
  (0 <= Mat.nrows spin_up /\ 0 <= Mat.ncols spin_up /\ 0 <= 1 < 3) /\
  exists M,
    full_matrix spin_up 1 3 = Ok M /\ Mat.nrows M = 8 /\ Mat.ncols M = 4.
Proof.
  assert (H1 : 0 <= Mat.nrows spin_up) by (cbn; lia).
  assert (H2 : 0 <= Mat.ncols spin_up) by (cbn; lia).
  assert (H3 : 0 <= 1 < 3) by lia.
  split; [repeat split; try assumption; lia|].
  destruct (X9_full_matrix_any_operand_shape spin_up 1 3 H1 H2 H3)
    as (M & HM & _ & _ & _ & Hcol).
  exists M. split; [exact HM|]. apply Hcol; reflexivity.
Defined.

(** X10. [full_matrix] acts on site [k] only: for a 2 x 2 operator and
    [0 <= k < N], the entry of the result at row [i], column [j] is the
    operator's entry at the states of site [k] in [i] and in [j] when [i] and
    [j] agree on every other site (on the digits above and on the digits
    below site [k]'s), and zero otherwise. *)
Theorem X10_full_matrix_acts_on_site_k_only
  (op : Mat.matrix) (k N : Z) (M : Mat.matrix) :
  Mat.is_2x2 op -> 0 <= k < N -> full_matrix op k N = Ok M ->
  forall i j, 0 <= i < 2 ^ N -> 0 <= j < 2 ^ N ->
    Mat.get M i j
    = if (i / 2 ^ (N - k) =? j / 2 ^ (N - k))
         && (i mod 2 ^ (N - k - 1) =? j mod 2 ^ (N - k - 1))
      then Mat.get op (site_bit N k i) (site_bit N k j)
      else 0.
Proof.
  intros [Hr Hc] Hk HM i j Hi Hj.
  destruct (full_matrix_embed_any op k N M ltac:(lia) ltac:(lia) Hk HM)
    as (Hrows & Hcols & Hget).
  cbn [Mat.kron Mat.eye Mat.nrows Mat.ncols] in Hrows, Hcols.
  assert (HN : 2 ^ N = 2 ^ k * 2 * 2 ^ (N - k - 1)).
  { replace N with (k + 1 + (N - k - 1)) at 1 by lia.
    rewrite !pow2_split by lia. reflexivity. }
  rewrite Hget by (rewrite ?Hrows, ?Hcols, ?Hr, ?Hc, <- HN; assumption).
  cbn [Mat.kron Mat.eye Mat.nrows Mat.ncols Mat.get]. rewrite Hr, Hc.
  pose proof (pow2_pos (N - k - 1) ltac:(lia)) as He.
  assert (Hdd : forall x, x / 2 ^ (N - k - 1) / 2 = x / 2 ^ (N - k)).
  { intros x. rewrite Z.div_div by lia. f_equal.
    rewrite Z.mul_comm, <- Z.pow_succ_r by lia. f_equal. lia. }
  rewrite !Hdd. unfold site_bit.
  destruct (i / 2 ^ (N - k) =? j / 2 ^ (N - k));
    destruct (i mod 2 ^ (N - k - 1) =? j mod 2 ^ (N - k - 1));
    cbn [andb]; lia.
Qed.

Lemma X10_full_matrix_site_witness :
  (Mat.is_2x2 sigma_x /\ 0 <= 1 < 3 /\ (0 <= 2 < 2 ^ 3) /\ (0 <= 0 < 2 ^ 3)) /\
  exists M, full_matrix sigma_x 1 3 = Ok M /\ Mat.get M 2 0 = 1.
Proof.
  assert (H1 : Mat.is_2x2 sigma_x) by (split; reflexivity).
  assert (H2 : 0 <= 1 < 3) by lia.
  assert (H3 : 0 <= 2 < 2 ^ 3) by (cbn; lia).
  assert (H4 : 0 <= 0 < 2 ^ 3) by (cbn; lia).
  split; [repeat split; try assumption; lia|].
  destruct (full_matrix sigma_x 1 3) as [M|e] eqn:HM; [|discriminate].
  exists M. split; [reflexivity|].
  rewrite (X10_full_matrix_acts_on_site_k_only sigma_x 1 3 M H1 H2 HM 2 0 H3 H4).
  reflexivity.
Defined.

(** X11. [full_matrix] is multiplicative: for 2 x 2 operators [A] and [B] and
    a site [0 <= k < N], the calls for [A], for [B] and for the product
    [A B] all return, and the matrix for [A B] is the product of the matrices
    for [A] and for [B]. *)
Theorem X11_full_matrix_is_multiplicative (A B : Mat.matrix) (k N : Z) :
  Mat.is_2x2 A -> Mat.is_2x2 B -> 0 <= k < N ->
  exists MA MB MAB,
    full_matrix A k N = Ok MA /\
    full_matrix B k N = Ok MB /\
    full_matrix (mat_mul A B) k N = Ok MAB /\
    MAB ==m mat_mul MA MB.
Proof.
  intros [HrA HcA] [HrB HcB] Hk.
  destruct (full_matrix A k N) as [MA|?] eqn:EA;
    [|rewrite full_matrix_value in EA by assumption; discriminate].
  destruct (full_matrix B k N) as [MB|?] eqn:EB;
    [|rewrite full_matrix_value in EB by assumption; discriminate].
  destruct (full_matrix (mat_mul A B) k N) as [MAB|?] eqn:EAB;
    [|rewrite full_matrix_value in EAB by assumption; discriminate].
  exists MA, MB, MAB. repeat (split; [reflexivity|]).
  pose proof (pow2_pos k ltac:(lia)) as Ha.
  pose proof (pow2_pos (N - k - 1) ltac:(lia)) as He.
  pose proof (full_matrix_embed_any A k N MA ltac:(lia) ltac:(lia) Hk EA) as HA.
  pose proof (full_matrix_embed_any B k N MB ltac:(lia) ltac:(lia) Hk EB) as HB.
  assert (HAB : MAB ==m Mat.kron (Mat.kron (Mat.eye (2 ^ k)) (mat_mul A B))
                                 (Mat.eye (2 ^ (N - k - 1)))).
  { apply full_matrix_embed_any; try assumption; cbn [mat_mul Mat.nrows Mat.ncols]; lia. }
  eapply MatFacts.eqm_trans; [exact HAB|]. apply MatFacts.eqm_sym.
  eapply MatFacts.eqm_trans.
  { apply MatAlg.mat_mul_eqm; [|exact HA|exact HB].
    destruct HA as (_ & -> & _). destruct HB as (-> & _).
    cbn [Mat.kron Mat.eye Mat.nrows Mat.ncols]. rewrite HcA, HrB. reflexivity. }
  eapply MatFacts.eqm_trans.
  { apply MatAlg.kron_mixed; cbn [Mat.kron Mat.eye Mat.nrows Mat.ncols];
      rewrite ?HcA, ?HrB; lia. }
  apply MatFacts.kron_eqm.
  - cbn [mat_mul Mat.eye Mat.nrows]. lia.
  - cbn [mat_mul Mat.eye Mat.ncols]. lia.
  - eapply MatFacts.eqm_trans.
    { apply MatAlg.kron_mixed; cbn [Mat.kron Mat.eye Mat.nrows Mat.ncols];
        rewrite ?HcA, ?HrB; lia. }
    apply MatFacts.kron_eqm.
    + cbn [mat_mul Mat.nrows]. lia.
    + cbn [mat_mul Mat.ncols]. lia.
    + apply MatAlg.mat_mul_eye_l. reflexivity.
    + apply MatFacts.eqm_refl.
  - apply MatAlg.mat_mul_eye_l. reflexivity.
Qed.

Lemma X11_full_matrix_multiplicative_witness :
  (Mat.is_2x2 sigma_x /\ Mat.is_2x2 sigma_z /\ 0 <= 1 < 3) /\
  exists MA MB MAB,
    full_matrix sigma_x 1 3 = Ok MA /\
    full_matrix sigma_z 1 3 = Ok MB /\
    full_matrix (mat_mul sigma_x sigma_z) 1 3 = Ok MAB /\
    MAB ==m mat_mul MA MB.
Proof.
  assert (H1 : Mat.is_2x2 sigma_x) by (split; reflexivity).
  assert (H2 : Mat.is_2x2 sigma_z) by (split; reflexivity).
  assert (H3 : 0 <= 1 < 3) by lia.
  split; [repeat split; try assumption; lia|].
  exact (X11_full_matrix_is_multiplicative sigma_x sigma_z 1 3 H1 H2 H3).
Defined.

(** A matrix acting on the left factor commutes with one acting on the right
    factor. *)
Lemma kron_factors_commute P R p r :
  Mat.nrows P = p -> Mat.ncols P = p -> Mat.nrows R = r -> Mat.ncols R = r ->
  0 <= p -> 0 <= r ->
  mat_mul (Mat.kron P (Mat.eye r)) (Mat.kron (Mat.eye p) R)
  ==m mat_mul (Mat.kron (Mat.eye p) R) (Mat.kron P (Mat.eye r)).
Proof.
  intros HrP HcP HrR HcR Hp Hr.
  apply (MatFacts.eqm_trans _ (Mat.kron P R)).
  - eapply MatFacts.eqm_trans.
    { apply MatAlg.kron_mixed; cbn [Mat.eye Mat.nrows Mat.ncols]; lia. }
    apply MatFacts.kron_eqm.
    + cbn [mat_mul Mat.eye Mat.nrows]. lia.
    + cbn [mat_mul Mat.ncols]. lia.
    + apply MatAlg.mat_mul_eye_r. exact HcP.
    + apply MatAlg.mat_mul_eye_l. exact HrR.
  - apply MatFacts.eqm_sym. eapply MatFacts.eqm_trans.
    { apply MatAlg.kron_mixed; cbn [Mat.eye Mat.nrows Mat.ncols]; lia. }
    apply MatFacts.kron_eqm.
    + cbn [mat_mul Mat.nrows]. lia.
    + cbn [mat_mul Mat.eye Mat.ncols]. lia.
    + apply MatAlg.mat_mul_eye_l. exact HrP.
    + apply MatAlg.mat_mul_eye_r. exact HcR.
Qed.

(** Operators embedded at an earlier and at a later site commute. *)
Lemma full_matrix_sites_commute_lt A B k l N MA MB :
  Mat.is_2x2 A -> Mat.is_2x2 B -> 0 <= k -> k < l -> l < N ->
  full_matrix A k N = Ok MA -> full_matrix B l N = Ok MB ->
  mat_mul MA MB ==m mat_mul MB MA.
Proof.
  intros [HrA HcA] [HrB HcB] Hk Hkl Hl EA EB.
  pose proof (pow2_pos k ltac:(lia)) as Ha.
  pose proof (pow2_pos (l - k - 1) ltac:(lia)) as Hd.
  pose proof (pow2_pos (N - l - 1) ltac:(lia)) as He.
  pose proof (full_matrix_embed_any A k N MA ltac:(lia) ltac:(lia) ltac:(lia) EA) as HA.
  pose proof (full_matrix_embed_any B l N MB ltac:(lia) ltac:(lia) ltac:(lia) EB) as HB.
  set (a := 2 ^ k) in *. set (d := 2 ^ (l - k - 1)) in *.
  set (e := 2 ^ (N - l - 1)) in *.
  assert (E1 : 2 ^ (N - k - 1) = d * (2 * e)).
  { unfold d, e. replace (N - k - 1) with ((l - k - 1) + (1 + (N - l - 1))) by lia.
    rewrite !pow2_split by lia. reflexivity. }
  assert (E2 : 2 ^ l = a * 2 * d).
  { unfold a, d. replace l with (k + 1 + (l - k - 1)) at 1 by lia.
    rewrite !pow2_split by lia. reflexivity. }
  rewrite E1 in HA. rewrite E2 in HB.
  set (P := Mat.kron (Mat.kron (Mat.eye a) A) (Mat.eye d)).
  set (R := Mat.kron B (Mat.eye e)).
  assert (HA' : MA ==m Mat.kron P (Mat.eye (2 * e))).
  { eapply MatFacts.eqm_trans; [exact HA|].
    eapply MatFacts.eqm_trans.
    - apply MatFacts.kron_eqm; [| |apply MatFacts.eqm_refl|
        apply MatFacts.eqm_sym, (MatFacts.eye_kron_eye d (2 * e))];
        cbn [Mat.eye Mat.nrows Mat.ncols]; nia.
    - apply MatFacts.eqm_sym. apply MatAlg.kron_assoc;
        cbn [Mat.eye Mat.nrows Mat.ncols]; lia. }
  assert (HB' : MB ==m Mat.kron (Mat.eye (a * 2 * d)) R).
  { eapply MatFacts.eqm_trans; [exact HB|].
    apply MatAlg.kron_assoc; cbn [Mat.eye Mat.nrows Mat.ncols]; lia. }
  assert (HrP : Mat.nrows P = a * 2 * d)
    by (unfold P; cbn [Mat.kron Mat.eye Mat.nrows]; rewrite HrA; reflexivity).
  assert (HcP : Mat.ncols P = a * 2 * d)
    by (unfold P; cbn [Mat.kron Mat.eye Mat.ncols]; rewrite HcA; reflexivity).
  assert (HrR : Mat.nrows R = 2 * e)
    by (unfold R; cbn [Mat.kron Mat.eye Mat.nrows]; rewrite HrB; reflexivity).
  assert (HcR : Mat.ncols R = 2 * e)
    by (unfold R; cbn [Mat.kron Mat.eye Mat.ncols]; rewrite HcB; reflexivity).
  assert (Hshape1 : Mat.ncols MA = Mat.nrows MB).
  { destruct HA' as (_ & -> & _). destruct HB' as (-> & _).
    cbn [Mat.kron Mat.eye Mat.nrows Mat.ncols]. rewrite HcP, HrR. reflexivity. }
  assert (Hshape2 : Mat.ncols MB = Mat.nrows MA).
  { destruct HA' as (-> & _). destruct HB' as (_ & -> & _).
    cbn [Mat.kron Mat.eye Mat.nrows Mat.ncols]. rewrite HrP, HcR. reflexivity. }
  eapply MatFacts.eqm_trans;
    [apply (MatAlg.mat_mul_eqm _ _ _ _ Hshape1 HA' HB')|].
  eapply MatFacts.eqm_trans;
    [apply kron_factors_commute; (assumption || nia)|].
  apply MatFacts.eqm_sym. apply (MatAlg.mat_mul_eqm _ _ _ _ Hshape2 HB' HA').
Qed.

(** X12. Operators on different sites commute: for 2 x 2 operators [A] and
    [B] and two different sites [k] and [l] of an [N]-site chain, both calls
    of [full_matrix] return, and the product of the two matrices is the same
    in either order. *)
Theorem X12_full_matrix_different_sites_commute
  (A B : Mat.matrix) (k l N : Z) :
  Mat.is_2x2 A -> Mat.is_2x2 B -> 0 <= k < N -> 0 <= l < N -> k <> l ->
  exists MA MB,
    full_matrix A k N = Ok MA /\
    full_matrix B l N = Ok MB /\
    mat_mul MA MB ==m mat_mul MB MA.
Proof.
  intros H2A H2B Hk Hl Hne.
  destruct (full_matrix A k N) as [MA|?] eqn:EA;
    [|rewrite full_matrix_value in EA by assumption; discriminate].
  destruct (full_matrix B l N) as [MB|?] eqn:EB;
    [|rewrite full_matrix_value in EB by assumption; discriminate].
  exists MA, MB. repeat (split; [reflexivity|]).
  destruct (Z.lt_ge_cases k l) as [Hlt|Hge].
  - apply (full_matrix_sites_commute_lt A B k l N); (assumption || lia).
  - apply MatFacts.eqm_sym.
    apply (full_matrix_sites_commute_lt B A l k N); (assumption || lia).
Qed.

Lemma X12_full_matrix_commute_witness :
  (Mat.is_2x2 sigma_x /\ Mat.is_2x2 sigma_z /\ 0 <= 0 < 3 /\ 0 <= 2 < 3 /\ 0 <> 2) /\
  exists MA MB,
    full_matrix sigma_x 0 3 = Ok MA /\
    full_matrix sigma_z 2 3 = Ok MB /\
    mat_mul MA MB ==m mat_mul MB MA.
Proof.
  assert (H1 : Mat.is_2x2 sigma_x) by (split; reflexivity).
  assert (H2 : Mat.is_2x2 sigma_z) by (split; reflexivity).
  assert (H3 : 0 <= 0 < 3) by lia.
  assert (H4 : 0 <= 2 < 3) by lia.
  assert (H5 : 0 <> 2) by lia.
  split; [repeat split; try assumption; lia|].
  exact (X12_full_matrix_different_sites_commute sigma_x sigma_z 0 2 3
           H1 H2 H3 H4 H5).
Defined.

